(** * Photostream virtualization engine: manager and segments

    A shallow embedding of
      - the manager, web/src/lib/managers/photostream-manager/
        PhotostreamManager.svelte.ts,
      - the paginated search-results segment (class [SearchResultsSegment]),
      - the static segment of web/src/lib/managers/simple-photostream-manager/
        SimplePhotostreamManager.ts, as far as the manager sees it,
      - the quota check and the start-up wait of
        server/src/services/asset-upload.service.ts,
    and the properties of the engine that are stated over them.

    The base class of the segments ([PhotostreamSegment]), the cancellable
    task behind [loader] and the helpers of [timeline-manager/internal] are
    not among the embedded files.  What is needed of the base class is
    modelled from the specification and marked as such; what the helpers
    compute is a parameter ([Collaborators]), and every call of a helper is
    recorded.

    Conventions.
      - A TypeScript [number] that holds a pixel quantity or a count is a [Z];
        a ratio that the code obtains by a division is a [Q].  Byte counts
        of the upload service may exceed 2^53, where a [number] no longer
        holds every integer: their sum is rounded as the code rounds it
        ([roundDouble]).
      - A page token ([string | null]) is an [option string].
      - Objects that the code mutates in place (the manager, its segments,
        the arrays of viewer assets) are threaded explicitly: a method takes
        the state and returns the new state.  A segment is addressed by its
        index in [months], which plays the role of the object reference.
      - An [async] method is split at its [await]: the part that runs up to
        the suspension point and the part that runs when the awaited
        operation settles. *)

From Stdlib Require Import ZArith QArith Bool Lia.
From stdpp Require Import gmap strings list.

Open Scope Z_scope.

(** ** Data model *)

(** [TimelineAsset]: the immutable metadata of one media item. *)
Record TimelineAsset := mkTimelineAsset {
  asset_id : string;
  asset_ratio : Z
}.

(** Row-relative geometry of one item, assigned by the layout. *)
Record Position := mkPosition {
  pos_top : Z;
  pos_left : Z;
  pos_width : Z;
  pos_height : Z
}.

(** [ViewerAsset]: an item wrapper; [position] is [undefined] until a layout
    has placed the item. *)
Record ViewerAsset := mkViewerAsset {
  va_asset : TimelineAsset;
  va_position : option Position
}.

(** [new ViewerAsset(segment, asset)] *)
Definition newViewerAsset (a : TimelineAsset) : ViewerAsset :=
  {| va_asset := a; va_position := None |}.

(** [get id()] of a viewer asset is the id of the asset it wraps. *)
Definition va_id (v : ViewerAsset) : string := asset_id (va_asset v).

(** [SearchTerms]: the query criteria of a paginated segment.  [query] and
    [queryAssetId] are the two properties whose presence selects the smart
    search; [size] is the page size; the remaining criteria are kept
    serialized. *)
Record SearchTerms := mkSearchTerms {
  st_query : option string;
  st_queryAssetId : option string;
  st_size : option Z;
  st_other : string
}.

#[global] Instance SearchTerms_eq_dec : EqDecision SearchTerms.
Proof. solve_decision. Defined.

(** The page request handed to the query client by [fetch]:
    [{...searchTerms, withExif: true, isVisible: true, page}], and which of
    [searchSmart] / [searchAssets] receives it.  [rq_page] is the current
    page token; the code sends it converted to a number. *)
Record Request := mkRequest {
  rq_terms : SearchTerms;
  rq_withExif : bool;
  rq_isVisible : bool;
  rq_page : string;
  rq_smart : bool
}.

(** The answer of the query client: [assets.items] and [assets.nextPage]. *)
Record Response := mkResponse {
  rs_items : list TimelineAsset;
  rs_nextPage : option string
}.

(** Modelled from the spec: the load state of a segment, which the absent
    base class [PhotostreamSegment] keeps in its [loader] task
    (NotLoaded --load()--> Loading --(fetch resolves)--> Loaded). *)
Inductive LoadState := NotLoaded | Loading | Loaded.

(** The two segment classes of the sources. *)
Inductive SegmentKind := SimpleSegment | SearchResultsSegment.

(** A segment.  [viewerAssets], [currentPage], [nextPage] and [searchTerms]
    are the private fields of [SearchResultsSegment]; [top], [height],
    [initialCount], the two intersection flags and the load state belong to
    the base class.  The last three fields are ghost state: how often the
    embedded methods ran [layout()] and [fetch()] on the segment and which
    requests it sent to the query client (newest last). *)
Record Segment := mkSegment {
  kind : SegmentKind;
  searchTerms : SearchTerms;
  currentPage : option string;
  nextPage : option string;
  viewerAssets : list ViewerAsset;
  loadState : LoadState;
  intersecting : bool;
  actuallyIntersecting : bool;
  top : Z;
  height : Z;
  initialCount : Z;
  layoutCalls : nat;
  fetchCalls : nat;
  requests : list Request
}.

(** [SegmentIdentifier]: the predicate object a segment is looked up with.
    [MatchAny] is the identifier of the static segment ([matches: () => true]),
    [MatchTerms t] the one of a search-results segment
    ([isEqual(segment.#searchTerms, t)]). *)
Inductive SegmentIdentifier :=
| MatchAny
| MatchTerms (t : SearchTerms).

(** [identifier.matches(segment)].  [#searchTerms] is a private field of
    [SearchResultsSegment]: reading it from a segment of another class
    throws a [TypeError], which is [None] here. *)
Definition matches (i : SegmentIdentifier) (s : Segment) : option bool :=
  match i with
  | MatchAny => Some true
  | MatchTerms t =>
      match kind s with
      | SearchResultsSegment => Some (bool_decide (searchTerms s = t))
      | SimpleSegment => None
      end
  end.

(** [TimelineManagerLayoutOptions]: every field may be left out. *)
Record TimelineManagerLayoutOptions := mkLayoutConfig {
  cfg_headerHeight : option Z;
  cfg_rowHeight : option Z;
  cfg_gap : option Z
}.

(** The object returned by [createLayoutOptions] ([heightTolerance] is the
    constant 0.15). *)
Record LayoutOptions := mkLayoutOptions {
  lo_spacing : Z;
  lo_rowHeight : Z;
  lo_rowWidth : Z
}.

(** Calls into the two helpers of [timeline-manager/internal], which are
    outside the embedded files. *)
Inductive Call :=
| UpdateGeometry (segment : nat) (invalidateHeight : bool)
| UpdateIntersectionMonthGroup (segment : nat).

(** [PhotostreamManager].  [calls] is ghost state, the calls made so far
    (newest last). *)
Record Manager := mkManager {
  isInitialized : bool;
  topSectionHeight : Z;
  bottomSectionHeight : Z;
  viewportHeight : Z;
  viewportWidth : Z;
  scrollTop : Z;
  rowHeight : Z;
  headerHeight : Z;
  gap : Z;
  updatingIntersections : bool;
  months : list Segment;
  calls : list Call
}.

(** The field initializers of the class. *)
Definition newManager (segments : list Segment) : Manager :=
  {| isInitialized := false; topSectionHeight := 0; bottomSectionHeight := 60;
     viewportHeight := 0; viewportWidth := 0; scrollTop := 0;
     rowHeight := 235; headerHeight := 48; gap := 12;
     updatingIntersections := false; months := segments; calls := [] |}.

(** *** Field updates *)

Definition with_headerHeight (v : Z) (m : Manager) : Manager :=
  {| isInitialized := isInitialized m; topSectionHeight := topSectionHeight m;
     bottomSectionHeight := bottomSectionHeight m;
     viewportHeight := viewportHeight m; viewportWidth := viewportWidth m;
     scrollTop := scrollTop m; rowHeight := rowHeight m; headerHeight := v;
     gap := gap m; updatingIntersections := updatingIntersections m;
     months := months m; calls := calls m |}.

Definition with_gap (v : Z) (m : Manager) : Manager :=
  {| isInitialized := isInitialized m; topSectionHeight := topSectionHeight m;
     bottomSectionHeight := bottomSectionHeight m;
     viewportHeight := viewportHeight m; viewportWidth := viewportWidth m;
     scrollTop := scrollTop m; rowHeight := rowHeight m;
     headerHeight := headerHeight m; gap := v;
     updatingIntersections := updatingIntersections m;
     months := months m; calls := calls m |}.

Definition with_rowHeight (v : Z) (m : Manager) : Manager :=
  {| isInitialized := isInitialized m; topSectionHeight := topSectionHeight m;
     bottomSectionHeight := bottomSectionHeight m;
     viewportHeight := viewportHeight m; viewportWidth := viewportWidth m;
     scrollTop := scrollTop m; rowHeight := v; headerHeight := headerHeight m;
     gap := gap m; updatingIntersections := updatingIntersections m;
     months := months m; calls := calls m |}.

Definition with_scrollTop (v : Z) (m : Manager) : Manager :=
  {| isInitialized := isInitialized m; topSectionHeight := topSectionHeight m;
     bottomSectionHeight := bottomSectionHeight m;
     viewportHeight := viewportHeight m; viewportWidth := viewportWidth m;
     scrollTop := v; rowHeight := rowHeight m; headerHeight := headerHeight m;
     gap := gap m; updatingIntersections := updatingIntersections m;
     months := months m; calls := calls m |}.

Definition with_updatingIntersections (v : bool) (m : Manager) : Manager :=
  {| isInitialized := isInitialized m; topSectionHeight := topSectionHeight m;
     bottomSectionHeight := bottomSectionHeight m;
     viewportHeight := viewportHeight m; viewportWidth := viewportWidth m;
     scrollTop := scrollTop m; rowHeight := rowHeight m;
     headerHeight := headerHeight m; gap := gap m;
     updatingIntersections := v; months := months m; calls := calls m |}.

Definition with_months (v : list Segment) (m : Manager) : Manager :=
  {| isInitialized := isInitialized m; topSectionHeight := topSectionHeight m;
     bottomSectionHeight := bottomSectionHeight m;
     viewportHeight := viewportHeight m; viewportWidth := viewportWidth m;
     scrollTop := scrollTop m; rowHeight := rowHeight m;
     headerHeight := headerHeight m; gap := gap m;
     updatingIntersections := updatingIntersections m;
     months := v; calls := calls m |}.

Definition add_calls (cs : list Call) (m : Manager) : Manager :=
  {| isInitialized := isInitialized m; topSectionHeight := topSectionHeight m;
     bottomSectionHeight := bottomSectionHeight m;
     viewportHeight := viewportHeight m; viewportWidth := viewportWidth m;
     scrollTop := scrollTop m; rowHeight := rowHeight m;
     headerHeight := headerHeight m; gap := gap m;
     updatingIntersections := updatingIntersections m;
     months := months m; calls := calls m ++ cs |}.

Definition record_call (c : Call) (m : Manager) : Manager := add_calls [c] m.

(** What is outside the embedded files and enters the manager's methods.
    [computeGeometry m i invalidateHeight] is the geometry that
    [updateGeometry(m, months[i], { invalidateHeight })] of [layout-support]
    leaves behind, segment by segment: top, height and the positions of the
    items, in order (a change of one segment's height moves the segments
    below it).  [computeIntersection m s] is the pair of flags
    [(intersecting, actuallyIntersecting)] that [intersection-support] finds
    for the segment [s].  [INTERSECTION_EXPAND_BOTTOM] is the constant of
    [TUNABLES.TIMELINE], [isSmartSearchEnabled] the option of the search
    manager. *)
Record Collaborators := mkCollaborators {
  computeGeometry : Manager -> nat -> bool -> nat -> Segment -> Z * Z * list Position;
  computeIntersection : Manager -> Segment -> bool * bool;
  INTERSECTION_EXPAND_BOTTOM : Z;
  isSmartSearchEnabled : bool
}.

Definition with_viewerAssets (v : list ViewerAsset) (s : Segment) : Segment :=
  {| kind := kind s; searchTerms := searchTerms s;
     currentPage := currentPage s; nextPage := nextPage s;
     viewerAssets := v; loadState := loadState s; top := top s;
     intersecting := intersecting s; actuallyIntersecting := actuallyIntersecting s;
     height := height s; initialCount := initialCount s;
     layoutCalls := layoutCalls s; fetchCalls := fetchCalls s;
     requests := requests s |}.

Definition with_currentPage (v : option string) (s : Segment) : Segment :=
  {| kind := kind s; searchTerms := searchTerms s;
     currentPage := v; nextPage := nextPage s;
     viewerAssets := viewerAssets s; loadState := loadState s; top := top s;
     intersecting := intersecting s; actuallyIntersecting := actuallyIntersecting s;
     height := height s; initialCount := initialCount s;
     layoutCalls := layoutCalls s; fetchCalls := fetchCalls s;
     requests := requests s |}.

Definition with_nextPage (v : option string) (s : Segment) : Segment :=
  {| kind := kind s; searchTerms := searchTerms s;
     currentPage := currentPage s; nextPage := v;
     viewerAssets := viewerAssets s; loadState := loadState s; top := top s;
     intersecting := intersecting s; actuallyIntersecting := actuallyIntersecting s;
     height := height s; initialCount := initialCount s;
     layoutCalls := layoutCalls s; fetchCalls := fetchCalls s;
     requests := requests s |}.

Definition with_loadState (v : LoadState) (s : Segment) : Segment :=
  {| kind := kind s; searchTerms := searchTerms s;
     currentPage := currentPage s; nextPage := nextPage s;
     viewerAssets := viewerAssets s; loadState := v; top := top s;
     intersecting := intersecting s; actuallyIntersecting := actuallyIntersecting s;
     height := height s; initialCount := initialCount s;
     layoutCalls := layoutCalls s; fetchCalls := fetchCalls s;
     requests := requests s |}.

Definition count_fetch (s : Segment) : Segment :=
  {| kind := kind s; searchTerms := searchTerms s;
     currentPage := currentPage s; nextPage := nextPage s;
     viewerAssets := viewerAssets s; loadState := loadState s; top := top s;
     intersecting := intersecting s; actuallyIntersecting := actuallyIntersecting s;
     height := height s; initialCount := initialCount s;
     layoutCalls := layoutCalls s; fetchCalls := S (fetchCalls s);
     requests := requests s |}.

Definition record_request (r : Request) (s : Segment) : Segment :=
  {| kind := kind s; searchTerms := searchTerms s;
     currentPage := currentPage s; nextPage := nextPage s;
     viewerAssets := viewerAssets s; loadState := loadState s; top := top s;
     intersecting := intersecting s; actuallyIntersecting := actuallyIntersecting s;
     height := height s; initialCount := initialCount s;
     layoutCalls := layoutCalls s; fetchCalls := fetchCalls s;
     requests := requests s ++ [r] |}.

(** ** Segments *)

(** [AssetDescriptor]: [{ id }]. *)
Record AssetDescriptor := mkAssetDescriptor { ad_id : string }.

(** Modelled from the spec: [isLoaded] and [loader.executed] of the absent
    base class [PhotostreamSegment] both say that the load task has run to
    completion. *)
Definition isLoaded (s : Segment) : bool :=
  match loadState s with Loaded => true | _ => false end.

Definition executed (s : Segment) : bool := isLoaded s.

(** Modelled from the spec: [assets] of the absent base class, the items of
    the segment in display order. *)
Definition assets (s : Segment) : list TimelineAsset :=
  map va_asset (viewerAssets s).

(** The value a call of [load] resolves to. *)
Inductive LoadResult := LOADED | WAITED | DONE.

Section Segments.

(** The row-packing algorithm lives in [layout-support], outside the
    embedded files: it maps the items of a segment to one position per item
    and the height of the segment. *)
Variable layoutAlgorithm : LayoutOptions -> list TimelineAsset -> list Position * Z.

Fixpoint assignPositions (ps : list Position) (vs : list ViewerAsset) {struct vs}
    : list ViewerAsset :=
  match vs with
  | [] => []
  | v :: vs' =>
      match ps with
      | [] => v :: vs'
      | p :: ps' =>
          {| va_asset := va_asset v; va_position := Some p |} :: assignPositions ps' vs'
      end
  end.

(** Modelled from the spec: [layout()] of the absent base class.  Geometry is
    assigned only by the layout algorithm: every item keeps its place in the
    sequence and receives its position, the segment its height. *)
Definition layout (o : LayoutOptions) (s : Segment) : Segment :=
  let '(ps, h) := layoutAlgorithm o (assets s) in
  {| kind := kind s; searchTerms := searchTerms s;
     currentPage := currentPage s; nextPage := nextPage s;
     viewerAssets := assignPositions ps (viewerAssets s);
     loadState := loadState s; top := top s;
     intersecting := intersecting s; actuallyIntersecting := actuallyIntersecting s;
     height := h; initialCount := initialCount s;
     layoutCalls := S (layoutCalls s); fetchCalls := fetchCalls s;
     requests := requests s |}.

(** *** SearchResultsSegment *)

(** The constructor: [initialCount = searchTerms.size || 100]. *)
Definition newSearchResultsSegment (page : string) (t : SearchTerms) : Segment :=
  {| kind := SearchResultsSegment; searchTerms := t;
     currentPage := Some page; nextPage := None;
     viewerAssets := []; loadState := NotLoaded; top := 0; intersecting := false;
     actuallyIntersecting := false; height := 0;
     initialCount := match st_size t with
                     | Some n => if n =? 0 then 100 else n
                     | None => 100
                     end;
     layoutCalls := 0; fetchCalls := 0; requests := [] |}.

(** ['query' in searchDto || 'queryAssetId' in searchDto] *)
Definition isSmartQuery (t : SearchTerms) : bool :=
  match st_query t, st_queryAssetId t with
  | None, None => false
  | _, _ => true
  end.

(** [fetch], up to its [await]: nothing without a current page token,
    otherwise the page request.  [smart] is
    [manager.options.isSmartSearchEnabled]. *)
Definition fetch_request (smart : bool) (s : Segment) : option Request :=
  match currentPage s with
  | None => None
  | Some p =>
      Some {| rq_terms := searchTerms s; rq_withExif := true;
              rq_isVisible := true; rq_page := p;
              rq_smart := isSmartQuery (searchTerms s) && smart |}
  end.

(** [fetch], from the answer of the query client on: the next-page token is
    stored, the new items are pushed, the segment is laid out. *)
Definition fetch_response (o : LayoutOptions) (r : Response) (s : Segment) : Segment :=
  layout o
    (with_viewerAssets (viewerAssets s ++ map newViewerAsset (rs_items r))
       (with_nextPage (rs_nextPage r) s)).

(** [fetch] against a query client that answers at once. *)
Definition fetch (client : Request -> Response) (smart : bool) (o : LayoutOptions)
    (s : Segment) : Segment :=
  match fetch_request smart s with
  | None => count_fetch s
  | Some rq => fetch_response o (client rq) (record_request rq (count_fetch s))
  end.

(** The part of an invocation of [fetch] that runs before the query client
    answers, for either kind of segment. *)
Definition fetch_begin (smart : bool) (s : Segment) : Segment :=
  match kind s with
  | SimpleSegment => count_fetch s
  | SearchResultsSegment =>
      match fetch_request smart s with
      | None => count_fetch s
      | Some rq => record_request rq (count_fetch s)
      end
  end.

(** Modelled from the spec: [load(cancelable)] of the absent base class.  It
    starts the fetch of a segment that is not loaded and is a no-op on one
    that is loading or loaded; the result is the value the call resolves
    to when the fetch succeeds. *)
Definition load (cancelable : bool) (smart : bool) (s : Segment) : Segment * LoadResult :=
  match loadState s with
  | NotLoaded => (fetch_begin smart (with_loadState Loading s), LOADED)
  | Loading => (s, WAITED)
  | Loaded => (s, DONE)
  end.

(** Modelled from the spec: the load task settles when its fetch resolves. *)
Definition load_settled (s : Segment) : Segment :=
  match loadState s with
  | Loading => with_loadState Loaded s
  | _ => s
  end.

(** Modelled from the spec: [reload(cancelable)] of the absent base class
    runs the load task again. *)
Definition reload (cancelable : bool) (smart : bool) (s : Segment) : Segment :=
  fst (load cancelable smart (with_loadState NotLoaded s)).

Definition loadNextPage (smart : bool) (s : Segment) : Segment :=
  match nextPage s with
  | Some n =>
      if bool_decide (currentPage s = Some n) then s
      else reload false smart (with_currentPage (Some n) s)
  | None => s
  end.

(** [findAssetAbsolutePosition]; the second argument is
    [this.timelineManager.headerHeight]. *)
Definition findAssetAbsolutePosition (s : Segment) (managerHeaderHeight : Z)
    (assetId : string) : Z :=
  match List.find (fun v => String.eqb (va_id v) assetId) (viewerAssets s) with
  | Some v =>
      match va_position v with
      | None => -1
      | Some p => top s + pos_top p + managerHeaderHeight
      end
  | None => -1
  end.

(** *** A paginated segment and its query client

    The segment runs against a client whose answers arrive later: [script]
    holds the answers the client is going to give, in order.  [Resolve]
    delivers the next answer to the fetch in flight, [LoadNextPage] is a call
    of the method. *)
Inductive PageEvent := Resolve | LoadNextPage.

Definition page_step (smart : bool) (o : LayoutOptions) (e : PageEvent)
    (w : Segment * list Response) : Segment * list Response :=
  let '(s, script) := w in
  match e with
  | LoadNextPage => (loadNextPage smart s, script)
  | Resolve =>
      match loadState s, script with
      | Loading, r :: rest => (load_settled (fetch_response o r s), rest)
      | _, _ => (s, script)
      end
  end.

Definition page_run (smart : bool) (o : LayoutOptions) (es : list PageEvent)
    (w : Segment * list Response) : Segment * list Response :=
  fold_left (fun w e => page_step smart o e w) es w.

(** The pages a segment asked the client for. *)
Definition requestedPages (s : Segment) : list string := map rq_page (requests s).

(** ** Manager *)

(** [assetCount] is not embedded: it reads [assetsCount] of the base class. *)
Definition timelineHeight (m : Manager) : Z :=
  fold_left (fun accumulator b => accumulator + height b) (months m) 0
  + topSectionHeight m.

(** [visibleWindow]: [(top, bottom)]. *)
Definition visibleWindow (m : Manager) : Z * Z :=
  (scrollTop m, scrollTop m + viewportHeight m).

Definition setHeaderHeight (value : Z) (m : Manager) : Manager * bool :=
  if headerHeight m =? value then (m, false) else (with_headerHeight value m, true).

Definition setGap (value : Z) (m : Manager) : Manager * bool :=
  if gap m =? value then (m, false) else (with_gap value m, true).

Definition setRowHeight (value : Z) (m : Manager) : Manager * bool :=
  if rowHeight m =? value then (m, false) else (with_rowHeight value m, true).

(** [changed ||= f()]: the right-hand side is evaluated only when [changed]
    is false. *)
Definition or_assign (changed : bool) (f : Manager -> Manager * bool) (m : Manager)
    : Manager * bool :=
  if changed then (m, changed) else f m.

(** *** The helpers of [timeline-manager/internal] *)

Variable env : Collaborators.

(** The geometry of a segment is replaced: its top, its height and the
    positions of its items. *)
Definition with_geometry (g : Z * Z * list Position) (s : Segment) : Segment :=
  let '(t, h, ps) := g in
  {| kind := kind s; searchTerms := searchTerms s;
     currentPage := currentPage s; nextPage := nextPage s;
     viewerAssets := assignPositions ps (viewerAssets s);
     loadState := loadState s; top := t;
     intersecting := intersecting s; actuallyIntersecting := actuallyIntersecting s;
     height := h; initialCount := initialCount s;
     layoutCalls := layoutCalls s; fetchCalls := fetchCalls s;
     requests := requests s |}.

(** Modelled from the spec: [updateGeometry(manager, month, options)] of the
    absent [layout-support] recomputes geometry and nothing else; which
    geometry is left to [computeGeometry].  [i] is the index of [month]. *)
Definition updateGeometry (m : Manager) (i : nat) (invalidateHeight : bool) : Manager :=
  record_call (UpdateGeometry i invalidateHeight)
    (with_months
       (imap (fun j s => with_geometry (computeGeometry env m i invalidateHeight j s) s)
          (months m))
       m).

(** Modelled from the spec: [updateIntersection(flags)] of the absent base
    class records the two flags. *)
Definition with_intersection (flags : bool * bool) (s : Segment) : Segment :=
  {| kind := kind s; searchTerms := searchTerms s;
     currentPage := currentPage s; nextPage := nextPage s;
     viewerAssets := viewerAssets s; loadState := loadState s; top := top s;
     intersecting := fst flags; actuallyIntersecting := snd flags;
     height := height s; initialCount := initialCount s;
     layoutCalls := layoutCalls s; fetchCalls := fetchCalls s;
     requests := requests s |}.

(** [updateIntersection({ intersecting, actuallyIntersecting })] of a
    segment whose manager is [m].  The static segment inherits the method of
    the base class; [SearchResultsSegment] overrides it and asks for the
    next page when the window is near the bottom of the timeline. *)
Definition updateIntersection (m : Manager) (flags : bool * bool) (s : Segment) : Segment :=
  let s := with_intersection flags s in
  match kind s with
  | SimpleSegment => s
  | SearchResultsSegment =>
      let nearBottom :=
        timelineHeight m - snd (visibleWindow m) <? INTERSECTION_EXPAND_BOTTOM env in
      if nearBottom then loadNextPage (isSmartSearchEnabled env) s else s
  end.

(** Modelled from the spec: [updateIntersectionMonthGroup(manager, month)]
    of the absent [intersection-support] finds the two flags of the segment
    and hands them to its [updateIntersection].  [i] is the index of
    [month]; the call is recorded also when there is no such segment. *)
Definition updateIntersectionMonthGroup (m : Manager) (i : nat) : Manager :=
  record_call (UpdateIntersectionMonthGroup i)
    match months m !! i with
    | Some s =>
        let flags := computeIntersection env m s in
        with_months (<[i := updateIntersection m flags s]> (months m)) m
    | None => m
    end.

(** *** The methods of the manager *)

Definition updateIntersections (m : Manager) : Manager :=
  if updatingIntersections m || negb (isInitialized m)
     || (snd (visibleWindow m) =? fst (visibleWindow m))
  then m
  else
    let m1 := with_updatingIntersections true m in
    let m2 := fold_left (fun acc i => updateIntersectionMonthGroup acc i)
                (seq 0 (length (months m1))) m1 in
    with_updatingIntersections false m2.

Definition updateSlidingWindow (value : Z) (m : Manager) : Manager :=
  if scrollTop m =? value then m
  else updateIntersections (with_scrollTop value m).

Definition updateViewportGeometry (changedWidth : bool) (m : Manager) : Manager :=
  if negb (isInitialized m) then m
  else if (viewportWidth m =? 0) || (viewportHeight m =? 0) then m
  else
    updateIntersections
      (fold_left (fun acc i => updateGeometry acc i changedWidth)
         (seq 0 (length (months m))) m).

Definition refreshLayout (m : Manager) : Manager :=
  updateIntersections
    (fold_left (fun acc i => updateGeometry acc i true)
       (seq 0 (length (months m))) m).

Definition setLayoutOptions (c : TimelineManagerLayoutOptions) (m : Manager) : Manager :=
  let headerHeight := default 48 (cfg_headerHeight c) in
  let rowHeight := default 235 (cfg_rowHeight c) in
  let gap := default 12 (cfg_gap c) in
  let changed := false in
  let '(m, changed) := or_assign changed (setHeaderHeight headerHeight) m in
  let '(m, changed) := or_assign changed (setGap gap) m in
  let '(m, changed) := or_assign changed (setRowHeight rowHeight) m in
  if changed then refreshLayout m else m.

(** [Math.floor] of an integral width is the width. *)
Definition createLayoutOptions (m : Manager) : LayoutOptions :=
  {| lo_spacing := 2; lo_rowHeight := rowHeight m; lo_rowWidth := viewportWidth m |}.

Fixpoint findIndex {A} (p : A -> bool) (l : list A) : option nat :=
  match l with
  | [] => None
  | x :: l' => if p x then Some 0%nat else option_map S (findIndex p l')
  end.

(** What [months.find((segment) => identifier.matches(segment))] comes to:
    the index of the segment found, [undefined], or the [TypeError] of a
    [matches] that threw. *)
Inductive Lookup := Found (i : nat) | NotFound | TypeError.

Definition shift (r : Lookup) : Lookup :=
  match r with
  | Found i => Found (S i)
  | NotFound => NotFound
  | TypeError => TypeError
  end.

Fixpoint findMatching (identifier : SegmentIdentifier) (l : list Segment) : Lookup :=
  match l with
  | [] => NotFound
  | segment :: l' =>
      match matches identifier segment with
      | Some true => Found 0%nat
      | Some false => shift (findMatching identifier l')
      | None => TypeError
      end
  end.

Definition getSegmentByIdentifier (identifier : SegmentIdentifier) (m : Manager)
    : Lookup :=
  findMatching identifier (months m).

(** [findSegmentForAssetId], as the index of the segment found. *)
Definition findSegmentForAssetId (assetId : string) (m : Manager) : option nat :=
  findIndex (fun month =>
               match List.find (fun a => String.eqb (asset_id a) assetId) (assets month) with
               | Some _ => true
               | None => false
               end) (months m).

(** How a call of [loadSegment] leaves its synchronous part: it returns, it
    suspends on the load of segment [i], which is going to resolve to
    [result], or the lookup has thrown. *)
Inductive Outcome :=
| Returned
| Suspended (i : nat) (result : LoadResult)
| Thrown.

(** [loadSegment], up to its [await]: the new state and the outcome.
    [smart] is [manager.options.isSmartSearchEnabled]. *)
Definition loadSegment_call (smart : bool) (identifier : SegmentIdentifier)
    (options : option bool) (m : Manager) : Manager * Outcome :=
  let cancelable := default true options in
  match getSegmentByIdentifier identifier m with
  | TypeError => (m, Thrown)
  | NotFound => (m, Returned)
  | Found i =>
      match months m !! i with
      | None => (m, Returned)
      | Some segment =>
          if executed segment then (m, Returned)
          else
            let '(segment', result) := load cancelable smart segment in
            (with_months (<[i := segment']> (months m)) m, Suspended i result)
      end
  end.




Definition getMaxScrollPercent (m : Manager) : Q :=
  let totalHeight := timelineHeight m + bottomSectionHeight m + topSectionHeight m in
  (inject_Z (totalHeight - viewportHeight m) / inject_Z totalHeight)%Q.

Definition getMaxScroll (m : Manager) : Z :=
  topSectionHeight m + bottomSectionHeight m + (timelineHeight m - viewportHeight m).

(** The inner loop of [retrieveLoadedRange] over the assets of one month:
    [inr range] when the loop returns from the method, [inl] with the loop
    variables when it runs to the end of the month. *)
Fixpoint collectMonth (startId endId : string) (l : list TimelineAsset)
    (collecting : bool) (range : list TimelineAsset)
    : (bool * list TimelineAsset) + list TimelineAsset :=
  match l with
  | [] => inl (collecting, range)
  | asset :: l' =>
      let collecting := if String.eqb (asset_id asset) startId then true else collecting in
      let range := if collecting then range ++ [asset] else range in
      if String.eqb (asset_id asset) endId then inr range
      else collectMonth startId endId l' collecting range
  end.

Fixpoint collectMonths (startId endId : string) (ms : list Segment)
    (collecting : bool) (range : list TimelineAsset) : list TimelineAsset :=
  match ms with
  | [] => range
  | month :: ms' =>
      if collecting && negb (isLoaded month) then []
      else
        match collectMonth startId endId (assets month) collecting range with
        | inr r => r
        | inl (collecting', range') => collectMonths startId endId ms' collecting' range'
        end
  end.

Definition retrieveLoadedRange (start end_ : AssetDescriptor) (m : Manager)
    : list TimelineAsset :=
  collectMonths (ad_id start) (ad_id end_) (months m) false [].

(** The loop [for (let i = length - 1; i >= 0; i--)] of [removeAssets] over
    one segment; [n] is [i + 1]. *)
Fixpoint spliceMatching (assetIdSet : gset string) (n : nat)
    (vs : list ViewerAsset) (removedIds : list string)
    : list ViewerAsset * list string :=
  match n with
  | O => (vs, removedIds)
  | S i =>
      match vs !! i with
      | Some v =>
          if bool_decide (va_id v ∈ assetIdSet)
          then spliceMatching assetIdSet i (delete i vs) (removedIds ++ [va_id v])
          else spliceMatching assetIdSet i vs removedIds
      | None => spliceMatching assetIdSet i vs removedIds
      end
  end.

(** The loop of [removeAssets] over the segments. *)
Fixpoint removeFromSegments (o : LayoutOptions) (assetIdSet : gset string)
    (segments : list Segment) (removedIds : list string)
    : list Segment * list string :=
  match segments with
  | [] => ([], removedIds)
  | segment :: rest =>
      let '(vs, removedIds) :=
        spliceMatching assetIdSet (length (viewerAssets segment))
          (viewerAssets segment) removedIds in
      let segment := with_viewerAssets vs segment in
      let segment := if (0 <? length removedIds)%nat then layout o segment else segment in
      let '(rest', removedIds) := removeFromSegments o assetIdSet rest removedIds in
      (segment :: rest', removedIds)
  end.

(** [removedIds.includes(id)] *)
Definition includes (l : list string) (id : string) : bool :=
  existsb (String.eqb id) l.

(** [removeAssets]: the new state, the returned ids and, as a ghost result,
    the final [removedIds]. *)
Definition removeAssets_run (assetIds : list string) (m : Manager)
    : Manager * list string * list string :=
  let assetIdSet : gset string := list_to_set assetIds in
  let '(segments, removedIds) :=
    removeFromSegments (createLayoutOptions m) assetIdSet (months m) [] in
  let m := with_months segments m in
  let m := if (0 <? length removedIds)%nat then updateViewportGeometry false m else m in
  (m, List.filter (fun id => negb (includes removedIds id)) assetIds, removedIds).

Definition removeAssets (assetIds : list string) (m : Manager) : Manager * list string :=
  fst (removeAssets_run assetIds m).

End Segments.

(** ** The intersection scan and its collaborator

    [updateIntersectionMonthGroup(this, month)] is outside the embedded
    files.  It receives the manager itself and so may call back into its
    public methods, [updateIntersections] among them (a segment's
    intersection callback that changes the layout does so).  The helper as
    it is modelled above asks for no scan.  Here the collaborator is any
    function: a parameter that is handed the manager's own
    [updateIntersections] as its first argument; [None] stands for a call
    chain that is cut off because the recursion budget [fuel] is used up. *)
Section Reentrancy.

Variable updateIntersectionMonthGroup :
  (Manager -> option Manager) -> Manager -> nat -> option Manager.

Fixpoint scanMonthGroups (step : Manager -> nat -> option Manager)
    (indices : list nat) (m : Manager) : option Manager :=
  match indices with
  | [] => Some m
  | i :: rest =>
      match step m i with
      | Some m' => scanMonthGroups step rest m'
      | None => None
      end
  end.

Fixpoint updateIntersectionsRec (fuel : nat) (m : Manager) : option Manager :=
  match fuel with
  | O => None
  | S fuel' =>
      if updatingIntersections m || negb (isInitialized m)
         || (snd (visibleWindow m) =? fst (visibleWindow m))
      then Some m
      else
        let m1 := with_updatingIntersections true m in
        match scanMonthGroups
                (updateIntersectionMonthGroup (updateIntersectionsRec fuel'))
                (seq 0 (length (months m1))) m1 with
        | Some m2 => Some (with_updatingIntersections false m2)
        | None => None
        end
  end.

End Reentrancy.

(** A call of the scan that is suppressed: it returns, and returns the state
    it was given. *)
Definition suppresses (self : Manager -> option Manager) : Prop :=
  forall x, updatingIntersections x = true -> self x = Some x.

(** What is assumed of the collaborator.  [#updatingIntersections] is a
    private field, so a collaborator that runs during a scan leaves it set
    and returns as long as the scans it asks for return ([wb_flag]); and it
    asks for a scan only through the manager, in states in which the flag is
    set ([wb_self]). *)
Record WellBehaved
    (callee : (Manager -> option Manager) -> Manager -> nat -> option Manager) : Prop := {
  wb_flag : forall self m i,
      suppresses self -> updatingIntersections m = true ->
      exists m', callee self m i = Some m' /\ updatingIntersections m' = true;
  wb_self : forall self1 self2 m i,
      suppresses self1 -> suppresses self2 -> updatingIntersections m = true ->
      callee self1 m i = callee self2 m i
}.

(** The helper as it is modelled for the methods of the manager: it asks for
    no scan. *)
Definition helperMonthGroup (env : Collaborators) (self : Manager -> option Manager)
    (m : Manager) (i : nat) : option Manager :=
  Some (updateIntersectionMonthGroup env m i).

(** The collaborator that does nothing but leave its mark in [calls]. *)
Definition recordingMonthGroup (self : Manager -> option Manager) (m : Manager)
    (i : nat) : option Manager :=
  Some (record_call (UpdateIntersectionMonthGroup i) m).

(** A collaborator that asks for a scan twice per segment, moving the scroll
    offset in between. *)
Definition reenteringMonthGroup (self : Manager -> option Manager) (m : Manager)
    (i : nat) : option Manager :=
  match self (record_call (UpdateIntersectionMonthGroup i) m) with
  | Some m' => self (with_scrollTop (scrollTop m' + 1) m')
  | None => None
  end.

(** ** The quantities of the specification *)

(** [sum(segment.height)] *)
Definition segmentsHeight (m : Manager) : Z :=
  foldr (fun s acc => height s + acc) 0 (months m).

(** The gaps between the segments: one [gap] between any two neighbours. *)
Definition gapsBetweenSegments (m : Manager) : Z :=
  gap m * Z.of_nat (pred (length (months m))).

(** "Header + footer chrome plus total segment height minus viewport
    height". *)
Definition scrollableExtent (m : Manager) : Z :=
  topSectionHeight m + bottomSectionHeight m + segmentsHeight m - viewportHeight m.

(** The segments a range query spans: from the first segment that holds an
    item with the start id to the first segment, from there on, that holds
    an item with the end id. *)
Definition holds (id : string) (s : Segment) : bool :=
  existsb (fun a => String.eqb (asset_id a) id) (assets s).

(** The items of a run of segments, in timeline order. *)
Definition timelineAssets (ms : list Segment) : list TimelineAsset :=
  concat (map assets ms).

(** No item of [l] has the id [id]. *)
Definition withoutId (id : string) (l : list TimelineAsset) : Prop :=
  Forall (fun x => asset_id x <> id) l.

(** The ids of the viewer assets of a segment that are in the set, and the
    viewer assets that are not, both in the order of the segment. *)
Definition matching (assetIdSet : gset string) (vs : list ViewerAsset) : list string :=
  List.filter (fun id => bool_decide (id ∈ assetIdSet)) (map va_id vs).

Definition surviving (assetIdSet : gset string) (vs : list ViewerAsset)
    : list ViewerAsset :=
  List.filter (fun v => negb (bool_decide (va_id v ∈ assetIdSet))) vs.

(** What the loop of [removeAssets] does to one segment: the viewer assets
    with an id of the set are gone, the others keep their order, and a
    segment that lost an item has been laid out once. *)
Definition removedFrom (assetIdSet : gset string) (s s' : Segment) : Prop :=
  assets s' = map va_asset (surviving assetIdSet (viewerAssets s))
  /\ (matching assetIdSet (viewerAssets s) <> [] -> layoutCalls s' = S (layoutCalls s)).

(** ** What the helpers leave as it was *)

(** The fields of the manager other than its segments and the recorded
    calls. *)
Definition settings (m : Manager) : bool * Z * Z * Z * Z * Z * Z * Z * Z * bool :=
  (isInitialized m, topSectionHeight m, bottomSectionHeight m, viewportHeight m,
   viewportWidth m, scrollTop m, rowHeight m, headerHeight m, gap m,
   updatingIntersections m).

(** The segment [s'] is [s] with the same class, search terms and items and
    as many [layout()] calls. *)
Definition sameItems (s s' : Segment) : Prop :=
  kind s' = kind s /\ searchTerms s' = searchTerms s
  /\ assets s' = assets s /\ layoutCalls s' = layoutCalls s.

(** The state [m'] is [m] after the calls [cs] of the helpers: the calls are
    recorded, the settings are the same, and the segments are the same in
    number, order, class, search terms and items.  Geometry, intersection
    flags and pagination may differ. *)
Definition evolves (cs : list Call) (m m' : Manager) : Prop :=
  settings m' = settings m
  /\ calls m' = calls m ++ cs
  /\ Forall2 sameItems (months m) (months m').

(** ** Sample data *)

(** Helpers that stack the segments below the top section, give a segment
    whose height is invalidated one row per item, test the overlap with the
    window and its margin of 500, and find no positions. *)
Definition sampleCollaborators : Collaborators :=
  {| computeGeometry := fun m i invalidateHeight j s =>
       (topSectionHeight m
        + fold_left (fun acc b => acc + height b) (take j (months m)) 0,
        if invalidateHeight && (j =? i)%nat
        then Z.of_nat (length (viewerAssets s)) * rowHeight m
        else height s,
        []);
     computeIntersection := fun m s =>
       let '(t, b) := visibleWindow m in
       ((top s <? b + 500) && (t - 500 <? top s + height s),
        (top s <? b) && (t <? top s + height s));
     INTERSECTION_EXPAND_BOTTOM := 500;
     isSmartSearchEnabled := true |}.

Definition asset (id : string) : TimelineAsset :=
  {| asset_id := id; asset_ratio := 1 |}.

Definition noTerms : SearchTerms :=
  {| st_query := None; st_queryAssetId := None; st_size := None; st_other := "" |}.

Definition catTerms : SearchTerms :=
  {| st_query := Some "cat"; st_queryAssetId := None; st_size := Some 2;
     st_other := "" |}.

(** A segment with the given load state, height and items. *)
Definition sampleSegment (st : LoadState) (h : Z) (ids : list string) : Segment :=
  {| kind := SimpleSegment; searchTerms := noTerms;
     currentPage := None; nextPage := None;
     viewerAssets := map (fun id => newViewerAsset (asset id)) ids;
     loadState := st; top := 0; intersecting := false;
     actuallyIntersecting := false; height := h; initialCount := 0;
     layoutCalls := 0; fetchCalls := 0; requests := [] |}.

(** An initialized manager with a 1000 x 800 viewport over the given
    segments and the default layout options. *)
Definition sampleManager (segments : list Segment) : Manager :=
  {| isInitialized := true; topSectionHeight := 0; bottomSectionHeight := 60;
     viewportHeight := 800; viewportWidth := 1000; scrollTop := 0;
     rowHeight := 235; headerHeight := 48; gap := 12;
     updatingIntersections := false; months := segments; calls := [] |}.

(** A layout that stacks the items in one column of rows of the target
    height. *)
Definition columnLayout (o : LayoutOptions) (l : list TimelineAsset)
    : list Position * Z :=
  (imap (fun i _ => {| pos_top := Z.of_nat i * lo_rowHeight o; pos_left := 0;
                       pos_width := lo_rowWidth o; pos_height := lo_rowHeight o |}) l,
   Z.of_nat (length l) * lo_rowHeight o).

(** A segment at top 500 with an unplaced item "a" and an item "b" placed at
    row-relative top 235, under the header height 48. *)
Definition positionedSegment : Segment :=
  {| kind := SearchResultsSegment; searchTerms := catTerms;
     currentPage := Some "1"; nextPage := None;
     viewerAssets := [ newViewerAsset (asset "a");
                       {| va_asset := asset "b";
                          va_position := Some {| pos_top := 235; pos_left := 0;
                                                 pos_width := 100; pos_height := 235 |} |} ];
     loadState := Loaded; top := 500; intersecting := false;
     actuallyIntersecting := false; height := 470; initialCount := 2;
     layoutCalls := 1; fetchCalls := 1; requests := [] |}.

(** The stage of a paginated segment and its client: which page is current,
    which token is stored, whether a fetch is in flight, which pages have
    been asked for, and which tokens the client is still going to send. *)
Definition stage (w : Segment * list Response)
    (cur : string) (next : option string) (st : LoadState)
    (asked : list string) (tokens : list (option string)) : Prop :=
  kind (fst w) = SearchResultsSegment
  /\ currentPage (fst w) = Some cur /\ nextPage (fst w) = next
  /\ loadState (fst w) = st /\ requestedPages (fst w) = asked
  /\ map rs_nextPage (snd w) = tokens.

(** The stages passed against a client whose answers carry the next-page
    tokens "2", "3", null. *)
Definition on_course (w : Segment * list Response) : Prop :=
  stage w "1" None Loading ["1"] [Some "2"; Some "3"; None]
  \/ stage w "1" (Some "2") Loaded ["1"] [Some "3"; None]
  \/ stage w "2" (Some "2") Loading ["1"; "2"] [Some "3"; None]
  \/ stage w "2" (Some "3") Loaded ["1"; "2"] [None]
  \/ stage w "3" (Some "3") Loading ["1"; "2"; "3"] [None]
  \/ stage w "3" None Loaded ["1"; "2"; "3"] [].

(** A search-results segment on page "1" whose first load has been started,
    and a client that is going to answer with the given items and the
    next-page tokens "2", "3", null. *)
Definition pagedWorld (smart : bool) (t : SearchTerms)
    (items1 items2 items3 : list TimelineAsset) : Segment * list Response :=
  (fst (load true smart (newSearchResultsSegment "1" t)),
   [ {| rs_items := items1; rs_nextPage := Some "2" |};
     {| rs_items := items2; rs_nextPage := Some "3" |};
     {| rs_items := items3; rs_nextPage := None |} ]).

(** A schedule in which every answer is followed by at least one call of
    [loadNextPage]. *)
Definition eagerSchedule (a b c : nat) : list PageEvent :=
  Resolve :: repeat LoadNextPage (S a)
  ++ Resolve :: repeat LoadNextPage (S b)
  ++ Resolve :: repeat LoadNextPage c.

(** ** Further operations of the manager and of the segments *)

Definition with_isInitialized (v : bool) (m : Manager) : Manager :=
  {| isInitialized := v; topSectionHeight := topSectionHeight m;
     bottomSectionHeight := bottomSectionHeight m;
     viewportHeight := viewportHeight m; viewportWidth := viewportWidth m;
     scrollTop := scrollTop m; rowHeight := rowHeight m;
     headerHeight := headerHeight m; gap := gap m;
     updatingIntersections := updatingIntersections m;
     months := months m; calls := calls m |}.

Definition with_viewportWidth (v : Z) (m : Manager) : Manager :=
  {| isInitialized := isInitialized m; topSectionHeight := topSectionHeight m;
     bottomSectionHeight := bottomSectionHeight m;
     viewportHeight := viewportHeight m; viewportWidth := v;
     scrollTop := scrollTop m; rowHeight := rowHeight m;
     headerHeight := headerHeight m; gap := gap m;
     updatingIntersections := updatingIntersections m;
     months := months m; calls := calls m |}.

Definition with_viewportHeight (v : Z) (m : Manager) : Manager :=
  {| isInitialized := isInitialized m; topSectionHeight := topSectionHeight m;
     bottomSectionHeight := bottomSectionHeight m;
     viewportHeight := v; viewportWidth := viewportWidth m;
     scrollTop := scrollTop m; rowHeight := rowHeight m;
     headerHeight := headerHeight m; gap := gap m;
     updatingIntersections := updatingIntersections m;
     months := months m; calls := calls m |}.

(** [destroy()] *)
Definition destroy (m : Manager) : Manager := with_isInitialized false m.

(** [get identifier()] of the two segment classes: the static segment
    answers every identifier, a search-results segment compares search
    terms. *)
Definition identifier (s : Segment) : SegmentIdentifier :=
  match kind s with
  | SimpleSegment => MatchAny
  | SearchResultsSegment => MatchTerms (searchTerms s)
  end.

(** The flags [#scrolling] and [#suspendTransitions] of the manager and
    their debounced resets.  A debounced function is kept as the fact that a
    call of it is pending; when its timer fires, the pending call runs. *)
Record Transitions := mkTransitions {
  scrolling : bool;
  suspendTransitions : bool;
  resetScrollingPending : bool;
  resetSuspendTransitionsPending : bool
}.

(** The manager with its transition flags. *)
Record ManagerView := mkManagerView {
  manager : Manager;
  transitions : Transitions
}.

(** [set suspendTransitions(value)] *)
Definition set_suspendTransitions (value : bool) (t : Transitions) : Transitions :=
  {| scrolling := scrolling t; suspendTransitions := value;
     resetScrollingPending := resetScrollingPending t;
     resetSuspendTransitionsPending :=
       if value then true else resetSuspendTransitionsPending t |}.

(** [set scrolling(value)] *)
Definition set_scrolling (value : bool) (t : Transitions) : Transitions :=
  let t := {| scrolling := value; suspendTransitions := suspendTransitions t;
              resetScrollingPending := resetScrollingPending t;
              resetSuspendTransitionsPending := resetSuspendTransitionsPending t |} in
  if value then
    let t := set_suspendTransitions true t in
    {| scrolling := scrolling t; suspendTransitions := suspendTransitions t;
       resetScrollingPending := true;
       resetSuspendTransitionsPending := resetSuspendTransitionsPending t |}
  else t.

(** The timer of [#resetScrolling] fires: [this.#scrolling = false]. *)
Definition fire_resetScrolling (t : Transitions) : Transitions :=
  if resetScrollingPending t then
    {| scrolling := false; suspendTransitions := suspendTransitions t;
       resetScrollingPending := false;
       resetSuspendTransitionsPending := resetSuspendTransitionsPending t |}
  else t.

(** The timer of [#resetSuspendTransitions] fires:
    [this.suspendTransitions = false]. *)
Definition fire_resetSuspendTransitions (t : Transitions) : Transitions :=
  if resetSuspendTransitionsPending t then
    set_suspendTransitions false
      {| scrolling := scrolling t; suspendTransitions := suspendTransitions t;
         resetScrollingPending := resetScrollingPending t;
         resetSuspendTransitionsPending := false |}
  else t.

(** [set viewportWidth(value)] *)
Definition set_viewportWidth (env : Collaborators) (value : Z) (v : ManagerView)
    : ManagerView :=
  let changed := negb (value =? viewportWidth (manager v)) in
  {| manager := updateViewportGeometry env changed (with_viewportWidth value (manager v));
     transitions := set_suspendTransitions true (transitions v) |}.

(** [set viewportHeight(value)]: the flag is written directly, its setter is
    not used. *)
Definition set_viewportHeight (env : Collaborators) (value : Z) (v : ManagerView)
    : ManagerView :=
  {| manager := updateViewportGeometry env false (with_viewportHeight value (manager v));
     transitions :=
       {| scrolling := scrolling (transitions v); suspendTransitions := true;
          resetScrollingPending := resetScrollingPending (transitions v);
          resetSuspendTransitionsPending :=
            resetSuspendTransitionsPending (transitions v) |} |}.

(** [Viewport]: [{ width, height }]. *)
Record Viewport := mkViewport { vp_width : Z; vp_height : Z }.

(** [updateViewport(viewport)] on a manager whose init task has executed, so
    that the method does not suspend. *)
Definition updateViewport (env : Collaborators) (viewport : Viewport) (v : ManagerView)
    : ManagerView :=
  if (vp_height viewport =? 0) && (vp_width viewport =? 0) then v
  else if (viewportHeight (manager v) =? vp_height viewport)
          && (viewportWidth (manager v) =? vp_width viewport) then v
  else
    let changedWidth := negb (vp_width viewport =? viewportWidth (manager v)) in
    let v := set_viewportHeight env (vp_height viewport) v in
    let v := set_viewportWidth env (vp_width viewport) v in
    {| manager := updateViewportGeometry env changedWidth (manager v);
       transitions := transitions v |}.

(** When the scan of [updateIntersections] runs: no scan is in progress, the
    manager is initialized and the viewport has a height. *)
Definition scanRuns (m : Manager) : bool :=
  negb (updatingIntersections m) && isInitialized m && negb (viewportHeight m =? 0).

(** The calls of one scan and of one round of geometry updates. *)
Definition scanCalls (m : Manager) : list Call :=
  if scanRuns m
  then map UpdateIntersectionMonthGroup (seq 0 (length (months m)))
  else [].

Definition geometryCalls (invalidateHeight : bool) (m : Manager) : list Call :=
  map (fun i => UpdateGeometry i invalidateHeight) (seq 0 (length (months m))).

(** A geometry update that asks for the heights to be invalidated. *)
Definition invalidatesHeight (c : Call) : bool :=
  match c with
  | UpdateGeometry _ b => b
  | UpdateIntersectionMonthGroup _ => false
  end.

(** Some segment among [segments] holds an item with one of the ids. *)
Definition anyHeld (assetIds : list string) (segments : list Segment) : bool :=
  existsb (fun s => existsb (fun id => holds id s) assetIds) segments.

(** What a lookup returns: the first segment, in order, that satisfies
    the test, or nothing when none does. *)
Definition firstWhere (p : Segment -> bool) (m : Manager) (found : option nat) : Prop :=
  match found with
  | Some i =>
      exists s, months m !! i = Some s /\ p s = true
                /\ forall j s', (j < i)%nat -> months m !! j = Some s' -> p s' = false
  | None => forall s, In s (months m) -> p s = false
  end.

(** What a lookup by identifier comes to: the first segment, in order, that
    the identifier matches; nothing when it matches none; and a [TypeError]
    when [matches] throws on a segment before it has matched one. *)
Definition lookedUp (identifier : SegmentIdentifier) (segments : list Segment)
    (r : Lookup) : Prop :=
  match r with
  | Found i =>
      exists s, segments !! i = Some s /\ matches identifier s = Some true
                /\ forall j s', (j < i)%nat -> segments !! j = Some s' ->
                                matches identifier s' = Some false
  | NotFound => forall s, In s segments -> matches identifier s = Some false
  | TypeError =>
      exists i s, segments !! i = Some s /\ matches identifier s = None
                  /\ forall j s', (j < i)%nat -> segments !! j = Some s' ->
                                  matches identifier s' = Some false
  end.

(** The calls of one [updateViewportGeometry]. *)
Definition viewportGeometryCalls (changedWidth : bool) (m : Manager) : list Call :=
  if isInitialized m && negb (viewportWidth m =? 0) && negb (viewportHeight m =? 0)
  then geometryCalls changedWidth m ++ scanCalls m
  else [].

(** The timers of the two debounced resets, fired in some order. *)
Inductive Timer := ResetScrolling | ResetSuspendTransitions.

Definition fire (k : Timer) (t : Transitions) : Transitions :=
  match k with
  | ResetScrolling => fire_resetScrolling t
  | ResetSuspendTransitions => fire_resetSuspendTransitions t
  end.

(** ** The upload service

    Two methods of [AssetUploadService]
    (server/src/services/asset-upload.service.ts) that stand on their own. *)

(** The fields of [auth.user] that the quota check reads. *)
Record AuthUser := mkAuthUser {
  quotaSizeInBytes : option Z;
  quotaUsageInBytes : Z
}.

(** The [number] that an integer is rounded to: the integer itself when 53
    bits hold it, otherwise the nearest integer with 53 significant bits,
    the even one of two that are equally near.  (A sum beyond the largest
    [number] is [Infinity] in the code; the integer kept here likewise
    exceeds every quota that is a [number].) *)
Definition roundDouble (z : Z) : Z :=
  let a := Z.abs z in
  let e := Z.log2 a - 52 in
  if e <=? 0 then z
  else
    let q := Z.shiftr a e in
    let r := Z.land a (Z.ones e) in
    let half := Z.shiftl 1 (e - 1) in
    let q := if r <? half then q
             else if half <? r then q + 1
             else if Z.even q then q else q + 1 in
    Z.sgn z * Z.shiftl q e.

(** [requireQuota]: [None] when the method returns, the message of the
    [BadRequestException] when it throws.  The three byte counts are
    [number]s that hold integers; the sum is the rounded sum. *)
Definition requireQuota (user : AuthUser) (size : Z) : option string :=
  match quotaSizeInBytes user with
  | None => None
  | Some quota =>
      if quota <? roundDouble (quotaUsageInBytes user + size)
      then Some "Quota has been exceeded!"
      else None
  end.

(** The outcome of [waitForTusd] with the number of connection attempts it
    made: it returns, or it throws
    [Error('tusd server failed to start within timeout')]. *)
Inductive WaitResult :=
| TusdReady (attempts : nat)
| TusdFailed (attempts : nat).

(** The loop [for (let i = 0; i < maxRetries; i++)] of [waitForTusd], from
    index [i] with [remaining = maxRetries - i] rounds to go.  [ready j] is
    what the promise of the round [j] resolves to: [true] when the socket
    connects, [false] on an error or a timeout. *)
Fixpoint waitForTusd_from (ready : nat -> bool) (i remaining : nat) : WaitResult :=
  match remaining with
  | O => TusdFailed i
  | S remaining' =>
      if ready i then TusdReady (S i)
      else waitForTusd_from ready (S i) remaining'
  end.

Definition waitForTusd (ready : nat -> bool) (maxRetries : nat) : WaitResult :=
  waitForTusd_from ready 0 maxRetries.

(** * Properties *)

(** ** What the helpers leave as it was *)

Lemma settings_fields m m' :
  settings m' = settings m ->
  isInitialized m' = isInitialized m
  /\ topSectionHeight m' = topSectionHeight m
  /\ bottomSectionHeight m' = bottomSectionHeight m
  /\ viewportHeight m' = viewportHeight m
  /\ viewportWidth m' = viewportWidth m
  /\ scrollTop m' = scrollTop m
  /\ rowHeight m' = rowHeight m
  /\ headerHeight m' = headerHeight m
  /\ gap m' = gap m
  /\ updatingIntersections m' = updatingIntersections m.
Proof.
  unfold settings. intros H. injection H. intros. repeat split; assumption.
Qed.

Lemma sameItems_refl s : sameItems s s.
Proof. unfold sameItems. auto. Qed.

Lemma sameItems_trans s1 s2 s3 :
  sameItems s1 s2 -> sameItems s2 s3 -> sameItems s1 s3.
Proof.
  intros (A1 & A2 & A3 & A4) (B1 & B2 & B3 & B4). unfold sameItems.
  repeat split; congruence.
Qed.

Lemma Forall2_sameItems_refl l : Forall2 sameItems l l.
Proof. induction l; constructor; auto using sameItems_refl. Qed.

Lemma Forall2_sameItems_trans l1 l2 l3 :
  Forall2 sameItems l1 l2 -> Forall2 sameItems l2 l3 -> Forall2 sameItems l1 l3.
Proof.
  intros H. revert l3. induction H as [|x y l k Hxy _ IH]; intros l3 H3.
  - inversion H3. constructor.
  - inversion H3 as [|? z ? k3 Hyz Hk]; subst. constructor.
    + eapply sameItems_trans; eassumption.
    + now apply IH.
Qed.

Lemma Forall2_sameItems_imap (f : nat -> Segment -> Segment) l :
  (forall j s, sameItems s (f j s)) -> Forall2 sameItems l (imap f l).
Proof.
  revert f. induction l as [|s l IH]; intros f H; cbn; constructor.
  - apply H.
  - apply IH. intros j s'. apply H.
Qed.

Lemma sameItems_map_assets l l' :
  Forall2 sameItems l l' -> map assets l' = map assets l.
Proof.
  induction 1 as [|s s' l l' (_ & _ & H & _) _ IH]; cbn; [reflexivity|].
  now rewrite H, IH.
Qed.

Lemma evolves_refl m : evolves [] m m.
Proof.
  unfold evolves. rewrite app_nil_r. auto using Forall2_sameItems_refl.
Qed.

Lemma evolves_trans cs1 cs2 m1 m2 m3 :
  evolves cs1 m1 m2 -> evolves cs2 m2 m3 -> evolves (cs1 ++ cs2) m1 m3.
Proof.
  intros (A1 & A2 & A3) (B1 & B2 & B3). unfold evolves. split; [congruence|].
  split.
  - rewrite B2, A2. symmetry. apply app_assoc.
  - eapply Forall2_sameItems_trans; eassumption.
Qed.

Lemma evolves_length cs m m' :
  evolves cs m m' -> length (months m') = length (months m).
Proof. intros (_ & _ & H). symmetry. eapply Forall2_length; eassumption. Qed.

Lemma evolves_scanCalls cs m m' : evolves cs m m' -> scanCalls m' = scanCalls m.
Proof.
  intros H. pose proof (evolves_length _ _ _ H) as Hl. destruct H as (Hs & _).
  apply settings_fields in Hs.
  destruct Hs as (Hi & _ & _ & Hv & _ & _ & _ & _ & _ & Hu).
  unfold scanCalls, scanRuns. now rewrite Hi, Hv, Hu, Hl.
Qed.

Lemma evolves_geometryCalls cs b m m' :
  evolves cs m m' -> geometryCalls b m' = geometryCalls b m.
Proof.
  intros H. unfold geometryCalls. now rewrite (evolves_length _ _ _ H).
Qed.

Lemma evolves_viewportGeometryCalls cs b m m' :
  evolves cs m m' -> viewportGeometryCalls b m' = viewportGeometryCalls b m.
Proof.
  intros H. unfold viewportGeometryCalls.
  rewrite (evolves_scanCalls _ _ _ H), (evolves_geometryCalls _ b _ _ H).
  destruct H as (Hs & _). apply settings_fields in Hs.
  destruct Hs as (Hi & _ & _ & Hv & Hw & _). now rewrite Hi, Hv, Hw.
Qed.

Lemma assignPositions_assets ps vs :
  map va_asset (assignPositions ps vs) = map va_asset vs.
Proof.
  revert ps. induction vs as [|v vs IH]; intros ps; [reflexivity|].
  destruct ps as [|p ps]; [reflexivity|]. cbn. now rewrite IH.
Qed.

Lemma with_geometry_sameItems g s : sameItems s (with_geometry g s).
Proof.
  destruct g as [[t h] ps]. unfold sameItems, assets. cbn.
  rewrite assignPositions_assets. auto.
Qed.

Lemma loadNextPage_sameItems smart s : sameItems s (loadNextPage smart s).
Proof.
  unfold loadNextPage. destruct (nextPage s) as [n|]; [|apply sameItems_refl].
  destruct (bool_decide _); [apply sameItems_refl|].
  unfold reload, load, fetch_begin, fetch_request, sameItems, assets. cbn.
  destruct (kind s) eqn:E; cbn; rewrite ?E; repeat split; reflexivity.
Qed.

Lemma updateIntersection_sameItems env m flags s :
  sameItems s (updateIntersection env m flags s).
Proof.
  unfold updateIntersection. cbn [kind with_intersection].
  assert (H : sameItems s (with_intersection flags s)) by (unfold sameItems; auto).
  destruct (kind s); [exact H|].
  destruct (_ <? _); [|exact H].
  eapply sameItems_trans; [exact H|apply loadNextPage_sameItems].
Qed.

Lemma updateGeometry_evolves env m i b :
  evolves [UpdateGeometry i b] m (updateGeometry env m i b).
Proof.
  unfold evolves, updateGeometry. cbn. repeat split.
  apply Forall2_sameItems_imap. intros j s. apply with_geometry_sameItems.
Qed.

Lemma updateIntersectionMonthGroup_evolves env m i :
  evolves [UpdateIntersectionMonthGroup i] m (updateIntersectionMonthGroup env m i).
Proof.
  unfold evolves, updateIntersectionMonthGroup.
  destruct (months m !! i) as [s|] eqn:Hi; cbn; repeat split.
  - rewrite <- (list_insert_id (months m) i s Hi) at 1.
    apply Forall2_insert; [apply Forall2_sameItems_refl|].
    apply updateIntersection_sameItems.
  - apply Forall2_sameItems_refl.
Qed.

(** A loop over the segments that calls a helper leaves the calls behind,
    one per segment and in order. *)
Lemma fold_evolves (step : Manager -> nat -> Manager) (c : nat -> Call) :
  (forall m i, evolves [c i] m (step m i)) ->
  forall l m, evolves (map c l) m (fold_left step l m).
Proof.
  intros Hstep l. induction l as [|i l IH]; intros m; cbn.
  - apply evolves_refl.
  - change (c i :: map c l) with ([c i] ++ map c l).
    eapply evolves_trans; [apply Hstep|apply IH].
Qed.

Lemma window_empty_iff m :
  (updatingIntersections m || negb (isInitialized m)
   || (snd (visibleWindow m) =? fst (visibleWindow m)))
  = negb (scanRuns m).
Proof.
  unfold scanRuns, visibleWindow. cbn [fst snd].
  assert (E : (scrollTop m + viewportHeight m =? scrollTop m) = (viewportHeight m =? 0)).
  { destruct (Z.eqb_spec (viewportHeight m) 0),
      (Z.eqb_spec (scrollTop m + viewportHeight m) (scrollTop m));
      try reflexivity; lia. }
  rewrite E.
  destruct (updatingIntersections m), (isInitialized m), (viewportHeight m =? 0);
    reflexivity.
Qed.

Lemma updateIntersections_skips env m :
  scanRuns m = false -> updateIntersections env m = m.
Proof.
  intros H. unfold updateIntersections. rewrite window_empty_iff, H. reflexivity.
Qed.

Lemma updateIntersections_evolves env m :
  evolves (scanCalls m) m (updateIntersections env m).
Proof.
  unfold updateIntersections, scanCalls. rewrite window_empty_iff.
  destruct (scanRuns m) eqn:Hrun; cbn [negb]; [|apply evolves_refl].
  assert (Hflag : updatingIntersections m = false).
  { unfold scanRuns in Hrun. destruct (updatingIntersections m); [discriminate|reflexivity]. }
  pose proof (fold_evolves (fun acc i => updateIntersectionMonthGroup env acc i)
                UpdateIntersectionMonthGroup
                (fun m i => updateIntersectionMonthGroup_evolves env m i)
                (seq 0 (length (months (with_updatingIntersections true m))))
                (with_updatingIntersections true m)) as (Hs & Hc & Hm).
  cbn [months with_updatingIntersections] in *.
  apply settings_fields in Hs. cbn in Hs.
  destruct Hs as (H1 & H2 & H3 & H4 & H5 & H6 & H7 & H8 & H9 & _).
  unfold evolves, settings. cbn. rewrite H1, H2, H3, H4, H5, H6, H7, H8, H9, Hflag.
  repeat split; assumption.
Qed.

Lemma refreshLayout_evolves env m :
  evolves (geometryCalls true m ++ scanCalls m) m (refreshLayout env m).
Proof.
  unfold refreshLayout.
  pose proof (fold_evolves (fun acc i => updateGeometry env acc i true)
                (fun i => UpdateGeometry i true)
                (fun m i => updateGeometry_evolves env m i true)
                (seq 0 (length (months m))) m) as H.
  eapply evolves_trans; [exact H|].
  rewrite <- (evolves_scanCalls _ _ _ H). apply updateIntersections_evolves.
Qed.

Lemma updateViewportGeometry_evolves env changedWidth m :
  evolves (viewportGeometryCalls changedWidth m) m
    (updateViewportGeometry env changedWidth m).
Proof.
  unfold updateViewportGeometry, viewportGeometryCalls.
  destruct (isInitialized m); cbn [negb andb]; [|apply evolves_refl].
  destruct (viewportWidth m =? 0); cbn [negb andb orb]; [apply evolves_refl|].
  destruct (viewportHeight m =? 0); cbn [negb andb orb]; [apply evolves_refl|].
  pose proof (fold_evolves (fun acc i => updateGeometry env acc i changedWidth)
                (fun i => UpdateGeometry i changedWidth)
                (fun m i => updateGeometry_evolves env m i changedWidth)
                (seq 0 (length (months m))) m) as H.
  eapply evolves_trans; [exact H|].
  rewrite <- (evolves_scanCalls _ _ _ H). apply updateIntersections_evolves.
Qed.

Lemma updateViewportGeometry_skips env changedWidth m :
  isInitialized m && negb (viewportWidth m =? 0) && negb (viewportHeight m =? 0) = false ->
  updateViewportGeometry env changedWidth m = m.
Proof.
  unfold updateViewportGeometry.
  destruct (isInitialized m); cbn; [|reflexivity].
  destruct (viewportWidth m =? 0); cbn; [reflexivity|].
  destruct (viewportHeight m =? 0); cbn; [reflexivity|discriminate].
Qed.

(** ** Layout options *)

Lemma setLayoutOptions_unchanged env c m :
  headerHeight m = default 48 (cfg_headerHeight c) ->
  gap m = default 12 (cfg_gap c) ->
  rowHeight m = default 235 (cfg_rowHeight c) ->
  setLayoutOptions env c m = m.
Proof.
  intros Hh Hg Hr. unfold setLayoutOptions, or_assign, setHeaderHeight.
  rewrite <- Hh, Z.eqb_refl. unfold setGap. rewrite <- Hg, Z.eqb_refl.
  unfold setRowHeight. rewrite <- Hr, Z.eqb_refl. reflexivity.
Qed.

(** Once the header height has been written, the two assignments that
    follow it are skipped. *)
Lemma setLayoutOptions_header_changed env c m :
  headerHeight m <> default 48 (cfg_headerHeight c) ->
  setLayoutOptions env c m
  = refreshLayout env (with_headerHeight (default 48 (cfg_headerHeight c)) m).
Proof.
  intros Hh. unfold setLayoutOptions, or_assign, setHeaderHeight.
  destruct (Z.eqb_spec (headerHeight m) (default 48 (cfg_headerHeight c))) as [E|_];
    [contradiction|]. reflexivity.
Qed.

(** The options committed by [setLayoutOptions], case by case. *)
Lemma setLayoutOptions_gap_changed env c m :
  headerHeight m = default 48 (cfg_headerHeight c) ->
  gap m <> default 12 (cfg_gap c) ->
  setLayoutOptions env c m = refreshLayout env (with_gap (default 12 (cfg_gap c)) m).
Proof.
  intros Hh Hg. unfold setLayoutOptions, or_assign, setHeaderHeight.
  rewrite <- Hh, Z.eqb_refl. unfold setGap.
  destruct (Z.eqb_spec (gap m) (default 12 (cfg_gap c))); [contradiction|].
  reflexivity.
Qed.

Lemma setLayoutOptions_rowHeight_changed env c m :
  headerHeight m = default 48 (cfg_headerHeight c) ->
  gap m = default 12 (cfg_gap c) ->
  rowHeight m <> default 235 (cfg_rowHeight c) ->
  setLayoutOptions env c m
  = refreshLayout env (with_rowHeight (default 235 (cfg_rowHeight c)) m).
Proof.
  intros Hh Hg Hr. unfold setLayoutOptions, or_assign, setHeaderHeight.
  rewrite <- Hh, Z.eqb_refl. unfold setGap. rewrite <- Hg, Z.eqb_refl.
  unfold setRowHeight.
  destruct (Z.eqb_spec (rowHeight m) (default 235 (cfg_rowHeight c))); [contradiction|].
  reflexivity.
Qed.

(** A configuration that changes the header height leaves the stored gap and
    row height as they were, whatever it supplies for them. *)
Lemma setLayoutOptions_skips_after_header env c m :
  headerHeight m <> default 48 (cfg_headerHeight c) ->
  headerHeight (setLayoutOptions env c m) = default 48 (cfg_headerHeight c)
  /\ gap (setLayoutOptions env c m) = gap m
  /\ rowHeight (setLayoutOptions env c m) = rowHeight m.
Proof.
  intros H. rewrite setLayoutOptions_header_changed by assumption.
  destruct (refreshLayout_evolves env
              (with_headerHeight (default 48 (cfg_headerHeight c)) m)) as (Hs & _).
  apply settings_fields in Hs.
  destruct Hs as (_ & _ & _ & _ & _ & _ & -> & -> & -> & _). cbn. auto.
Qed.

(** C1. At the default options (header 48, row 235, gap 12) the call
    [setLayoutOptions({headerHeight: 60, rowHeight: 300, gap: 20})] stores
    the header height 60 and keeps gap 12 and row height 235: the options are
    applied in part.  The geometry refresh does run, whatever the helpers
    compute: the calls show one geometry update with height invalidation and
    one intersection update for the only segment. *)
Theorem setLayoutOptions_partial_application :
  forall env : Collaborators,
    let m := sampleManager [sampleSegment Loaded 100 ["a"]] in
    let c := {| cfg_headerHeight := Some 60; cfg_rowHeight := Some 300;
                cfg_gap := Some 20 |} in
    headerHeight (setLayoutOptions env c m) = 60
    /\ gap (setLayoutOptions env c m) = 12
    /\ rowHeight (setLayoutOptions env c m) = 235
    /\ calls (setLayoutOptions env c m)
       = [UpdateGeometry 0 true; UpdateIntersectionMonthGroup 0].
Proof.
  intros env m c.
  assert (Hne : headerHeight m <> default 48 (cfg_headerHeight c)) by (cbn; lia).
  destruct (setLayoutOptions_skips_after_header env c m Hne) as (-> & -> & ->).
  rewrite (setLayoutOptions_header_changed env c m Hne).
  destruct (refreshLayout_evolves env
              (with_headerHeight (default 48 (cfg_headerHeight c)) m)) as (_ & -> & _).
  repeat split; reflexivity.
Qed.

(** ** Heights *)

Lemma fold_left_height l acc :
  fold_left (fun accumulator b => accumulator + height b) l acc
  = acc + foldr (fun s a => height s + a) 0 l.
Proof.
  revert acc. induction l as [|s l IH]; intros acc; cbn; [lia|].
  rewrite IH. lia.
Qed.

Lemma timelineHeight_sum m :
  timelineHeight m = segmentsHeight m + topSectionHeight m.
Proof. unfold timelineHeight, segmentsHeight. rewrite fold_left_height. lia. Qed.

(** What [setLayoutOptions] leaves as it was: the calls of a refresh are
    recorded when an option changed, and the settings other than the three
    options are the same. *)
Lemma setLayoutOptions_evolves env c m :
  exists cs,
    calls (setLayoutOptions env c m) = calls m ++ cs
    /\ Forall2 sameItems (months m) (months (setLayoutOptions env c m))
    /\ isInitialized (setLayoutOptions env c m) = isInitialized m
    /\ topSectionHeight (setLayoutOptions env c m) = topSectionHeight m
    /\ bottomSectionHeight (setLayoutOptions env c m) = bottomSectionHeight m
    /\ viewportHeight (setLayoutOptions env c m) = viewportHeight m
    /\ viewportWidth (setLayoutOptions env c m) = viewportWidth m
    /\ scrollTop (setLayoutOptions env c m) = scrollTop m
    /\ updatingIntersections (setLayoutOptions env c m) = updatingIntersections m.
Proof.
  assert (Hr : forall m0, months m0 = months m -> calls m0 = calls m ->
               isInitialized m0 = isInitialized m ->
               topSectionHeight m0 = topSectionHeight m ->
               bottomSectionHeight m0 = bottomSectionHeight m ->
               viewportHeight m0 = viewportHeight m ->
               viewportWidth m0 = viewportWidth m ->
               scrollTop m0 = scrollTop m ->
               updatingIntersections m0 = updatingIntersections m ->
               exists cs,
                 calls (refreshLayout env m0) = calls m ++ cs
                 /\ Forall2 sameItems (months m) (months (refreshLayout env m0))
                 /\ isInitialized (refreshLayout env m0) = isInitialized m
                 /\ topSectionHeight (refreshLayout env m0) = topSectionHeight m
                 /\ bottomSectionHeight (refreshLayout env m0) = bottomSectionHeight m
                 /\ viewportHeight (refreshLayout env m0) = viewportHeight m
                 /\ viewportWidth (refreshLayout env m0) = viewportWidth m
                 /\ scrollTop (refreshLayout env m0) = scrollTop m
                 /\ updatingIntersections (refreshLayout env m0)
                    = updatingIntersections m).
  { intros m0 Hm Hc H1 H2 H3 H4 H5 H6 H7.
    destruct (refreshLayout_evolves env m0) as (Hs & Hcs & Hms).
    apply settings_fields in Hs.
    destruct Hs as (-> & -> & -> & -> & -> & -> & _ & _ & _ & ->).
    exists (geometryCalls true m0 ++ scanCalls m0).
    rewrite Hcs, Hc, <- Hm. repeat split; assumption. }
  destruct (Z.eq_dec (headerHeight m) (default 48 (cfg_headerHeight c))) as [Hh|Hh].
  - destruct (Z.eq_dec (gap m) (default 12 (cfg_gap c))) as [Hg|Hg].
    + destruct (Z.eq_dec (rowHeight m) (default 235 (cfg_rowHeight c))) as [Hw|Hw].
      * rewrite setLayoutOptions_unchanged by assumption. exists [].
        rewrite app_nil_r. repeat split; auto using Forall2_sameItems_refl.
      * rewrite setLayoutOptions_rowHeight_changed by assumption.
        apply Hr; reflexivity.
    + rewrite setLayoutOptions_gap_changed by assumption. apply Hr; reflexivity.
  - rewrite setLayoutOptions_header_changed by assumption. apply Hr; reflexivity.
Qed.

(** Two segments of heights 100 and 50 under the default gap of 12: the
    heights and the gap between them add up to 162, [timelineHeight] minus
    [topSectionHeight] is 150. *)
Lemma timelineHeight_excludes_gaps :
  let m := sampleManager [sampleSegment Loaded 100 ["a"]; sampleSegment Loaded 50 ["b"]] in
  segmentsHeight m + gapsBetweenSegments m <> timelineHeight m - topSectionHeight m.
Proof. cbv. discriminate. Qed.

(** C3, amended. In every manager state, [timelineHeight] minus
    [topSectionHeight] is the sum of the segments' heights alone: no gap
    between segments is added and the stored [gap] has no part in it.  The
    equation holds again after every change of the layout options, between
    the heights that the refresh has left behind; the top section is as high
    as before. *)
Theorem timelineHeight_is_segmentsHeight :
  forall (env : Collaborators) (m : Manager),
    timelineHeight m - topSectionHeight m = segmentsHeight m
    /\ (forall g, timelineHeight (with_gap g m) = timelineHeight m)
    /\ (forall c, timelineHeight (setLayoutOptions env c m)
                  - topSectionHeight (setLayoutOptions env c m)
                  = segmentsHeight (setLayoutOptions env c m)
                  /\ topSectionHeight (setLayoutOptions env c m) = topSectionHeight m).
Proof.
  intros env m. split; [|split].
  - rewrite timelineHeight_sum. lia.
  - intros g. reflexivity.
  - intros c. split.
    + rewrite timelineHeight_sum. lia.
    + destruct (setLayoutOptions_evolves env c m) as (cs & _ & _ & _ & H & _).
      exact H.
Qed.
(** ** Scroll extent *)

(** With a header section of height 10 above one segment of height 1000,
    [getMaxScroll] is 280 and the extent of the specification 270. *)
Lemma getMaxScroll_counts_header_twice :
  let m := {| isInitialized := true; topSectionHeight := 10;
              bottomSectionHeight := 60; viewportHeight := 800;
              viewportWidth := 1000; scrollTop := 0; rowHeight := 235;
              headerHeight := 48; gap := 12; updatingIntersections := false;
              months := [sampleSegment Loaded 1000 ["a"]]; calls := [] |} in
  getMaxScroll m = 280 /\ scrollableExtent m = 270
  /\ getMaxScroll m <> scrollableExtent m.
Proof. cbv. repeat split; discriminate. Qed.

(** C9, amended. [getMaxScroll] is [topSectionHeight + bottomSectionHeight
    + timelineHeight - viewportHeight]; as [timelineHeight] already contains
    [topSectionHeight], this is the extent of the specification plus
    [topSectionHeight] once more, and the two agree exactly when
    [topSectionHeight] is 0.  [getMaxScrollPercent] is that same value
    relative to the total height, which is that value plus the viewport
    height. *)
Theorem getMaxScroll_extent :
  forall m : Manager,
    getMaxScroll m = scrollableExtent m + topSectionHeight m
    /\ (getMaxScroll m = scrollableExtent m <-> topSectionHeight m = 0)
    /\ getMaxScrollPercent m
       = (inject_Z (getMaxScroll m)
          / inject_Z (getMaxScroll m + viewportHeight m))%Q.
Proof.
  intros m. unfold getMaxScroll, scrollableExtent, getMaxScrollPercent.
  rewrite timelineHeight_sum. split; [lia|split; [lia|]].
  f_equal; f_equal; lia.
Qed.

(** ** Absolute position of an item *)

Lemma find_none_id (id : string) (l : list ViewerAsset) :
  (forall v, In v l -> va_id v <> id) ->
  List.find (fun v => String.eqb (va_id v) id) l = None.
Proof.
  induction l as [|v l IH]; intros H; cbn; [reflexivity|].
  destruct (String.eqb_spec (va_id v) id) as [E|_].
  - exfalso. apply (H v); [now left|assumption].
  - apply IH. intros w Hw. apply H. now right.
Qed.

Lemma find_first_id (id : string) (l1 l2 : list ViewerAsset) v :
  (forall w, In w l1 -> va_id w <> id) -> va_id v = id ->
  List.find (fun v => String.eqb (va_id v) id) (l1 ++ v :: l2) = Some v.
Proof.
  intros H Hv. induction l1 as [|w l1 IH]; cbn.
  - destruct (String.eqb_spec (va_id v) id); [reflexivity|contradiction].
  - destruct (String.eqb_spec (va_id w) id) as [E|_].
    + exfalso. apply (H w); [now left|assumption].
    + apply IH. intros u Hu. apply H. now right.
Qed.

(** C10. [findAssetAbsolutePosition] returns -1 when no item of the segment
    has the id, and also when the first item with the id has no position
    yet; when that item has a position, it returns the segment's top plus
    the item's row-relative top plus the manager's header height. *)
Theorem findAssetAbsolutePosition_cases :
  forall (s : Segment) (managerHeaderHeight : Z) (assetId : string),
    ((forall v, In v (viewerAssets s) -> va_id v <> assetId) ->
     findAssetAbsolutePosition s managerHeaderHeight assetId = -1)
    /\ (forall l1 v l2,
          viewerAssets s = l1 ++ v :: l2 ->
          (forall w, In w l1 -> va_id w <> assetId) ->
          va_id v = assetId ->
          findAssetAbsolutePosition s managerHeaderHeight assetId
          = match va_position v with
            | None => -1
            | Some p => top s + pos_top p + managerHeaderHeight
            end).
Proof.
  intros s hh id. split.
  - intros H. unfold findAssetAbsolutePosition. now rewrite find_none_id.
  - intros l1 v l2 E H Hv. unfold findAssetAbsolutePosition.
    rewrite E, (find_first_id id l1 l2 v H Hv). reflexivity.
Qed.

Lemma findAssetAbsolutePosition_cases_witness :
  findAssetAbsolutePosition positionedSegment 48 "z" = -1
  /\ findAssetAbsolutePosition positionedSegment 48 "a" = -1
  /\ findAssetAbsolutePosition positionedSegment 48 "b" = 783.
Proof.
  split; [|split].
  - apply (proj1 (findAssetAbsolutePosition_cases positionedSegment 48 "z")).
    intros v [<-|[<-|[]]]; discriminate.
  - apply (proj2 (findAssetAbsolutePosition_cases positionedSegment 48 "a")
             [] (newViewerAsset (asset "a")) _ eq_refl).
    + intros w [].
    + reflexivity.
  - apply (proj2 (findAssetAbsolutePosition_cases positionedSegment 48 "b")
             [newViewerAsset (asset "a")] _ [] eq_refl).
    + intros w [<-|[]]; discriminate.
    + reflexivity.
Defined.

(** ** The paginated segment *)

Section SegmentProperties.

Variable layoutAlgorithm : LayoutOptions -> list TimelineAsset -> list Position * Z.

Abbreviation layout := (layout layoutAlgorithm).
Abbreviation fetch := (fetch layoutAlgorithm).
Abbreviation fetch_response := (fetch_response layoutAlgorithm).
Abbreviation page_step := (page_step layoutAlgorithm).
Abbreviation page_run := (page_run layoutAlgorithm).

Lemma layout_assets o s : assets (layout o s) = assets s.
Proof.
  unfold layout. destruct (layoutAlgorithm o (assets s)) as [ps h].
  unfold assets; cbn. apply assignPositions_assets.
Qed.

(** What a layout leaves alone. *)
Lemma layout_frame o s :
  kind (layout o s) = kind s
  /\ currentPage (layout o s) = currentPage s
  /\ nextPage (layout o s) = nextPage s
  /\ loadState (layout o s) = loadState s
  /\ requests (layout o s) = requests s
  /\ fetchCalls (layout o s) = fetchCalls s
  /\ searchTerms (layout o s) = searchTerms s
  /\ layoutCalls (layout o s) = S (layoutCalls s).
Proof.
  unfold layout. destruct (layoutAlgorithm o (assets s)) as [ps h]. cbn.
  repeat split.
Qed.

Lemma fetch_response_assets o r s :
  assets (fetch_response o r s) = assets s ++ rs_items r.
Proof.
  unfold fetch_response. rewrite layout_assets. unfold assets; cbn.
  rewrite map_app, map_map. cbn. now rewrite map_id.
Qed.

(** C6. A fetch of the paginated segment appends: the items after it are the
    items before it followed by the items of the page received (and nothing
    when there is no current page token), so every item that was placed
    keeps its index. *)
Theorem fetch_appends :
  forall (client : Request -> Response) (smart : bool) (o : LayoutOptions)
         (s : Segment),
    assets (fetch client smart o s)
    = assets s ++ match fetch_request smart s with
                  | Some rq => rs_items (client rq)
                  | None => []
                  end
    /\ (forall r, assets (fetch_response o r s) = assets s ++ rs_items r)
    /\ (forall i a, assets s !! i = Some a ->
                    assets (fetch client smart o s) !! i = Some a).
Proof.
  intros client smart o s.
  assert (E : assets (fetch client smart o s)
              = assets s ++ match fetch_request smart s with
                            | Some rq => rs_items (client rq)
                            | None => []
                            end).
  { unfold fetch. destruct (fetch_request smart s) as [rq|].
    - now rewrite fetch_response_assets.
    - unfold assets; cbn. now rewrite app_nil_r. }
  split; [exact E|split].
  - intros r. apply fetch_response_assets.
  - intros i a Hi. rewrite E. now apply lookup_app_l_Some.
Qed.

(** *** Page advance *)

Lemma loadNextPage_exhausted smart s :
  nextPage s = None -> loadNextPage smart s = s.
Proof. intros H. unfold loadNextPage. now rewrite H. Qed.

Lemma loadNextPage_in_flight smart s n :
  nextPage s = Some n -> currentPage s = Some n -> loadNextPage smart s = s.
Proof.
  intros Hn Hc. unfold loadNextPage. rewrite Hn, Hc.
  now rewrite bool_decide_eq_true_2.
Qed.

Lemma loadNextPage_advances smart s n :
  kind s = SearchResultsSegment ->
  nextPage s = Some n -> currentPage s <> Some n ->
  currentPage (loadNextPage smart s) = Some n
  /\ nextPage (loadNextPage smart s) = Some n
  /\ loadState (loadNextPage smart s) = Loading
  /\ kind (loadNextPage smart s) = SearchResultsSegment
  /\ requestedPages (loadNextPage smart s) = requestedPages s ++ [n].
Proof.
  intros Hk Hn Hc. unfold loadNextPage. rewrite Hn.
  rewrite bool_decide_eq_false_2 by assumption.
  unfold reload, load, fetch_begin, fetch_request, requestedPages; cbn.
  rewrite Hk. cbn. rewrite map_app. cbn. repeat split; assumption.
Qed.

Lemma resolve_loading o r s :
  let s' := load_settled (fetch_response o r s) in
  loadState s = Loading ->
  currentPage s' = currentPage s
  /\ nextPage s' = rs_nextPage r
  /\ loadState s' = Loaded
  /\ kind s' = kind s
  /\ requestedPages s' = requestedPages s.
Proof.
  intros s' Hl. subst s'. unfold load_settled, fetch_response, requestedPages.
  destruct (layout_frame o (with_viewerAssets (viewerAssets s ++ map newViewerAsset (rs_items r))
                              (with_nextPage (rs_nextPage r) s)))
    as (Hk & Hc & Hn & Hs & Hr & _).
  cbn in Hk, Hc, Hn, Hs, Hr. rewrite Hs, Hl. cbn.
  rewrite Hk, Hc, Hn, Hr. repeat split.
Qed.

(** *** The segment against its client, step by step *)

Ltac stage_fields H :=
  destruct H as (Hk & Hc & Hn & Hs & Hr & Ht);
  cbn [fst snd] in Hk, Hc, Hn, Hs, Hr, Ht.

Lemma step_resolve_loading smart o w cur next asked t ts :
  stage w cur next Loading asked (t :: ts) ->
  stage (page_step smart o Resolve w) cur t Loaded asked ts.
Proof.
  destruct w as [s script]. intros H. stage_fields H.
  destruct script as [|r rest]; [discriminate|]. injection Ht as Hr1 Ht.
  cbn [page_step]. rewrite Hs.
  destruct (resolve_loading o r s Hs) as (Ec & En & Es & Ek & Er).
  unfold stage; cbn [fst snd]. rewrite Ec, En, Es, Ek, Er. repeat split; auto.
Qed.

Lemma step_resolve_loaded smart o w cur next asked ts :
  stage w cur next Loaded asked ts -> page_step smart o Resolve w = w.
Proof.
  destruct w as [s script]. intros H. stage_fields H.
  cbn [page_step]. now rewrite Hs.
Qed.

Lemma step_loadNextPage_exhausted smart o w cur st asked ts :
  stage w cur None st asked ts -> page_step smart o LoadNextPage w = w.
Proof.
  destruct w as [s script]. intros H. stage_fields H.
  cbn [page_step]. now rewrite loadNextPage_exhausted.
Qed.

Lemma step_loadNextPage_in_flight smart o w cur st asked ts :
  stage w cur (Some cur) st asked ts -> page_step smart o LoadNextPage w = w.
Proof.
  destruct w as [s script]. intros H. stage_fields H.
  cbn [page_step]. now rewrite (loadNextPage_in_flight smart s cur).
Qed.

Lemma step_loadNextPage_advances smart o w cur n st asked ts :
  stage w cur (Some n) st asked ts -> cur <> n ->
  stage (page_step smart o LoadNextPage w) n (Some n) Loading (asked ++ [n]) ts.
Proof.
  destruct w as [s script]. intros H Hne. stage_fields H.
  destruct (loadNextPage_advances smart s n Hk Hn) as (Ec & En & Es & Ek & Er).
  { rewrite Hc. congruence. }
  unfold stage; cbn [page_step fst snd]. rewrite Ec, En, Es, Ek, Er, Hr.
  repeat split; auto.
Qed.

Lemma run_loadNextPage_in_flight smart o w cur st asked ts k :
  stage w cur (Some cur) st asked ts ->
  page_run smart o (repeat LoadNextPage k) w = w.
Proof.
  intros H. induction k as [|k IH]; [reflexivity|].
  cbn [repeat]. unfold page_run in *. cbn [fold_left].
  now rewrite (step_loadNextPage_in_flight smart o w cur st asked ts H).
Qed.

Lemma run_loadNextPage_exhausted smart o w cur st asked ts k :
  stage w cur None st asked ts ->
  page_run smart o (repeat LoadNextPage k) w = w.
Proof.
  intros H. induction k as [|k IH]; [reflexivity|].
  cbn [repeat]. unfold page_run in *. cbn [fold_left].
  now rewrite (step_loadNextPage_exhausted smart o w cur st asked ts H).
Qed.

Lemma page_run_app smart o es1 es2 w :
  page_run smart o (es1 ++ es2) w = page_run smart o es2 (page_run smart o es1 w).
Proof. unfold page_run. apply fold_left_app. Qed.

Lemma page_step_on_course smart o e w :
  on_course w -> on_course (page_step smart o e w).
Proof.
  intros H. unfold on_course in H.
  destruct e; destruct H as [H|[H|[H|[H|[H|H]]]]].
  - right; left. now apply (step_resolve_loading smart o w _ _ _ _ _ H).
  - rewrite (step_resolve_loaded smart o w _ _ _ _ H). right; left. exact H.
  - do 3 right; left. now apply (step_resolve_loading smart o w _ _ _ _ _ H).
  - rewrite (step_resolve_loaded smart o w _ _ _ _ H). do 3 right; left. exact H.
  - do 5 right. now apply (step_resolve_loading smart o w _ _ _ _ _ H).
  - rewrite (step_resolve_loaded smart o w _ _ _ _ H). do 5 right. exact H.
  - rewrite (step_loadNextPage_exhausted smart o w _ _ _ _ H). left. exact H.
  - do 2 right; left.
    apply (step_loadNextPage_advances smart o w "1" "2" _ _ _ H). discriminate.
  - rewrite (step_loadNextPage_in_flight smart o w _ _ _ _ H). do 2 right; left. exact H.
  - do 4 right; left.
    apply (step_loadNextPage_advances smart o w "2" "3" _ _ _ H). discriminate.
  - rewrite (step_loadNextPage_in_flight smart o w _ _ _ _ H). do 4 right; left. exact H.
  - rewrite (step_loadNextPage_exhausted smart o w _ _ _ _ H). do 5 right. exact H.
Qed.

Lemma page_run_on_course smart o es w :
  on_course w -> on_course (page_run smart o es w).
Proof.
  revert w. induction es as [|e es IH]; intros w H; cbn; [assumption|].
  apply IH. now apply page_step_on_course.
Qed.

Lemma pagedWorld_on_course smart t i1 i2 i3 :
  stage (pagedWorld smart t i1 i2 i3) "1" None Loading ["1"]
    [Some "2"; Some "3"; None].
Proof. unfold stage. cbn. repeat split. Qed.

Lemma on_course_asked w :
  on_course w ->
  exists later, requestedPages (fst w) ++ later = ["1"; "2"; "3"]
                /\ (map rs_nextPage (snd w) = [] -> later = []).
Proof.
  intros [H|[H|[H|[H|[H|H]]]]]; stage_fields H; rewrite Hr, Ht.
  - exists ["2"; "3"]. split; [reflexivity|discriminate].
  - exists ["2"; "3"]. split; [reflexivity|discriminate].
  - exists ["3"]. split; [reflexivity|discriminate].
  - exists ["3"]. split; [reflexivity|discriminate].
  - exists []. split; [reflexivity|discriminate].
  - exists []. split; reflexivity.
Qed.

Lemma page_step_script_empty smart o e w :
  snd w = [] -> snd (page_step smart o e w) = [].
Proof.
  destruct w as [s script]. cbn [snd]. intros ->. destruct e; cbn.
  - destruct (loadState s); reflexivity.
  - reflexivity.
Qed.

Lemma page_run_script_empty smart o es w :
  snd w = [] -> snd (page_run smart o es w) = [].
Proof.
  revert w. induction es as [|e es IH]; intros w H; cbn; [assumption|].
  apply IH. now apply page_step_script_empty.
Qed.

Lemma eagerSchedule_completes smart o t i1 i2 i3 a b c :
  stage (page_run smart o (eagerSchedule a b c) (pagedWorld smart t i1 i2 i3))
    "3" None Loaded ["1"; "2"; "3"] [].
Proof.
  pose proof (pagedWorld_on_course smart t i1 i2 i3) as H0.
  set (w0 := pagedWorld smart t i1 i2 i3) in *.
  unfold eagerSchedule.
  change (Resolve :: repeat LoadNextPage (S a) ++ Resolve :: repeat LoadNextPage (S b)
            ++ Resolve :: repeat LoadNextPage c)
    with ([Resolve] ++ [LoadNextPage] ++ repeat LoadNextPage a
            ++ [Resolve] ++ [LoadNextPage] ++ repeat LoadNextPage b
            ++ [Resolve] ++ repeat LoadNextPage c).
  rewrite !page_run_app.
  pose proof (step_resolve_loading smart o w0 _ _ _ _ _ H0) as H1.
  change (page_step smart o Resolve w0) with (page_run smart o [Resolve] w0) in H1.
  set (w1 := page_run smart o [Resolve] w0) in *.
  pose proof (step_loadNextPage_advances smart o w1 "1" "2" _ _ _ H1 ltac:(discriminate)) as H2.
  change (page_step smart o LoadNextPage w1) with (page_run smart o [LoadNextPage] w1) in H2.
  set (w2 := page_run smart o [LoadNextPage] w1) in *.
  rewrite (run_loadNextPage_in_flight smart o w2 _ _ _ _ a H2).
  pose proof (step_resolve_loading smart o w2 _ _ _ _ _ H2) as H3.
  change (page_step smart o Resolve w2) with (page_run smart o [Resolve] w2) in H3.
  set (w3 := page_run smart o [Resolve] w2) in *.
  pose proof (step_loadNextPage_advances smart o w3 "2" "3" _ _ _ H3 ltac:(discriminate)) as H4.
  change (page_step smart o LoadNextPage w3) with (page_run smart o [LoadNextPage] w3) in H4.
  set (w4 := page_run smart o [LoadNextPage] w3) in *.
  rewrite (run_loadNextPage_in_flight smart o w4 _ _ _ _ b H4).
  pose proof (step_resolve_loading smart o w4 _ _ _ _ _ H4) as H5.
  change (page_step smart o Resolve w4) with (page_run smart o [Resolve] w4) in H5.
  set (w5 := page_run smart o [Resolve] w4) in *.
  now rewrite (run_loadNextPage_exhausted smart o w5 _ _ _ _ c H5).
Qed.

(** C4. [loadNextPage] changes nothing when there is no next-page token and
    nothing when the token equals the current page token; otherwise it makes
    the token the current page and one page request for it goes out.
    Against a client that answers with the tokens "2", "3", null, whatever
    the order and number of calls and answers: the pages asked for are at
    every moment an initial part of "1", "2", "3" (the first load and at
    most two fetches by [loadNextPage]); when every answer is followed by a
    call they are exactly these three; and once the null token has arrived
    no further request is made. *)
Theorem loadNextPage_pagination :
  forall (smart : bool) (o : LayoutOptions),
    (forall s, nextPage s = None -> loadNextPage smart s = s)
    /\ (forall s n, nextPage s = Some n -> currentPage s = Some n ->
                    loadNextPage smart s = s)
    /\ (forall s n, kind s = SearchResultsSegment ->
                    nextPage s = Some n -> currentPage s <> Some n ->
                    currentPage (loadNextPage smart s) = Some n
                    /\ requestedPages (loadNextPage smart s)
                       = requestedPages s ++ [n])
    /\ (forall t i1 i2 i3 es,
          let w := page_run smart o es (pagedWorld smart t i1 i2 i3) in
          exists later,
            requestedPages (fst w) ++ later = ["1"; "2"; "3"]
            /\ (snd w = [] ->
                forall es', requestedPages (fst (page_run smart o es' w))
                            = ["1"; "2"; "3"]))
    /\ (forall t i1 i2 i3 a b c,
          let w := page_run smart o (eagerSchedule a b c)
                     (pagedWorld smart t i1 i2 i3) in
          requestedPages (fst w) = ["1"; "2"; "3"] /\ snd w = []
          /\ nextPage (fst w) = None).
Proof.
  intros smart o. split; [|split; [|split; [|split]]].
  - intros s. apply loadNextPage_exhausted.
  - intros s n. apply loadNextPage_in_flight.
  - intros s n Hk Hn Hc.
    destruct (loadNextPage_advances smart s n Hk Hn Hc) as (E1 & _ & _ & _ & E2).
    now split.
  - intros t i1 i2 i3 es w.
    assert (Hw : on_course w).
    { apply page_run_on_course. left. apply pagedWorld_on_course. }
    destruct (on_course_asked w Hw) as (later & E & _).
    exists later. split; [exact E|].
    intros Hempty es'.
    assert (Hw' : on_course (page_run smart o es' w))
      by now apply page_run_on_course.
    destruct (on_course_asked _ Hw') as (later' & E' & Hl).
    rewrite (page_run_script_empty smart o es' w Hempty) in Hl.
    rewrite (Hl eq_refl), app_nil_r in E'. exact E'.
  - intros t i1 i2 i3 a b c w.
    pose proof (eagerSchedule_completes smart o t i1 i2 i3 a b c) as H.
    fold w in H. stage_fields H. repeat split; auto.
    destruct (snd w); [reflexivity|discriminate].
Qed.

End SegmentProperties.
(** ** Range queries *)

Lemma collectMonth_app startId endId l1 l2 collecting range :
  collectMonth startId endId (l1 ++ l2) collecting range
  = match collectMonth startId endId l1 collecting range with
    | inr r => inr r
    | inl (c, r) => collectMonth startId endId l2 c r
    end.
Proof.
  revert collecting range. induction l1 as [|x l1 IH]; intros c r; cbn; [reflexivity|].
  destruct (String.eqb (asset_id x) endId); [reflexivity|]. apply IH.
Qed.

(** Before the start: nothing is collected and the loop goes on. *)
Lemma collectMonth_before startId endId l range :
  withoutId startId l -> withoutId endId l ->
  collectMonth startId endId l false range = inl (false, range).
Proof.
  intros Hs He. revert range. induction l as [|x l IH]; intros range; cbn; [reflexivity|].
  inversion Hs as [|? ? Hx Hs']; inversion He as [|? ? Hy He']; subst.
  destruct (String.eqb_spec (asset_id x) startId); [contradiction|].
  destruct (String.eqb_spec (asset_id x) endId); [contradiction|].
  now apply IH.
Qed.

(** Between start and end: everything is collected and the loop goes on. *)
Lemma collectMonth_within startId endId l range :
  withoutId endId l ->
  collectMonth startId endId l true range = inl (true, range ++ l).
Proof.
  intros He. revert range. induction l as [|x l IH]; intros range; cbn.
  - now rewrite app_nil_r.
  - inversion He as [|? ? Hy He']; subst.
    destruct (String.eqb_spec (asset_id x) endId); [contradiction|].
    destruct (String.eqb (asset_id x) startId);
      rewrite IH by assumption; now rewrite <- app_assoc.
Qed.

(** At the end: the item is collected and the method returns. *)
Lemma collectMonth_end startId endId b l range :
  asset_id b = endId ->
  collectMonth startId endId (b :: l) true range = inr (range ++ [b]).
Proof.
  intros Hb. cbn. rewrite <- Hb, String.eqb_refl.
  now destruct (String.eqb (asset_id b) startId).
Qed.

(** At the start: collecting begins with the item itself. *)
Lemma collectMonth_start startId endId a l range :
  asset_id a = startId -> asset_id a <> endId ->
  collectMonth startId endId (a :: l) false range
  = collectMonth startId endId l true (range ++ [a]).
Proof.
  intros <- Hne. cbn. rewrite String.eqb_refl.
  destruct (String.eqb_spec (asset_id a) endId); [contradiction|reflexivity].
Qed.

Lemma collectMonth_start_end startId endId b l range :
  asset_id b = startId -> asset_id b = endId ->
  collectMonth startId endId (b :: l) false range = inr (range ++ [b]).
Proof.
  intros <- Hb. cbn. rewrite !String.eqb_refl, <- Hb, String.eqb_refl.
  reflexivity.
Qed.

Lemma withoutId_app id l1 l2 :
  withoutId id (l1 ++ l2) <-> withoutId id l1 /\ withoutId id l2.
Proof. apply Forall_app. Qed.

Lemma withoutId_timeline_cons id s ms :
  withoutId id (timelineAssets (s :: ms))
  <-> withoutId id (assets s) /\ withoutId id (timelineAssets ms).
Proof. unfold timelineAssets; cbn. apply Forall_app. Qed.

(** Segments before the start are passed over, loaded or not. *)
Lemma collectMonths_before startId endId pre rest range :
  withoutId startId (timelineAssets pre) -> withoutId endId (timelineAssets pre) ->
  collectMonths startId endId (pre ++ rest) false range
  = collectMonths startId endId rest false range.
Proof.
  induction pre as [|s pre IH]; intros Hs He; cbn; [reflexivity|].
  apply withoutId_timeline_cons in Hs as [Hs1 Hs2].
  apply withoutId_timeline_cons in He as [He1 He2].
  rewrite collectMonth_before by assumption. now apply IH.
Qed.

(** Loaded segments strictly inside the range are collected whole. *)
Lemma collectMonths_within startId endId mid rest range :
  forallb isLoaded mid = true -> withoutId endId (timelineAssets mid) ->
  collectMonths startId endId (mid ++ rest) true range
  = collectMonths startId endId rest true (range ++ timelineAssets mid).
Proof.
  revert range. induction mid as [|s mid IH]; intros range Hl He; cbn.
  - unfold timelineAssets; cbn. now rewrite app_nil_r.
  - cbn in Hl. apply andb_prop in Hl as [Hl1 Hl2].
    apply withoutId_timeline_cons in He as [He1 He2].
    rewrite Hl1. cbn. rewrite collectMonth_within by assumption.
    rewrite IH by assumption. unfold timelineAssets; cbn. now rewrite app_assoc.
Qed.

(** A segment inside the range that is not loaded empties the answer. *)
Lemma collectMonths_gap startId endId mid rest range :
  forallb isLoaded mid = false -> withoutId endId (timelineAssets mid) ->
  collectMonths startId endId (mid ++ rest) true range = [].
Proof.
  revert range. induction mid as [|s mid IH]; intros range Hl He; cbn.
  - discriminate.
  - cbn in Hl. apply withoutId_timeline_cons in He as [He1 He2].
    destruct (isLoaded s) eqn:Es; cbn; [|reflexivity].
    cbn in Hl. rewrite collectMonth_within by assumption. now apply IH.
Qed.

(** Start and end in one segment: whether that segment is loaded is not
    looked at. *)
Lemma retrieveLoadedRange_one_segment m startId endId pre seg post l1 r0 b l3 :
  months m = pre ++ seg :: post ->
  assets seg = l1 ++ r0 ++ b :: l3 ->
  withoutId startId (timelineAssets pre ++ l1) ->
  withoutId endId (timelineAssets pre ++ l1) ->
  asset_id <$> head (r0 ++ [b]) = Some startId ->
  withoutId endId r0 ->
  asset_id b = endId ->
  retrieveLoadedRange {| ad_id := startId |} {| ad_id := endId |} m = r0 ++ [b].
Proof.
  intros Hm Ha Hs He Hh Hr Hb. unfold retrieveLoadedRange. cbn [ad_id].
  apply withoutId_app in Hs as [Hs1 Hs2]. apply withoutId_app in He as [He1 He2].
  rewrite Hm, collectMonths_before by assumption.
  cbn [collectMonths andb]. rewrite Ha, collectMonth_app.
  rewrite collectMonth_before by assumption.
  destruct r0 as [|a r0].
  - cbn in Hh. injection Hh as Hh. cbn [app].
    rewrite (collectMonth_start_end startId endId b l3 [] Hh Hb). reflexivity.
  - cbn in Hh. injection Hh as Hh. inversion Hr as [|? ? Hne Hr']; subst.
    cbn [app]. rewrite collectMonth_start by auto.
    rewrite collectMonth_app, collectMonth_within by assumption.
    rewrite collectMonth_end by reflexivity. reflexivity.
Qed.

(** Start and end in two segments: the segments after the one of the start,
    up to the one of the end, have to be loaded. *)
Lemma retrieveLoadedRange_two_segments m startId endId pre sa mid sb post
    l1 a l2 l3 b l4 :
  months m = pre ++ sa :: mid ++ sb :: post ->
  assets sa = l1 ++ a :: l2 ->
  assets sb = l3 ++ b :: l4 ->
  withoutId startId (timelineAssets pre ++ l1) ->
  withoutId endId (timelineAssets pre ++ l1) ->
  asset_id a = startId ->
  withoutId endId (a :: l2 ++ timelineAssets mid ++ l3) ->
  asset_id b = endId ->
  retrieveLoadedRange {| ad_id := startId |} {| ad_id := endId |} m
  = if forallb isLoaded (mid ++ [sb])
    then a :: l2 ++ timelineAssets mid ++ l3 ++ [b]
    else [].
Proof.
  intros Hm Ha Hsb Hs He Hida Hr Hb. unfold retrieveLoadedRange. cbn [ad_id].
  apply withoutId_app in Hs as [Hs1 Hs2]. apply withoutId_app in He as [He1 He2].
  inversion Hr as [|? ? Hne Hr']; subst.
  apply withoutId_app in Hr' as [Hr2 Hr']. apply withoutId_app in Hr' as [Hrm Hr3].
  rewrite Hm, collectMonths_before by assumption.
  cbn [collectMonths andb]. rewrite Ha, collectMonth_app.
  rewrite collectMonth_before by assumption.
  rewrite collectMonth_start by auto.
  rewrite collectMonth_within by assumption. cbn [app].
  rewrite forallb_app. cbn [forallb]. rewrite andb_true_r.
  destruct (forallb isLoaded mid) eqn:Emid.
  - rewrite collectMonths_within by assumption.
    cbn [collectMonths andb]. destruct (isLoaded sb); cbn; [|reflexivity].
    rewrite Hsb, collectMonth_app, collectMonth_within by assumption.
    rewrite collectMonth_end by reflexivity.
    rewrite <- app_assoc. cbn [app]. now rewrite <- app_assoc.
  - cbn. now apply collectMonths_gap.
Qed.

(** Such a state is met during pagination: a search-results segment has
    received its first page with the items "a" and "b" and is fetching the
    next page. *)
Lemma retrieveLoadedRange_during_pagination :
  let o := createLayoutOptions (sampleManager []) in
  let seg := fst (page_run columnLayout true o [Resolve; LoadNextPage]
                    (pagedWorld true catTerms [asset "a"; asset "b"] [] [])) in
  loadState seg = Loading
  /\ retrieveLoadedRange {| ad_id := "a" |} {| ad_id := "b" |} (sampleManager [seg])
     = [asset "a"; asset "b"].
Proof. cbv zeta. split; reflexivity. Qed.

(** C2. The segment in which the start item is found is not checked.  One
    segment that is still loading holds the items "a" and "b": the range
    from "a" to "b" spans that segment alone and is answered with both items,
    not with the empty list.  Likewise a range from "b" to "c" that starts
    in a segment that is not loaded and ends in a loaded one is answered
    with [b; c].  A segment that is not loaded is noticed only after the
    one of the start: the range from "a" to "c" over a loaded segment
    followed by a loading one is empty. *)
Theorem retrieveLoadedRange_start_segment_unchecked :
  let seg := sampleSegment Loading 100 ["a"; "b"] in
  let first := sampleSegment NotLoaded 100 ["a"; "b"] in
  let second := sampleSegment Loaded 50 ["c"] in
  (isLoaded seg = false
   /\ holds "a" seg = true /\ holds "b" seg = true
   /\ retrieveLoadedRange {| ad_id := "a" |} {| ad_id := "b" |} (sampleManager [seg])
      = [asset "a"; asset "b"])
  /\ (isLoaded first = false /\ holds "b" first = true /\ holds "c" second = true
      /\ retrieveLoadedRange {| ad_id := "b" |} {| ad_id := "c" |}
           (sampleManager [first; second])
         = [asset "b"; asset "c"])
  /\ retrieveLoadedRange {| ad_id := "a" |} {| ad_id := "c" |}
       (sampleManager [sampleSegment Loaded 100 ["a"; "b"];
                       sampleSegment Loading 50 ["c"]])
     = [].
Proof. cbv zeta. repeat split; reflexivity. Qed.

(** ** Removal *)

Lemma matching_app S l1 l2 : matching S (l1 ++ l2) = matching S l1 ++ matching S l2.
Proof. unfold matching. now rewrite map_app, List.filter_app. Qed.

Lemma surviving_app S l1 l2 : surviving S (l1 ++ l2) = surviving S l1 ++ surviving S l2.
Proof. unfold surviving. apply List.filter_app. Qed.

(** The backward loop over one segment, after the indices [n-1 .. 0]: the
    first [n] viewer assets are filtered, the rest is as it was, and the ids
    removed have been pushed from the back of the segment to its front. *)
Lemma spliceMatching_prefix S n vs removedIds :
  (n <= length vs)%nat ->
  spliceMatching S n vs removedIds
  = (surviving S (take n vs) ++ drop n vs,
     removedIds ++ rev (matching S (take n vs))).
Proof.
  revert vs removedIds. induction n as [|i IH]; intros vs removedIds Hn.
  - cbn. rewrite drop_0. now rewrite app_nil_r.
  - cbn [spliceMatching].
    destruct (lookup_lt_is_Some_2 vs i ltac:(lia)) as [v Hv]. rewrite Hv.
    rewrite (take_S_r vs i v Hv), surviving_app, matching_app, rev_app_distr.
    unfold matching at 1, surviving at 2. cbn [map List.filter].
    destruct (bool_decide (va_id v ∈ S)) eqn:E; cbn [negb rev app].
    + rewrite IH by (rewrite length_delete by eauto; lia).
      rewrite delete_take_drop.
      rewrite take_app_le by (rewrite length_take; lia).
      rewrite take_take, Nat.min_id.
      rewrite drop_app_length' by (rewrite length_take; lia).
      rewrite app_nil_r. f_equal. now rewrite <- app_assoc.
    + rewrite IH by lia. rewrite (drop_S vs v i Hv).
      now rewrite <- app_assoc.
Qed.

Lemma spliceMatching_all S vs removedIds :
  spliceMatching S (length vs) vs removedIds
  = (surviving S vs, removedIds ++ rev (matching S vs)).
Proof.
  rewrite spliceMatching_prefix by lia.
  rewrite firstn_all, drop_all. now rewrite app_nil_r.
Qed.

(** A segment that has lost its items to [removeAssets] is still without
    them after the helpers have run. *)
Lemma removedFrom_sameItems S l l1 l2 :
  Forall2 (removedFrom S) l l1 -> Forall2 sameItems l1 l2 ->
  Forall2 (removedFrom S) l l2.
Proof.
  intros H. revert l2. induction H as [|s s1 l l1 [Ha Hl] _ IH]; intros l2 H2.
  - inversion H2. constructor.
  - inversion H2 as [|? s2 ? l2' (_ & _ & Ha2 & Hl2) Hrest]; subst. constructor.
    + split; [congruence|]. intros Hne. rewrite Hl2. now apply Hl.
    + now apply IH.
Qed.

Lemma includes_In l id : includes l id = true <-> In id l.
Proof.
  unfold includes. rewrite existsb_exists. split.
  - intros (x & Hx & E). apply String.eqb_eq in E. now subst.
  - intros H. exists id. split; [assumption|apply String.eqb_refl].
Qed.

Lemma holds_In id s : holds id s = true <-> In id (map va_id (viewerAssets s)).
Proof.
  unfold holds, assets. rewrite existsb_exists, in_map_iff. split.
  - intros (a & Ha & E). apply String.eqb_eq in E.
    apply in_map_iff in Ha as (v & <- & Hv). now exists v.
  - intros (v & E & Hv). exists (va_asset v). split.
    + now apply in_map.
    + now apply String.eqb_eq.
Qed.

Lemma matching_In S vs id :
  In id (matching S vs) <-> In id (map va_id vs) /\ id ∈ S.
Proof.
  unfold matching. rewrite filter_In. now rewrite bool_decide_eq_true.
Qed.

Lemma surviving_ids S vs id :
  id ∈ S -> ~ In id (map va_id (surviving S vs)).
Proof.
  intros Hid Hin. apply in_map_iff in Hin as (v & <- & Hv).
  unfold surviving in Hv. apply filter_In in Hv as [_ Hv].
  apply negb_true_iff, bool_decide_eq_false in Hv. contradiction.
Qed.

Lemma surviving_assets S vs :
  map va_asset (surviving S vs)
  = List.filter (fun a => negb (bool_decide (asset_id a ∈ S))) (map va_asset vs).
Proof.
  unfold surviving. induction vs as [|v vs IH]; cbn; [reflexivity|].
  unfold va_id at 1. destruct (bool_decide (asset_id (va_asset v) ∈ S)); cbn;
    now rewrite IH.
Qed.

Section ManagerProperties.

Variable layoutAlgorithm : LayoutOptions -> list TimelineAsset -> list Position * Z.
Variable env : Collaborators.

Lemma removeFromSegments_spec o S segments removedIds :
  exists segments',
    removeFromSegments layoutAlgorithm o S segments removedIds
    = (segments',
       removedIds ++ concat (map (fun s => rev (matching S (viewerAssets s))) segments))
    /\ Forall2 (removedFrom S) segments segments'.
Proof.
  revert removedIds. induction segments as [|s rest IH]; intros removedIds.
  - exists []. cbn. rewrite app_nil_r. split; [reflexivity|constructor].
  - cbn [removeFromSegments].
    rewrite spliceMatching_all.
    destruct (IH (removedIds ++ rev (matching S (viewerAssets s))))
      as (rest' & E & HF).
    rewrite E. eexists. split.
    + cbn [map concat]. now rewrite app_assoc.
    + constructor; [|exact HF]. unfold removedFrom.
      destruct (0 <? length (removedIds ++ rev (matching S (viewerAssets s))))%nat eqn:El.
      * rewrite layout_assets. split; [reflexivity|]. intros _.
        now destruct (layout_frame layoutAlgorithm o
                        (with_viewerAssets (surviving S (viewerAssets s)) s))
          as (_ & _ & _ & _ & _ & _ & _ & ->).
      * split; [reflexivity|]. intros Hne. exfalso.
        apply Nat.ltb_ge in El. rewrite length_app, length_rev in El.
        destruct (matching S (viewerAssets s)); [congruence|cbn in El; lia].
Qed.

(** C5. [removeAssets(ids)] returns the input ids, in their order, that no
    segment held; afterwards no segment holds an item with an id of the
    input, and the items that stay keep their order; each segment is scanned
    from its last index to its first, so the ids removed from it are pushed
    in the reverse of their order in the segment; and every segment that
    lost an item is laid out. *)
Theorem removeAssets_spec :
  forall (assetIds : list string) (m : Manager),
    let '(m', notFound, removedIds) := removeAssets_run layoutAlgorithm env assetIds m in
    removeAssets layoutAlgorithm env assetIds m = (m', notFound)
    /\ notFound
       = List.filter (fun id => negb (existsb (holds id) (months m))) assetIds
    /\ (forall s' id, In s' (months m') -> In id assetIds -> holds id s' = false)
    /\ map assets (months m')
       = map (fun s => List.filter (fun a => negb (includes assetIds (asset_id a)))
                         (assets s)) (months m)
    /\ removedIds
       = concat (map (fun s => rev (matching (list_to_set assetIds) (viewerAssets s)))
                   (months m))
    /\ (forall i s s' id,
          months m !! i = Some s -> months m' !! i = Some s' ->
          In id assetIds -> holds id s = true ->
          layoutCalls s' = S (layoutCalls s)).
Proof.
  intros assetIds m.
  unfold removeAssets, removeAssets_run.
  set (S := list_to_set assetIds : gset string).
  destruct (removeFromSegments_spec (createLayoutOptions m) S (months m) [])
    as (segments' & E & HF).
  rewrite E. cbn [app fst].
  set (removedIds := concat (map (fun s => rev (matching S (viewerAssets s))) (months m))).
  set (m' := if (0 <? length removedIds)%nat
             then updateViewportGeometry env false (with_months segments' m)
             else with_months segments' m).
  assert (HF' : Forall2 (removedFrom S) (months m) (months m')).
  { subst m'. destruct (0 <? length removedIds)%nat; [|exact HF].
    eapply removedFrom_sameItems; [exact HF|].
    apply (updateViewportGeometry_evolves env false (with_months segments' m)). }
  clearbody m'. clear E HF.
  assert (HS : forall id, id ∈ S <-> In id assetIds).
  { intros id. subst S. rewrite elem_of_list_to_set. apply list_elem_of_In. }
  split; [reflexivity|]. split; [|split; [|split; [|split]]].
  - apply filter_ext_in. intros id Hid. f_equal.
    apply Bool.eq_iff_eq_true. rewrite includes_In, existsb_exists.
    subst removedIds. rewrite in_concat. split.
    + intros (l & Hl & Hin). apply in_map_iff in Hl as (s & <- & Hs).
      exists s. split; [assumption|]. apply holds_In.
      apply in_rev in Hin. now apply matching_In in Hin as [Hin _].
    + intros (s & Hs & Hh). exists (rev (matching S (viewerAssets s))). split.
      * apply in_map_iff. now exists s.
      * apply in_rev. rewrite rev_involutive. apply matching_In. split.
        -- now apply holds_In.
        -- now apply HS.
  - intros s' id Hs' Hid.
    apply not_true_is_false. intros Hh. apply holds_In in Hh.
    apply list_elem_of_In in Hs'.
    destruct (proj1 (list_elem_of_lookup _ _) Hs') as [i Hi].
    destruct (Forall2_lookup_r _ _ _ _ _ HF' Hi) as (s & _ & Hassets & _).
    assert (Hids : map va_id (viewerAssets s') = map va_id (surviving S (viewerAssets s))).
    { unfold va_id. rewrite <- !(map_map va_asset asset_id).
      fold (assets s'). now rewrite Hassets. }
    rewrite Hids in Hh. revert Hh. apply surviving_ids. now apply HS.
  - clear -HF' HS. induction HF' as [|s s' l l' [Hs _] _ IH]; cbn;
      [reflexivity|].
    rewrite IH, Hs, surviving_assets. f_equal.
    apply filter_ext. intros a. f_equal.
    apply Bool.eq_iff_eq_true. rewrite bool_decide_eq_true, includes_In. apply HS.
  - reflexivity.
  - intros i s s' id Hi Hi' Hid Hh.
    pose proof (Forall2_lookup_lr _ _ _ _ _ _ HF' Hi Hi') as [_ Hl].
    apply Hl. intros Hnil.
    assert (Hin : In id (matching S (viewerAssets s))).
    { apply matching_In. split; [now apply holds_In|now apply HS]. }
    rewrite Hnil in Hin. destruct Hin.
Qed.

End ManagerProperties.

(** ** Loading a segment *)




Lemma matches_searchTerms identifier s s' :
  kind s' = kind s -> searchTerms s' = searchTerms s ->
  matches identifier s' = matches identifier s.
Proof. intros Hk H. destruct identifier; cbn; [reflexivity|now rewrite Hk, H]. Qed.


Lemma findMatching_sameItems identifier l l' :
  Forall2 sameItems l l' -> findMatching identifier l' = findMatching identifier l.
Proof.
  induction 1 as [|s s' l l' (Hk & Ht & _) _ IH]; [reflexivity|]. cbn.
  now rewrite (matches_searchTerms identifier s s' Hk Ht), IH.
Qed.

Lemma with_months_same m : with_months (months m) m = m.
Proof. now destruct m. Qed.





(** ** Re-entrancy of the intersection scan *)

Section ScanProperties.

Variable callee : (Manager -> option Manager) -> Manager -> nat -> option Manager.

(** A call while the flag is set returns the state unchanged; the
    collaborator is not run. *)
Lemma updateIntersectionsRec_suppressed fuel :
  suppresses (updateIntersectionsRec callee (S fuel)).
Proof. intros m H. cbn. now rewrite H. Qed.

Hypothesis callee_ok : WellBehaved callee.

Lemma scanMonthGroups_flag self indices m :
  suppresses self -> updatingIntersections m = true ->
  exists m', scanMonthGroups (callee self) indices m = Some m'
             /\ updatingIntersections m' = true.
Proof.
  intros Hself. revert m. induction indices as [|i rest IH]; intros m Hm; cbn.
  - now exists m.
  - destruct (wb_flag callee callee_ok self m i Hself Hm) as (m1 & -> & Hm1).
    now apply IH.
Qed.

Lemma scanMonthGroups_self self1 self2 indices m :
  suppresses self1 -> suppresses self2 -> updatingIntersections m = true ->
  scanMonthGroups (callee self1) indices m = scanMonthGroups (callee self2) indices m.
Proof.
  intros H1 H2. revert m. induction indices as [|i rest IH]; intros m Hm; cbn;
    [reflexivity|].
  rewrite (wb_self callee callee_ok self1 self2 m i H1 H2 Hm).
  destruct (wb_flag callee callee_ok self2 m i H2 Hm) as (m1 & -> & Hm1).
  now apply IH.
Qed.

(** C8. A call of [updateIntersections] made while a scan is in progress
    (the flag is set) returns at once and leaves the state as it is.  So the
    scan is never entered a second time: an outer scan needs no more than
    one level of calls into itself, all of them suppressed, whatever the
    collaborator asks for; it returns, its result does not depend on the
    recursion budget, and the flag is cleared when it returns. *)
Theorem updateIntersections_not_reentered :
  (forall fuel m,
      updatingIntersections m = true ->
      updateIntersectionsRec callee (S fuel) m = Some m)
  /\ (forall m,
        updatingIntersections m = false ->
        exists m',
          (forall fuel, updateIntersectionsRec callee (S (S fuel)) m = Some m')
          /\ updatingIntersections m' = false).
Proof.
  split; [intros fuel; apply updateIntersectionsRec_suppressed|].
  intros m Hm.
  destruct (negb (isInitialized m)
            || (snd (visibleWindow m) =? fst (visibleWindow m))) eqn:G.
  - exists m. split; [|exact Hm]. intros fuel.
    cbn [updateIntersectionsRec]. rewrite Hm. cbn [orb]. now rewrite G.
  - destruct (scanMonthGroups_flag (updateIntersectionsRec callee 1)
                (seq 0 (length (months (with_updatingIntersections true m))))
                (with_updatingIntersections true m)
                (updateIntersectionsRec_suppressed 0) eq_refl)
      as (m2 & E & _).
    exists (with_updatingIntersections false m2). split; [|reflexivity].
    intros fuel.
    change (updateIntersectionsRec callee (S (S fuel)) m)
      with (if updatingIntersections m || negb (isInitialized m)
               || (snd (visibleWindow m) =? fst (visibleWindow m))
            then Some m
            else match scanMonthGroups
                         (callee (updateIntersectionsRec callee (S fuel)))
                         (seq 0 (length (months (with_updatingIntersections true m))))
                         (with_updatingIntersections true m) with
                 | Some m2 => Some (with_updatingIntersections false m2)
                 | None => None
                 end).
    rewrite Hm. cbn [orb]. rewrite G.
    rewrite (scanMonthGroups_self _ (updateIntersectionsRec callee 1))
      by (try apply updateIntersectionsRec_suppressed; reflexivity).
    now rewrite E.
Qed.

End ScanProperties.

Lemma recordingMonthGroup_ok : WellBehaved recordingMonthGroup.
Proof.
  split.
  - intros self m i _ Hm. eexists. split; [reflexivity|exact Hm].
  - reflexivity.
Qed.

Lemma reenteringMonthGroup_ok : WellBehaved reenteringMonthGroup.
Proof.
  split.
  - intros self m i Hself Hm. unfold reenteringMonthGroup.
    rewrite (Hself (record_call (UpdateIntersectionMonthGroup i) m)) by exact Hm.
    rewrite Hself by exact Hm. eexists. split; [reflexivity|exact Hm].
  - intros self1 self2 m i H1 H2 Hm. unfold reenteringMonthGroup.
    rewrite (H1 (record_call (UpdateIntersectionMonthGroup i) m)) by exact Hm.
    rewrite (H2 (record_call (UpdateIntersectionMonthGroup i) m)) by exact Hm.
    rewrite H1 by exact Hm. now rewrite H2 by exact Hm.
Qed.

Lemma helperMonthGroup_ok env : WellBehaved (helperMonthGroup env).
Proof.
  split.
  - intros self m i _ Hm. eexists. split; [reflexivity|].
    destruct (updateIntersectionMonthGroup_evolves env m i) as (Hs & _).
    apply settings_fields in Hs. destruct Hs as (_ & _ & _ & _ & _ & _ & _ & _ & _ & ->).
    exact Hm.
  - reflexivity.
Qed.

Lemma scanMonthGroups_helper env self indices m :
  scanMonthGroups (helperMonthGroup env self) indices m
  = Some (fold_left (fun acc i => updateIntersectionMonthGroup env acc i) indices m).
Proof.
  revert m. induction indices as [|i rest IH]; intros m; cbn; [reflexivity|].
  apply IH.
Qed.

(** With the helper as it is modelled, the scan with a budget is the scan of
    the manager. *)
Lemma updateIntersectionsRec_helper env fuel m :
  updateIntersectionsRec (helperMonthGroup env) (S fuel) m
  = Some (updateIntersections env m).
Proof.
  cbn [updateIntersectionsRec]. unfold updateIntersections.
  destruct (_ || _ || _); [reflexivity|].
  now rewrite scanMonthGroups_helper.
Qed.

Lemma updateIntersections_not_reentered_witness :
  updateIntersectionsRec reenteringMonthGroup 3
    (with_updatingIntersections true (sampleManager [sampleSegment Loaded 100 ["a"]]))
  = Some (with_updatingIntersections true (sampleManager [sampleSegment Loaded 100 ["a"]]))
  /\ exists m',
      (forall fuel,
          updateIntersectionsRec reenteringMonthGroup (S (S fuel))
            (sampleManager [sampleSegment Loaded 100 ["a"]]) = Some m')
      /\ updatingIntersections m' = false.
Proof.
  split.
  - apply (proj1 (updateIntersections_not_reentered reenteringMonthGroup
                    reenteringMonthGroup_ok)).
    reflexivity.
  - apply (proj2 (updateIntersections_not_reentered reenteringMonthGroup
                    reenteringMonthGroup_ok)).
    reflexivity.
Defined.

(** ** The properties at sample states *)

Lemma loadNextPage_pagination_witness :
  let o := createLayoutOptions (sampleManager []) in
  let w0 := pagedWorld true catTerms [asset "a"] [asset "b"] [asset "c"] in
  let w1 := page_run columnLayout true o [Resolve] w0 in
  let w := page_run columnLayout true o (eagerSchedule 0 1 2) w0 in
  loadNextPage true (fst w0) = fst w0
  /\ loadNextPage true (fst w) = fst w
  /\ (currentPage (loadNextPage true (fst w1)) = Some "2"
      /\ requestedPages (loadNextPage true (fst w1)) = requestedPages (fst w1) ++ ["2"])
  /\ (requestedPages (fst w) = ["1"; "2"; "3"] /\ snd w = [] /\ nextPage (fst w) = None).
Proof.
  intros o w0 w1 w.
  destruct (loadNextPage_pagination columnLayout true o) as (H1 & H2 & H3 & H4 & H5).
  split; [|split; [|split]].
  - apply H1. reflexivity.
  - apply H1. reflexivity.
  - apply H3; [reflexivity|reflexivity|discriminate].
  - apply H5.
Defined.

Lemma fetch_appends_witness :
  let client := fun _ : Request => {| rs_items := [asset "c"]; rs_nextPage := None |} in
  let o := createLayoutOptions (sampleManager []) in
  assets (fetch columnLayout client true o positionedSegment)
  = [asset "a"; asset "b"; asset "c"]
  /\ assets (fetch columnLayout client true o positionedSegment) !! 1%nat
     = Some (asset "b").
Proof.
  intros client o.
  destruct (fetch_appends columnLayout client true o positionedSegment) as (H1 & _ & H3).
  split.
  - rewrite H1. reflexivity.
  - apply H3. reflexivity.
Defined.

Lemma removeAssets_spec_witness :
  let m := sampleManager [sampleSegment Loaded 100 ["a"; "b"; "c"];
                          sampleSegment Loaded 50 ["d"];
                          sampleSegment Loaded 100 ["b"; "e"]] in
  snd (removeAssets columnLayout sampleCollaborators ["b"; "x"; "c"] m) = ["x"]
  /\ exists s',
      months (fst (removeAssets columnLayout sampleCollaborators ["b"; "x"; "c"] m)) !! 2%nat = Some s'
      /\ holds "b" s' = false
      /\ layoutCalls s' = 1%nat.
Proof.
  intros m.
  pose proof (removeAssets_spec columnLayout sampleCollaborators ["b"; "x"; "c"] m) as H.
  destruct (removeAssets_run columnLayout sampleCollaborators ["b"; "x"; "c"] m) as [[m' notFound] removedIds] eqn:E.
  destruct H as (H0 & H1 & H2 & _ & _ & H5).
  rewrite H0. cbn [fst snd]. split; [rewrite H1; reflexivity|].
  assert (Hs' : exists s', months m' !! 2%nat = Some s').
  { apply (f_equal (fun r => length (months (fst (fst r))))) in E.
    cbn [fst] in E. apply lookup_lt_is_Some_2. rewrite <- E. vm_compute. lia. }
  destruct Hs' as [s' Hs']. exists s'. split; [exact Hs'|split].
  - apply H2; [|cbn; tauto].
    apply list_elem_of_In, list_elem_of_lookup. now exists 2%nat.
  - apply (H5 2%nat (sampleSegment Loaded 100 ["b"; "e"]) s' "b");
      [reflexivity|exact Hs'|cbn; tauto|reflexivity].
Defined.


(** * Further properties *)

(** ** The scan, the sliding window and the refresh *)

Lemma evolves_assets cs m m' :
  evolves cs m m' -> map assets (months m') = map assets (months m).
Proof. intros (_ & _ & H). now apply sameItems_map_assets. Qed.

(** X1. A call of [updateIntersections] visits every segment once, in
    order, when no scan is in progress, the manager is initialized and the
    viewport height is not 0; otherwise it visits none and leaves the state
    as it is.  Whatever the helper finds, the settings of the manager are
    afterwards what they were before, the flag [#updatingIntersections]
    among them, and the segments are the same in number, order and items.
    A visit hands the flags found to the segment's [updateIntersection],
    with the flag [#updatingIntersections] set: shown for a manager with one
    segment. *)
Theorem updateIntersections_visits :
  forall (env : Collaborators) (m : Manager),
    calls (updateIntersections env m) = calls m ++ scanCalls m
    /\ settings (updateIntersections env m) = settings m
    /\ updatingIntersections (updateIntersections env m) = updatingIntersections m
    /\ map assets (months (updateIntersections env m)) = map assets (months m)
    /\ (scanRuns m = false -> updateIntersections env m = m)
    /\ (forall s, scanRuns m = true -> months m = [s] ->
          let busy := with_updatingIntersections true m in
          months (updateIntersections env m)
          = [updateIntersection env busy (computeIntersection env busy s) s]).
Proof.
  intros env m.
  pose proof (updateIntersections_evolves env m) as H.
  pose proof (evolves_assets _ _ _ H) as Ha. destruct H as (Hs & Hc & _).
  split; [exact Hc|]. split; [exact Hs|]. split.
  { apply settings_fields in Hs. apply Hs. }
  split; [exact Ha|]. split; [apply updateIntersections_skips|].
  intros s Hrun Hm busy. unfold updateIntersections.
  rewrite window_empty_iff, Hrun. cbn [negb months with_updatingIntersections].
  rewrite Hm. cbn [length seq fold_left].
  unfold updateIntersectionMonthGroup. cbn [months with_updatingIntersections].
  rewrite Hm. reflexivity.
Qed.

Lemma updateSlidingWindow_evolves env value m :
  scrollTop m <> value ->
  evolves (scanCalls m) (with_scrollTop value m) (updateSlidingWindow env value m).
Proof.
  intros H. unfold updateSlidingWindow.
  destruct (Z.eqb_spec (scrollTop m) value); [contradiction|].
  apply (updateIntersections_evolves env (with_scrollTop value m)).
Qed.

(** X2. [updateSlidingWindow] stores the scroll offset, and scans only when
    the offset changes: a second call with the same offset does nothing. *)
Theorem updateSlidingWindow_idempotent :
  forall (env : Collaborators) (value : Z) (m : Manager),
    scrollTop (updateSlidingWindow env value m) = value
    /\ updateSlidingWindow env value (updateSlidingWindow env value m)
       = updateSlidingWindow env value m
    /\ calls (updateSlidingWindow env value m)
       = calls m ++ (if scrollTop m =? value then [] else scanCalls m).
Proof.
  intros env value m.
  assert (H1 : scrollTop (updateSlidingWindow env value m) = value).
  { destruct (Z.eq_dec (scrollTop m) value) as [E|E].
    - unfold updateSlidingWindow. now rewrite (proj2 (Z.eqb_eq _ _) E).
    - destruct (updateSlidingWindow_evolves env value m E) as (Hs & _).
      apply settings_fields in Hs.
      now destruct Hs as (_ & _ & _ & _ & _ & -> & _). }
  split; [exact H1|]. split.
  - unfold updateSlidingWindow at 1. now rewrite H1, Z.eqb_refl.
  - destruct (Z.eqb_spec (scrollTop m) value) as [E|E].
    + unfold updateSlidingWindow. rewrite (proj2 (Z.eqb_eq _ _) E).
      now rewrite app_nil_r.
    + now destruct (updateSlidingWindow_evolves env value m E) as (_ & -> & _).
Qed.

(** X3. [refreshLayout] asks for a geometry update with height invalidation
    of every segment, in order, before any intersection update, and it does
    so whether or not the manager is initialized: after [destroy] the
    geometry updates are still requested and only the scan is left out.
    The refresh may give the segments another geometry; the settings of the
    manager and the items of the segments are as they were. *)
Theorem refreshLayout_geometry_first :
  forall (env : Collaborators) (m : Manager),
    calls (refreshLayout env m) = calls m ++ geometryCalls true m ++ scanCalls m
    /\ calls (refreshLayout env (destroy m)) = calls m ++ geometryCalls true m
    /\ settings (refreshLayout env m) = settings m
    /\ map assets (months (refreshLayout env m)) = map assets (months m).
Proof.
  intros env m.
  pose proof (refreshLayout_evolves env m) as H.
  pose proof (evolves_assets _ _ _ H) as Ha. destruct H as (Hs & Hc & _).
  destruct (refreshLayout_evolves env (destroy m)) as (_ & Hd & _).
  split; [exact Hc|]. split; [|split; assumption].
  rewrite Hd. cbn [calls destroy with_isInitialized]. f_equal.
  unfold scanCalls, scanRuns. cbn [isInitialized destroy with_isInitialized].
  rewrite andb_false_r. cbn. apply app_nil_r.
Qed.

(** ** Layout options, call after call *)

Lemma refreshLayout_options env m :
  headerHeight (refreshLayout env m) = headerHeight m
  /\ gap (refreshLayout env m) = gap m
  /\ rowHeight (refreshLayout env m) = rowHeight m.
Proof.
  destruct (refreshLayout_evolves env m) as (Hs & _). apply settings_fields in Hs.
  destruct Hs as (_ & _ & _ & _ & _ & _ & -> & -> & -> & _). auto.
Qed.

(** One call commits the first option, in the order header height, gap, row
    height, that differs from the configuration, and only that one. *)
Lemma setLayoutOptions_step env c m :
  let h := default 48 (cfg_headerHeight c) in
  let g := default 12 (cfg_gap c) in
  let r := default 235 (cfg_rowHeight c) in
  (headerHeight (setLayoutOptions env c m), gap (setLayoutOptions env c m),
   rowHeight (setLayoutOptions env c m))
  = if headerHeight m =? h
    then if gap m =? g then (h, g, r) else (h, g, rowHeight m)
    else (h, gap m, rowHeight m).
Proof.
  intros h g r. subst h g r.
  destruct (Z.eqb_spec (headerHeight m) (default 48 (cfg_headerHeight c))) as [Eh|Eh].
  - destruct (Z.eqb_spec (gap m) (default 12 (cfg_gap c))) as [Eg|Eg].
    + destruct (Z.eq_dec (rowHeight m) (default 235 (cfg_rowHeight c))) as [Er|Er].
      * rewrite setLayoutOptions_unchanged by assumption. congruence.
      * rewrite setLayoutOptions_rowHeight_changed by assumption.
        destruct (refreshLayout_options env
                    (with_rowHeight (default 235 (cfg_rowHeight c)) m))
          as (-> & -> & ->).
        cbn [headerHeight gap rowHeight with_rowHeight]. congruence.
    + rewrite setLayoutOptions_gap_changed by assumption.
      destruct (refreshLayout_options env (with_gap (default 12 (cfg_gap c)) m))
        as (-> & -> & ->).
      cbn [headerHeight gap rowHeight with_gap]. congruence.
  - rewrite setLayoutOptions_header_changed by assumption.
    destruct (refreshLayout_options env
                (with_headerHeight (default 48 (cfg_headerHeight c)) m))
      as (-> & -> & ->).
    reflexivity.
Qed.

(** X4. Applied three times in a row, a configuration is stored in full,
    whatever the options were before, and a further call with it changes
    nothing: each call commits one more of the options that differ. *)
Theorem setLayoutOptions_thrice :
  forall (env : Collaborators) (c : TimelineManagerLayoutOptions) (m : Manager),
    let m3 := setLayoutOptions env c (setLayoutOptions env c (setLayoutOptions env c m)) in
    headerHeight m3 = default 48 (cfg_headerHeight c)
    /\ gap m3 = default 12 (cfg_gap c)
    /\ rowHeight m3 = default 235 (cfg_rowHeight c)
    /\ setLayoutOptions env c m3 = m3.
Proof.
  intros env c m m3.
  pose proof (setLayoutOptions_step env c m) as H1.
  pose proof (setLayoutOptions_step env c (setLayoutOptions env c m)) as H2.
  pose proof (setLayoutOptions_step env c
                (setLayoutOptions env c (setLayoutOptions env c m))) as H3.
  fold m3 in H3. cbv zeta in H1, H2, H3.
  set (h := default 48 (cfg_headerHeight c)) in *.
  set (g := default 12 (cfg_gap c)) in *.
  set (r := default 235 (cfg_rowHeight c)) in *.
  set (m1 := setLayoutOptions env c m) in *.
  set (m2 := setLayoutOptions env c m1) in *.
  assert (E : headerHeight m3 = h /\ gap m3 = g /\ rowHeight m3 = r).
  { destruct (Z.eqb_spec (headerHeight m) h), (Z.eqb_spec (gap m) g);
      injection H1 as A1 B1 C1; rewrite A1, B1, ?C1 in H2;
      rewrite ?Z.eqb_refl in H2;
      try (destruct (Z.eqb_spec (gap m) g); [|contradiction]);
      try (destruct (Z.eqb_spec (gap m) g); [contradiction|]);
      injection H2 as A2 B2 C2; rewrite A2, B2, ?C2 in H3;
      rewrite ?Z.eqb_refl in H3; injection H3 as A3 B3 C3; auto. }
  destruct E as (Eh & Eg & Er). repeat split; try assumption.
  now apply setLayoutOptions_unchanged.
Qed.

(** ** Lookups *)

Lemma findIndex_Some {A} (p : A -> bool) l i :
  findIndex p l = Some i <->
  exists x, l !! i = Some x /\ p x = true
            /\ forall j y, (j < i)%nat -> l !! j = Some y -> p y = false.
Proof.
  revert i. induction l as [|z l IH]; intros i; cbn [findIndex].
  - split; [discriminate|]. intros (x & Hx & _). discriminate.
  - destruct (p z) eqn:Ez.
    + split.
      * intros [= <-]. exists z. repeat split; [assumption|]. intros j y Hj. lia.
      * intros (x & Hx & Hp & Hfirst). destruct i as [|i]; [reflexivity|].
        exfalso. specialize (Hfirst 0%nat z ltac:(lia) eq_refl). congruence.
    + destruct (findIndex p l) as [k|] eqn:Ek; cbn [option_map].
      * split.
        -- intros [= <-]. destruct (proj1 (IH k) eq_refl) as (x & Hx & Hp & Hfirst).
           exists x. repeat split; try assumption.
           intros [|j] y Hj Hy; cbn in Hy; [congruence|].
           apply (Hfirst j y); [lia|assumption].
        -- intros (x & Hx & Hp & Hfirst). destruct i as [|i].
           ++ cbn in Hx. congruence.
           ++ f_equal. symmetry.
              assert (H : Some k = Some i); [|congruence].
              apply IH. exists x. repeat split; try assumption.
              intros j y Hj Hy. apply (Hfirst (S j) y); [lia|assumption].
      * split; [discriminate|].
        intros (x & Hx & Hp & Hfirst). destruct i as [|i].
        -- cbn in Hx. congruence.
        -- assert (H : None = Some i); [|discriminate].
           apply IH. exists x. repeat split; try assumption.
           intros j y Hj Hy. apply (Hfirst (S j) y); [lia|assumption].
Qed.

Lemma findIndex_None {A} (p : A -> bool) l :
  findIndex p l = None <-> forall x, In x l -> p x = false.
Proof.
  induction l as [|z l IH]; cbn [findIndex].
  - split; [intros _ x []|reflexivity].
  - destruct (p z) eqn:Ez.
    + split; [discriminate|]. intros H. specialize (H z (or_introl eq_refl)). congruence.
    + destruct (findIndex p l) eqn:Ek; cbn [option_map].
      * split; [discriminate|]. intros H.
        assert (E : Some n = None); [|discriminate].
        apply IH. intros x Hx. apply H. now right.
      * split; [|reflexivity]. intros _ x [<-|Hx]; [assumption|].
        now apply (proj1 IH eq_refl).
Qed.

Lemma findIndex_firstWhere p m : firstWhere p m (findIndex p (months m)).
Proof.
  unfold firstWhere. destruct (findIndex p (months m)) as [i|] eqn:E.
  - now apply findIndex_Some.
  - now apply findIndex_None.
Qed.

Lemma find_asset_holds id s :
  match List.find (fun a => String.eqb (asset_id a) id) (assets s) with
  | Some _ => true
  | None => false
  end = holds id s.
Proof.
  unfold holds. induction (assets s) as [|a l IH]; cbn; [reflexivity|].
  now destruct (String.eqb (asset_id a) id).
Qed.

Lemma findSegmentForAssetId_holds id m :
  findSegmentForAssetId id m = findIndex (holds id) (months m).
Proof.
  unfold findSegmentForAssetId. induction (months m) as [|s l IH]; cbn; [reflexivity|].
  now rewrite find_asset_holds, IH.
Qed.

Lemma findMatching_lookedUp identifier l : lookedUp identifier l (findMatching identifier l).
Proof.
  induction l as [|z l IH]; cbn [findMatching].
  - intros s [].
  - destruct (matches identifier z) as [[|]|] eqn:Ez.
    + exists z. repeat split; [assumption|]. intros j s' Hj. lia.
    + destruct (findMatching identifier l) as [k| |]; cbn [shift lookedUp] in *.
      * destruct IH as (s & Hs & Hm & Hfirst). exists s. repeat split; try assumption.
        intros [|j] s' Hj Hs'; cbn in Hs'; [congruence|].
        apply (Hfirst j s'); [lia|assumption].
      * intros s [<-|Hs]; [assumption|now apply IH].
      * destruct IH as (k & s & Hs & Hm & Hfirst). exists (S k), s.
        repeat split; try assumption.
        intros [|j] s' Hj Hs'; cbn in Hs'; [congruence|].
        apply (Hfirst j s'); [lia|assumption].
    + exists 0%nat, z. repeat split; [assumption|]. intros j s' Hj. lia.
Qed.

(** The outcome of the lookup is decided at the first segment that the
    identifier does not reject. *)
Lemma findMatching_at identifier l i s :
  l !! i = Some s ->
  (forall j s', (j < i)%nat -> l !! j = Some s' -> matches identifier s' = Some false) ->
  matches identifier s <> Some false ->
  findMatching identifier l
  = match matches identifier s with Some _ => Found i | None => TypeError end.
Proof.
  revert i. induction l as [|z l IH]; intros i Hi Hfirst Hs; [discriminate|].
  destruct i as [|i]; cbn [findMatching].
  - injection Hi as ->. destruct (matches identifier s) as [[|]|]; congruence.
  - rewrite (Hfirst 0%nat z ltac:(lia) eq_refl).
    rewrite (IH i Hi); [now destruct (matches identifier s)| |assumption].
    intros j s' Hj Hs'. apply (Hfirst (S j) s'); [lia|assumption].
Qed.

(** X5. [getSegmentByIdentifier] returns the first segment, in the order of
    [months], that the identifier matches, and nothing exactly when it
    matches no segment; when the identifier of a search-results segment
    meets a segment of another class before it has matched one, the lookup
    throws. *)
Theorem getSegmentByIdentifier_first :
  forall (i : SegmentIdentifier) (m : Manager),
    lookedUp i (months m) (getSegmentByIdentifier i m).
Proof. intros i m. apply findMatching_lookedUp. Qed.

(** X6. [findSegmentForAssetId] returns the first segment, in the order of
    [months], that holds an item with the id, and nothing exactly when no
    segment holds one. *)
Theorem findSegmentForAssetId_first :
  forall (assetId : string) (m : Manager),
    firstWhere (holds assetId) m (findSegmentForAssetId assetId m).
Proof.
  intros assetId m. rewrite findSegmentForAssetId_holds. apply findIndex_firstWhere.
Qed.

Lemma matches_identifier s : matches (identifier s) s = Some true.
Proof.
  unfold identifier. destruct (kind s) eqn:Ek; cbn; [reflexivity|].
  rewrite Ek. f_equal. now apply bool_decide_eq_true.
Qed.

(** X7. Every segment is matched by its own identifier.  A search-results
    segment is found by it at its own place in [months] when the segments
    before it are search-results segments with other search terms.  When a
    static segment stands before it, preceded by such segments only, the
    lookup throws, because the identifier reads the private search terms of
    the segment it is given.  The identifier of a static segment matches
    every segment, so it finds the first one. *)
Theorem identifier_finds_segment :
  forall (m : Manager) (i : nat) (s : Segment),
    months m !! i = Some s ->
    matches (identifier s) s = Some true
    /\ (kind s = SearchResultsSegment ->
        (forall j s', (j < i)%nat -> months m !! j = Some s' ->
                      kind s' = SearchResultsSegment
                      /\ searchTerms s' <> searchTerms s) ->
        getSegmentByIdentifier (identifier s) m = Found i)
    /\ (kind s = SearchResultsSegment ->
        forall k static,
          (k < i)%nat -> months m !! k = Some static -> kind static = SimpleSegment ->
          (forall j s', (j < k)%nat -> months m !! j = Some s' ->
                        kind s' = SearchResultsSegment
                        /\ searchTerms s' <> searchTerms s) ->
          getSegmentByIdentifier (identifier s) m = TypeError)
    /\ (kind s = SimpleSegment ->
        getSegmentByIdentifier (identifier s) m = Found 0%nat).
Proof.
  intros m i s Hi. split; [apply matches_identifier|].
  assert (Hother : forall s', kind s = SearchResultsSegment ->
            kind s' = SearchResultsSegment /\ searchTerms s' <> searchTerms s ->
            matches (identifier s) s' = Some false).
  { intros s' Hk [Hk' Hne]. unfold identifier. rewrite Hk. cbn. rewrite Hk'.
    f_equal. now apply bool_decide_eq_false. }
  split; [|split].
  - intros Hk Hfirst. unfold getSegmentByIdentifier.
    rewrite (findMatching_at _ _ i s Hi); rewrite ?matches_identifier;
      [reflexivity| |discriminate].
    intros j s' Hj Hs'. apply Hother; [assumption|]. now apply (Hfirst j).
  - intros Hk k static Hlt Hstatic Hkind Hfirst. unfold getSegmentByIdentifier.
    assert (Hthrow : matches (identifier s) static = None).
    { unfold identifier. rewrite Hk. cbn. now rewrite Hkind. }
    rewrite (findMatching_at _ _ k static Hstatic); rewrite ?Hthrow;
      [reflexivity| |discriminate].
    intros j s' Hj Hs'. apply Hother; [assumption|]. now apply (Hfirst j).
  - intros Hk. unfold getSegmentByIdentifier, identifier. rewrite Hk.
    destruct (months m) as [|s0 l]; [discriminate|]. reflexivity.
Qed.

Lemma identifier_finds_segment_witness :
  let a := newSearchResultsSegment "1" catTerms in
  let b := newSearchResultsSegment "1" noTerms in
  getSegmentByIdentifier (identifier b) (sampleManager [a; b]) = Found 1%nat
  /\ getSegmentByIdentifier (identifier b)
       (sampleManager [a; sampleSegment Loaded 0 []; b]) = TypeError
  /\ getSegmentByIdentifier (identifier (sampleSegment Loaded 0 []))
       (sampleManager [a; sampleSegment Loaded 0 []]) = Found 0%nat.
Proof.
  intros a b. split; [|split].
  - apply (proj1 (proj2 (identifier_finds_segment (sampleManager [a; b]) 1 b eq_refl)));
      [reflexivity|].
    intros [|[|j]] s' Hj Hs'; try lia. injection Hs' as <-. split; [reflexivity|discriminate].
  - apply (proj1 (proj2 (proj2 (identifier_finds_segment
                                  (sampleManager [a; sampleSegment Loaded 0 []; b]) 2 b
                                  eq_refl)))
             eq_refl 1%nat (sampleSegment Loaded 0 []));
      [lia|reflexivity|reflexivity|].
    intros [|[|j]] s' Hj Hs'; try lia. injection Hs' as <-. split; [reflexivity|discriminate].
  - apply (proj2 (proj2 (proj2 (identifier_finds_segment
                                  (sampleManager [a; sampleSegment Loaded 0 []]) 1
                                  (sampleSegment Loaded 0 []) eq_refl)))).
    reflexivity.
Defined.

(** ** More about removal *)

Lemma with_viewerAssets_same s : with_viewerAssets (viewerAssets s) s = s.
Proof. now destruct s. Qed.

Lemma surviving_all (S : gset string) vs : matching S vs = [] -> surviving S vs = vs.
Proof.
  unfold matching, surviving. induction vs as [|v vs IH]; cbn; [reflexivity|].
  destruct (bool_decide (va_id v ∈ S)); cbn; [discriminate|].
  intros H. now rewrite IH.
Qed.

(** A segment holds one of the ids exactly when the backward loop finds
    something to remove in it. *)
Lemma matching_nil_iff (assetIds : list string) s :
  matching (list_to_set assetIds) (viewerAssets s) = []
  <-> existsb (fun id => holds id s) assetIds = false.
Proof.
  split.
  - intros H. apply not_true_is_false. intros E.
    apply existsb_exists in E as (id & Hid & Hh).
    assert (Hin : In id (matching (list_to_set assetIds) (viewerAssets s))).
    { apply matching_In. split; [now apply holds_In|].
      apply elem_of_list_to_set. now apply list_elem_of_In. }
    rewrite H in Hin. destruct Hin.
  - intros H.
    destruct (matching (list_to_set assetIds) (viewerAssets s)) as [|id l] eqn:E;
      [reflexivity|exfalso].
    assert (Hin : In id (matching (list_to_set assetIds) (viewerAssets s)))
      by (rewrite E; now left).
    apply matching_In in Hin as [Hin HS].
    apply elem_of_list_to_set, list_elem_of_In in HS.
    assert (T : existsb (fun id => holds id s) assetIds = true).
    { apply existsb_exists. exists id. split; [assumption|now apply holds_In]. }
    congruence.
Qed.

Lemma concat_matching_nil_iff (assetIds : list string) segments :
  concat (map (fun s => rev (matching (list_to_set assetIds) (viewerAssets s))) segments) = []
  <-> anyHeld assetIds segments = false.
Proof.
  unfold anyHeld. induction segments as [|s l IH]; cbn; [tauto|].
  rewrite orb_false_iff, <- IH, <- matching_nil_iff. split.
  - intros H. apply app_eq_nil in H as [H1 H2]. split; [|assumption].
    apply (f_equal (@rev string)) in H1. now rewrite rev_involutive in H1.
  - intros [-> ->]. reflexivity.
Qed.

Lemma holds_filter (S : gset string) id l :
  existsb (fun a => String.eqb (asset_id a) id)
    (List.filter (fun a => negb (bool_decide (asset_id a ∈ S))) l)
  = existsb (fun a => String.eqb (asset_id a) id) l && negb (bool_decide (id ∈ S)).
Proof.
  induction l as [|a l IH]; cbn; [reflexivity|].
  destruct (String.eqb_spec (asset_id a) id) as [E|E].
  - subst id. destruct (bool_decide (asset_id a ∈ S)); cbn.
    + rewrite IH. cbn. now rewrite andb_false_r.
    + rewrite String.eqb_refl. reflexivity.
  - destruct (bool_decide (asset_id a ∈ S)); cbn; [exact IH|].
    destruct (String.eqb_spec (asset_id a) id); [contradiction|]. exact IH.
Qed.

Lemma holds_removedFrom (S : gset string) s s' id :
  removedFrom S s s' -> holds id s' = holds id s && negb (bool_decide (id ∈ S)).
Proof.
  intros [H _]. unfold holds. rewrite H, surviving_assets. apply holds_filter.
Qed.

Lemma findIndex_Forall2 {A} (p q : A -> bool) l l' :
  Forall2 (fun x x' => q x' = p x) l l' -> findIndex q l' = findIndex p l.
Proof.
  induction 1 as [|x x' l l' Hx _ IH]; cbn; [reflexivity|].
  now rewrite Hx, IH.
Qed.

Section RemovalProperties.

Variable layoutAlgorithm : LayoutOptions -> list TimelineAsset -> list Position * Z.
Variable env : Collaborators.

Lemma removeFromSegments_nothing o S segments :
  (forall s, In s segments -> matching S (viewerAssets s) = []) ->
  removeFromSegments layoutAlgorithm o S segments [] = (segments, []).
Proof.
  induction segments as [|s rest IH]; intros H; [reflexivity|].
  cbn [removeFromSegments]. rewrite spliceMatching_all.
  rewrite (H s (or_introl eq_refl)), surviving_all by (apply H; now left).
  cbn [rev app length Nat.ltb Nat.leb]. rewrite IH by (intros x Hx; apply H; now right).
  now rewrite with_viewerAssets_same.
Qed.

Lemma removeAssets_nothing assetIds m :
  anyHeld assetIds (months m) = false ->
  removeAssets_run layoutAlgorithm env assetIds m = (m, assetIds, []).
Proof.
  intros H. unfold removeAssets_run.
  rewrite removeFromSegments_nothing.
  - cbn [length Nat.ltb Nat.leb]. rewrite with_months_same. f_equal. f_equal.
    induction assetIds as [|id l IH]; cbn; [reflexivity|]. f_equal.
    clear -l. induction l as [|x l IH]; cbn; [reflexivity|]. now f_equal.
  - intros s Hs. apply matching_nil_iff.
    unfold anyHeld in H. apply not_true_is_false. intros E.
    assert (T : existsb (fun s => existsb (fun id => holds id s) assetIds) (months m) = true).
    { apply existsb_exists. now exists s. }
    congruence.
Qed.

Lemma removeAssets_months assetIds m :
  Forall2 (removedFrom (list_to_set assetIds)) (months m)
    (months (fst (removeAssets layoutAlgorithm env assetIds m))).
Proof.
  unfold removeAssets, removeAssets_run.
  destruct (removeFromSegments_spec layoutAlgorithm (createLayoutOptions m)
              (list_to_set assetIds) (months m) []) as (segments' & E & HF).
  rewrite E. cbn [fst app].
  destruct (0 <? length _)%nat; [|exact HF].
  eapply removedFrom_sameItems; [exact HF|].
  apply (updateViewportGeometry_evolves env false (with_months segments' m)).
Qed.

Lemma removeAssets_holds assetIds m :
  Forall2 (fun s s' => forall id, holds id s' = holds id s && negb (includes assetIds id))
    (months m) (months (fst (removeAssets layoutAlgorithm env assetIds m))).
Proof.
  eapply Forall2_impl; [apply removeAssets_months|].
  intros s s' H id. cbn beta. rewrite (holds_removedFrom _ s s' id H). f_equal. f_equal.
  apply Bool.eq_iff_eq_true.
  rewrite bool_decide_eq_true, includes_In, elem_of_list_to_set. apply list_elem_of_In.
Qed.

(** X8. When no segment holds an item with one of the ids (the empty list of
    ids included), [removeAssets] changes nothing, calls nothing and returns
    the ids as they were given. *)
Theorem removeAssets_none_held :
  forall (assetIds : list string) (m : Manager),
    anyHeld assetIds (months m) = false ->
    removeAssets layoutAlgorithm env assetIds m = (m, assetIds).
Proof.
  intros assetIds m H. unfold removeAssets.
  now rewrite removeAssets_nothing.
Qed.

Lemma removeAssets_clears assetIds m :
  anyHeld assetIds (months (fst (removeAssets layoutAlgorithm env assetIds m))) = false.
Proof.
  unfold anyHeld. apply not_true_is_false. intros E.
  apply existsb_exists in E as (s' & Hs' & E).
  apply existsb_exists in E as (id & Hid & Hh).
  apply list_elem_of_In, list_elem_of_lookup in Hs' as [i Hi].
  destruct (Forall2_lookup_r _ _ _ _ _ (removeAssets_holds assetIds m) Hi)
    as (s & _ & Hs).
  rewrite Hs in Hh. apply andb_prop in Hh as [_ Hh].
  apply negb_true_iff in Hh.
  assert (T : includes assetIds id = true) by now apply includes_In.
  congruence.
Qed.

(** X9. [removeAssets] is idempotent: a second call with the same ids finds
    none of them, returns them all and leaves the state of the first call
    as it is. *)
Theorem removeAssets_twice :
  forall (assetIds : list string) (m : Manager),
    let m1 := fst (removeAssets layoutAlgorithm env assetIds m) in
    removeAssets layoutAlgorithm env assetIds m1 = (m1, assetIds).
Proof.
  intros assetIds m m1. unfold removeAssets at 1.
  now rewrite removeAssets_nothing by apply removeAssets_clears.
Qed.

(** X10. After [removeAssets(ids)] an id of the list is in no segment,
    [findSegmentForAssetId] returns nothing for it, and every other id is
    found in the segment in which it was found before. *)
Theorem findSegmentForAssetId_after_removeAssets :
  forall (assetIds : list string) (m : Manager) (id : string),
    findSegmentForAssetId id (fst (removeAssets layoutAlgorithm env assetIds m))
    = if includes assetIds id then None else findSegmentForAssetId id m.
Proof.
  intros assetIds m id. rewrite !findSegmentForAssetId_holds.
  pose proof (removeAssets_holds assetIds m) as HF.
  destruct (includes assetIds id) eqn:E.
  - apply findIndex_None. intros s' Hs'.
    apply list_elem_of_In, list_elem_of_lookup in Hs' as [i Hi].
    destruct (Forall2_lookup_r _ _ _ _ _ HF Hi) as (s & _ & Hs).
    rewrite Hs, E. apply andb_false_r.
  - apply findIndex_Forall2. eapply Forall2_impl; [exact HF|].
    intros s s' H. cbn beta. rewrite H, E. apply andb_true_r.
Qed.

End RemovalProperties.

Lemma length_pos_anyHeld (assetIds : list string) segments :
  (0 <? length (concat (map (fun s => rev (matching (list_to_set assetIds) (viewerAssets s)))
                          segments)))%nat
  = anyHeld assetIds segments.
Proof.
  destruct (anyHeld assetIds segments) eqn:E.
  - apply Nat.ltb_lt.
    destruct (concat _) eqn:Ec; [|cbn; lia].
    apply concat_matching_nil_iff in Ec. congruence.
  - apply concat_matching_nil_iff in E. now rewrite E.
Qed.

Section RemovalEffects.

Variable layoutAlgorithm : LayoutOptions -> list TimelineAsset -> list Position * Z.
Variable env : Collaborators.

Lemma removeFromSegments_layout o (S : gset string) segments :
  forall removedIds segments' removedIds' i s s',
    removeFromSegments layoutAlgorithm o S segments removedIds = (segments', removedIds') ->
    segments !! i = Some s -> segments' !! i = Some s' ->
    layoutCalls s'
    = if (0 <? length (removedIds
                       ++ concat (map (fun s => rev (matching S (viewerAssets s)))
                                    (take (Datatypes.S i) segments))))%nat
      then Datatypes.S (layoutCalls s) else layoutCalls s.
Proof.
  induction segments as [|s0 rest IH]; intros removedIds segments' removedIds' i s s' E Hi Hi';
    [discriminate|].
  cbn [removeFromSegments] in E. rewrite spliceMatching_all in E.
  destruct (removeFromSegments layoutAlgorithm o S rest
              (removedIds ++ rev (matching S (viewerAssets s0))))
    as [rest' r''] eqn:Erest.
  injection E as <- <-. destruct i as [|i].
  - cbn [lookup list_lookup] in Hi, Hi'. injection Hi as <-. injection Hi' as <-.
    cbn [take map concat]. rewrite app_nil_r.
    destruct (0 <? length (removedIds ++ rev (matching S (viewerAssets s0))))%nat.
    + now destruct (layout_frame layoutAlgorithm o
                      (with_viewerAssets (surviving S (viewerAssets s0)) s0))
        as (_ & _ & _ & _ & _ & _ & _ & ->).
    + reflexivity.
  - cbn [lookup list_lookup] in Hi, Hi'. rewrite (IH _ _ _ i s s' Erest Hi Hi').
    cbn [take map concat]. now rewrite <- app_assoc.
Qed.

(** X11. [removeAssets] lays a segment out once if that segment or a segment
    before it held an item with one of the ids, and does not lay it out
    otherwise: the test is on the ids removed so far, so the segments that
    follow a removal are laid out as well. *)
Theorem removeAssets_layouts :
  forall (assetIds : list string) (m : Manager) (i : nat) (s s' : Segment),
    months m !! i = Some s ->
    months (fst (removeAssets layoutAlgorithm env assetIds m)) !! i = Some s' ->
    layoutCalls s'
    = if anyHeld assetIds (take (S i) (months m))
      then S (layoutCalls s) else layoutCalls s.
Proof.
  intros assetIds m i s s' Hi Hi'.
  unfold removeAssets, removeAssets_run in Hi'.
  destruct (removeFromSegments layoutAlgorithm (createLayoutOptions m)
              (list_to_set assetIds) (months m) []) as [segments' removedIds] eqn:E.
  cbn [fst] in Hi'.
  assert (Hs' : exists s1, segments' !! i = Some s1 /\ layoutCalls s' = layoutCalls s1).
  { destruct (0 <? length removedIds)%nat; [|now exists s'].
    destruct (updateViewportGeometry_evolves env false (with_months segments' m))
      as (_ & _ & HF).
    destruct (Forall2_lookup_r _ _ _ _ _ HF Hi') as (s1 & Hs1 & _ & _ & _ & Hl).
    now exists s1. }
  destruct Hs' as (s1 & Hs1 & ->).
  rewrite (removeFromSegments_layout _ _ _ _ _ _ i s s1 E Hi Hs1).
  cbn [app]. now rewrite length_pos_anyHeld.
Qed.

(** X12. [removeAssets] asks for the aggregate geometry to be refreshed
    exactly when it removed something: then, on an initialized manager with
    a viewport of non-zero width and height, every segment gets a geometry
    update without height invalidation, followed by the scan; in every
    other case no call is made. *)
Theorem removeAssets_refreshes :
  forall (assetIds : list string) (m : Manager),
    calls (fst (removeAssets layoutAlgorithm env assetIds m))
    = calls m
      ++ (if anyHeld assetIds (months m) && isInitialized m
             && negb (viewportWidth m =? 0) && negb (viewportHeight m =? 0)
          then geometryCalls false m ++ scanCalls m
          else []).
Proof.
  intros assetIds m. unfold removeAssets, removeAssets_run.
  destruct (removeFromSegments_spec layoutAlgorithm (createLayoutOptions m)
              (list_to_set assetIds) (months m) []) as (segments' & E & HF).
  rewrite E. cbn [fst app]. rewrite length_pos_anyHeld.
  apply Forall2_length in HF.
  destruct (anyHeld assetIds (months m)); cbn [andb];
    [|cbn; now rewrite app_nil_r].
  destruct (updateViewportGeometry_evolves env false (with_months segments' m))
    as (_ & -> & _).
  cbn [calls with_months]. f_equal.
  unfold viewportGeometryCalls, geometryCalls, scanCalls, scanRuns. cbn.
  now rewrite <- HF.
Qed.

End RemovalEffects.

(** ** More about range queries *)

(** The loop variables of [retrieveLoadedRange] after the items [done]: the
    range is the end of what has been passed, it is empty as long as
    nothing is collected, and it begins with an item of the start id. *)
Lemma collectMonth_run startId endId l :
  forall collecting range done,
    (exists p, done = p ++ range) ->
    (collecting = false <-> range = []) ->
    (forall x t, range = x :: t -> asset_id x = startId) ->
    match collectMonth startId endId l collecting range with
    | inr r =>
        (exists p l2, done ++ l = p ++ r ++ l2)
        /\ (forall x t, r = x :: t -> asset_id x = startId)
    | inl (c, r) =>
        (exists p, done ++ l = p ++ r)
        /\ (c = false <-> r = [])
        /\ (forall x t, r = x :: t -> asset_id x = startId)
    end.
Proof.
  induction l as [|a l IH]; intros collecting range done (p & Hp) Hc Hh; cbn [collectMonth].
  - rewrite app_nil_r. repeat split; try apply Hc; eauto.
  - set (c' := if String.eqb (asset_id a) startId then true else collecting).
    set (r' := if c' then range ++ [a] else range).
    assert (Hfalse : c' = false -> collecting = false /\ String.eqb (asset_id a) startId = false).
    { subst c'. destruct (String.eqb (asset_id a) startId); [discriminate|auto]. }
    assert (H1 : exists q, done ++ [a] = q ++ r').
    { subst r'. destruct c' eqn:Ec'.
      - exists p. rewrite Hp. now rewrite app_assoc.
      - destruct (Hfalse eq_refl) as [Ecol _].
        rewrite (proj1 Hc Ecol). exists (done ++ [a]). now rewrite app_nil_r. }
    assert (H2 : c' = false <-> r' = []).
    { subst r'. destruct c' eqn:Ec'.
      - split; [discriminate|]. intros E. now apply app_eq_nil in E as [_ E].
      - destruct (Hfalse eq_refl) as [Ecol _]. split; [intros _; now apply Hc|reflexivity]. }
    assert (H3 : forall x t, r' = x :: t -> asset_id x = startId).
    { intros x t E. subst r'. destruct c' eqn:Ec'; [|now apply (Hh x t)].
      destruct range as [|y range'].
      - cbn in E. injection E as <- _. subst c'.
        destruct (String.eqb_spec (asset_id a) startId); [assumption|].
        rewrite (proj2 Hc eq_refl) in Ec'. discriminate.
      - cbn in E. injection E as <- _. now apply (Hh y range'). }
    destruct (String.eqb (asset_id a) endId).
    + split; [|exact H3]. destruct H1 as (q & Hq). exists q, l.
      change (a :: l) with ([a] ++ l). now rewrite app_assoc, Hq, <- app_assoc.
    + specialize (IH c' r' (done ++ [a]) H1 H2 H3).
      change (a :: l) with ([a] ++ l). now rewrite app_assoc.
Qed.

Lemma collectMonths_run startId endId ms :
  forall collecting range done,
    (exists p, done = p ++ range) ->
    (collecting = false <-> range = []) ->
    (forall x t, range = x :: t -> asset_id x = startId) ->
    (exists p s, done ++ timelineAssets ms
                 = p ++ collectMonths startId endId ms collecting range ++ s)
    /\ (forall x t, collectMonths startId endId ms collecting range = x :: t ->
                    asset_id x = startId).
Proof.
  induction ms as [|month ms IH]; intros collecting range done (p & Hp) Hc Hh;
    cbn [collectMonths].
  - split; [|exact Hh]. exists p, []. unfold timelineAssets; cbn.
    now rewrite !app_nil_r.
  - destruct (collecting && negb (isLoaded month)).
    + split; [|discriminate]. exists (done ++ timelineAssets (month :: ms)), [].
      now rewrite !app_nil_r.
    + pose proof (collectMonth_run startId endId (assets month) collecting range done
                    (ex_intro _ p Hp) Hc Hh) as H.
      destruct (collectMonth startId endId (assets month) collecting range)
        as [[c r]|r].
      * destruct H as (H1 & H2 & H3).
        destruct (IH c r (done ++ assets month) H1 H2 H3) as ((q & s & E) & Hhead).
        split; [|exact Hhead]. exists q, s. rewrite <- E.
        unfold timelineAssets; cbn. now rewrite app_assoc.
      * destruct H as ((q & l2 & E) & Hhead). split; [|exact Hhead].
        exists q, (l2 ++ timelineAssets ms). unfold timelineAssets; cbn.
        rewrite app_assoc, E. now rewrite <- !app_assoc.
Qed.

(** X13. Whatever the state and the descriptors, the answer of
    [retrieveLoadedRange] is a run of consecutive items of the timeline: no
    item between two returned items is left out.  An answer that is not
    empty begins with an item of the start id. *)
Theorem retrieveLoadedRange_contiguous :
  forall (start end_ : AssetDescriptor) (m : Manager),
    (exists p s, timelineAssets (months m) = p ++ retrieveLoadedRange start end_ m ++ s)
    /\ (forall x t, retrieveLoadedRange start end_ m = x :: t ->
                    asset_id x = ad_id start).
Proof.
  intros start end_ m. unfold retrieveLoadedRange.
  apply (collectMonths_run (ad_id start) (ad_id end_) (months m) false [] []).
  - now exists [].
  - tauto.
  - discriminate.
Qed.

Lemma collectMonth_no_start startId endId l :
  withoutId startId l ->
  match collectMonth startId endId l false [] with
  | inr r => r = []
  | inl (c, r) => c = false /\ r = []
  end.
Proof.
  induction l as [|a l IH]; intros H; cbn; [auto|].
  inversion H as [|? ? Ha Hl]; subst.
  destruct (String.eqb_spec (asset_id a) startId); [contradiction|].
  destruct (String.eqb (asset_id a) endId); [reflexivity|]. now apply IH.
Qed.

Lemma collectMonths_no_start startId endId ms :
  withoutId startId (timelineAssets ms) ->
  collectMonths startId endId ms false [] = [].
Proof.
  induction ms as [|month ms IH]; intros H; cbn; [reflexivity|].
  apply withoutId_timeline_cons in H as [H1 H2].
  pose proof (collectMonth_no_start startId endId (assets month) H1) as Hm.
  destruct (collectMonth startId endId (assets month) false []) as [[c r]|r].
  - destruct Hm as [-> ->]. now apply IH.
  - exact Hm.
Qed.

Lemma collectMonth_end_first startId endId b l :
  asset_id b = endId -> asset_id b <> startId ->
  collectMonth startId endId (b :: l) false [] = inr [].
Proof.
  intros Hb Hne. cbn.
  destruct (String.eqb_spec (asset_id b) startId); [contradiction|].
  destruct (String.eqb_spec (asset_id b) endId); [reflexivity|contradiction].
Qed.

(** X14. [retrieveLoadedRange] answers with the empty list when no item has
    the start id, and when the first item with the end id comes before every
    item with the start id; the load states play no part in either case. *)
Theorem retrieveLoadedRange_no_start :
  forall (start end_ : AssetDescriptor) (m : Manager),
    (withoutId (ad_id start) (timelineAssets (months m)) ->
     retrieveLoadedRange start end_ m = [])
    /\ (forall pre seg post l1 b l2,
          months m = pre ++ seg :: post ->
          assets seg = l1 ++ b :: l2 ->
          asset_id b = ad_id end_ ->
          withoutId (ad_id start) (timelineAssets pre ++ l1 ++ [b]) ->
          retrieveLoadedRange start end_ m = []).
Proof.
  intros start end_ m. split.
  - intros H. unfold retrieveLoadedRange. now apply collectMonths_no_start.
  - intros pre seg post l1 b l2 Hm Ha Hb Hs. unfold retrieveLoadedRange.
    apply withoutId_app in Hs as [Hs1 Hs2].
    rewrite Hm. clear Hm. induction pre as [|s0 pre IH]; cbn [app collectMonths andb].
    + rewrite Ha, collectMonth_app.
      apply withoutId_app in Hs2 as [Hl1 Hb'].
      inversion Hb' as [|? ? Hne _]; subst.
      pose proof (collectMonth_no_start (ad_id start) (ad_id end_) l1 Hl1) as Hn.
      destruct (collectMonth (ad_id start) (ad_id end_) l1 false []) as [[c r]|r].
      * destruct Hn as [-> ->].
        now rewrite (collectMonth_end_first (ad_id start) (ad_id end_) b l2 Hb Hne).
      * exact Hn.
    + apply withoutId_timeline_cons in Hs1 as [H1 H2].
      pose proof (collectMonth_no_start (ad_id start) (ad_id end_) (assets s0) H1) as Hn.
      destruct (collectMonth (ad_id start) (ad_id end_) (assets s0) false []) as [[c r]|r].
      * destruct Hn as [-> ->]. now apply IH.
      * exact Hn.
Qed.

(** X15. When no item has the end id, the answer runs from the start item
    to the end of the timeline if every segment after the one of the start
    item is loaded, and is empty if one of them is not. *)
Theorem retrieveLoadedRange_open_end :
  forall (start end_ : AssetDescriptor) (m : Manager) pre sa rest l1 a l2,
    months m = pre ++ sa :: rest ->
    assets sa = l1 ++ a :: l2 ->
    asset_id a = ad_id start ->
    withoutId (ad_id start) (timelineAssets pre ++ l1) ->
    withoutId (ad_id end_) (timelineAssets (months m)) ->
    retrieveLoadedRange start end_ m
    = if forallb isLoaded rest then a :: l2 ++ timelineAssets rest else [].
Proof.
  intros start end_ m pre sa rest l1 a l2 Hm Ha Hida Hs He.
  unfold retrieveLoadedRange. rewrite Hm in He |- *.
  unfold timelineAssets in He. rewrite map_app, concat_app in He. cbn in He.
  fold (timelineAssets pre) in He. fold (timelineAssets rest) in He.
  apply withoutId_app in He as [He1 He]. apply withoutId_app in He as [He2 He3].
  rewrite Ha in He2. apply withoutId_app in He2 as [He21 He22].
  inversion He22 as [|? ? Hane He23]; subst.
  apply withoutId_app in Hs as [Hs1 Hs2].
  rewrite collectMonths_before by assumption.
  cbn [collectMonths andb]. rewrite Ha, collectMonth_app.
  rewrite collectMonth_before by assumption.
  rewrite collectMonth_start by auto.
  rewrite collectMonth_within by assumption. cbn [app].
  rewrite <- (app_nil_r rest) at 1.
  destruct (forallb isLoaded rest) eqn:El.
  - rewrite collectMonths_within by assumption. reflexivity.
  - now apply collectMonths_gap.
Qed.

(** ** More about loading a segment *)

(** X16. [loadSegment] touches at most the first segment its identifier
    matches: the other segments, the number of segments and every other
    field of the manager stay as they are, and no collaborator is called
    before the load resolves.  When no segment matches, or the matched
    segment is loaded, the call changes nothing and does not suspend; when
    the lookup throws, the call changes nothing and throws. *)
Theorem loadSegment_call_frame :
  forall (smart : bool) (i : SegmentIdentifier) (options : option bool) (m : Manager),
    let m' := fst (loadSegment_call smart i options m) in
    length (months m') = length (months m)
    /\ calls m' = calls m
    /\ (forall j, getSegmentByIdentifier i m <> Found j -> months m' !! j = months m !! j)
    /\ (getSegmentByIdentifier i m = NotFound ->
        loadSegment_call smart i options m = (m, Returned))
    /\ (getSegmentByIdentifier i m = TypeError ->
        loadSegment_call smart i options m = (m, Thrown))
    /\ (forall j s, getSegmentByIdentifier i m = Found j -> months m !! j = Some s ->
                    loadState s = Loaded ->
                    loadSegment_call smart i options m = (m, Returned)).
Proof.
  intros smart i options m m'. subst m'. unfold loadSegment_call.
  destruct (getSegmentByIdentifier i m) as [k| |] eqn:Ek.
  - destruct (months m !! k) as [s|] eqn:Es.
    + unfold executed, isLoaded.
      destruct (loadState s) eqn:El;
        [destruct (load (default true options) smart s) as [s1 r]
        |destruct (load (default true options) smart s) as [s1 r]|];
        cbn [fst with_months months calls]; rewrite ?length_insert;
        (split; [reflexivity|split; [reflexivity|split; [|split; [|split]]]]).
      * intros j Hj. apply list_lookup_insert_ne. congruence.
      * discriminate.
      * discriminate.
      * intros j s0 [= <-] Hs0 Hl. congruence.
      * intros j Hj. apply list_lookup_insert_ne. congruence.
      * discriminate.
      * discriminate.
      * intros j s0 [= <-] Hs0 Hl. congruence.
      * reflexivity.
      * discriminate.
      * discriminate.
      * reflexivity.
    + cbn [fst]. split; [reflexivity|split; [reflexivity|split; [reflexivity|split; [|split]]]].
      * discriminate.
      * discriminate.
      * reflexivity.
  - cbn [fst]. repeat split; intros; try discriminate; reflexivity.
  - cbn [fst]. repeat split; intros; try discriminate; reflexivity.
Qed.

Lemma loadSegment_call_frame_witness :
  let loaded := with_loadState Loaded (newSearchResultsSegment "1" catTerms) in
  let m := sampleManager [loaded; newSearchResultsSegment "1" noTerms] in
  months (fst (loadSegment_call true (MatchTerms noTerms) None m)) !! 0%nat = Some loaded
  /\ loadSegment_call true (MatchTerms catTerms) None m = (m, Returned)
  /\ loadSegment_call true
       (MatchTerms {| st_query := None; st_queryAssetId := None; st_size := None;
                      st_other := "x" |}) None m = (m, Returned)
  /\ loadSegment_call true (MatchTerms catTerms) None
       (sampleManager [sampleSegment NotLoaded 0 []])
     = (sampleManager [sampleSegment NotLoaded 0 []], Thrown).
Proof.
  intros loaded m.
  destruct (loadSegment_call_frame true (MatchTerms noTerms) None m) as (_ & _ & H3 & _).
  destruct (loadSegment_call_frame true (MatchTerms catTerms) None m)
    as (_ & _ & _ & _ & _ & H5).
  destruct (loadSegment_call_frame true
              (MatchTerms {| st_query := None; st_queryAssetId := None; st_size := None;
                             st_other := "x" |}) None m) as (_ & _ & _ & H4 & _).
  destruct (loadSegment_call_frame true (MatchTerms catTerms) None
              (sampleManager [sampleSegment NotLoaded 0 []])) as (_ & _ & _ & _ & H6 & _).
  split; [|split; [|split]].
  - rewrite H3; [reflexivity|discriminate].
  - apply (H5 0%nat loaded); reflexivity.
  - apply H4. reflexivity.
  - apply H6. reflexivity.
Defined.

(** ** The viewport *)

Lemma evolves_with_viewportWidth cs value m m' :
  evolves cs m m' ->
  evolves cs (with_viewportWidth value m) (with_viewportWidth value m').
Proof.
  intros (Hs & Hc & Hm). apply settings_fields in Hs.
  destruct Hs as (H1 & H2 & H3 & H4 & H5 & H6 & H7 & H8 & H9 & H10).
  unfold evolves, settings. cbn.
  rewrite H1, H2, H3, H4, H6, H7, H8, H9, H10. auto.
Qed.

(** The manager after an [updateViewport] that goes ahead: both dimensions
    are stored, and three rounds of geometry updates have been asked for,
    one by each setter and one by the method itself. *)
Lemma updateViewport_manager env viewport v :
  (vp_height viewport =? 0) && (vp_width viewport =? 0) = false ->
  (viewportHeight (manager v) =? vp_height viewport)
  && (viewportWidth (manager v) =? vp_width viewport) = false ->
  let changedWidth := negb (vp_width viewport =? viewportWidth (manager v)) in
  let mh := with_viewportHeight (vp_height viewport) (manager v) in
  let mhw := with_viewportWidth (vp_width viewport) mh in
  evolves (viewportGeometryCalls false mh
           ++ viewportGeometryCalls changedWidth mhw
           ++ viewportGeometryCalls changedWidth mhw)
    mhw (manager (updateViewport env viewport v)).
Proof.
  intros H1 H2 changedWidth mh mhw. unfold updateViewport. rewrite H1, H2.
  cbn [manager set_viewportHeight set_viewportWidth]. fold mh.
  pose proof (updateViewportGeometry_evolves env false mh) as A.
  set (m1 := updateViewportGeometry env false mh) in *.
  assert (Hw : viewportWidth m1 = viewportWidth (manager v)).
  { destruct A as (Hs & _). apply settings_fields in Hs.
    now destruct Hs as (_ & _ & _ & _ & -> & _). }
  rewrite Hw. fold changedWidth.
  pose proof (evolves_with_viewportWidth _ (vp_width viewport) _ _ A) as A'.
  fold mhw in A'.
  pose proof (updateViewportGeometry_evolves env changedWidth
                (with_viewportWidth (vp_width viewport) m1)) as B.
  rewrite (evolves_viewportGeometryCalls _ changedWidth _ _ A') in B.
  set (m2 := updateViewportGeometry env changedWidth
               (with_viewportWidth (vp_width viewport) m1)) in *.
  pose proof (evolves_trans _ _ _ _ _ A' B) as AB.
  pose proof (updateViewportGeometry_evolves env changedWidth m2) as C.
  rewrite (evolves_viewportGeometryCalls _ changedWidth _ _ AB) in C.
  pose proof (evolves_trans _ _ _ _ _ AB C) as ABC.
  rewrite <- app_assoc in ABC. exact ABC.
Qed.

Lemma viewportGeometryCalls_no_invalidation m :
  forallb (fun c => negb (invalidatesHeight c)) (viewportGeometryCalls false m) = true.
Proof.
  unfold viewportGeometryCalls, geometryCalls, scanCalls.
  destruct (_ && _ && _); [|reflexivity].
  rewrite forallb_app. apply andb_true_intro. split.
  - apply forallb_forall. intros c Hc. apply in_map_iff in Hc as (j & <- & _). reflexivity.
  - destruct (scanRuns m); [|reflexivity].
    apply forallb_forall. intros c Hc. apply in_map_iff in Hc as (j & <- & _). reflexivity.
Qed.

(** X17. An [updateViewport] with both dimensions 0, or with the dimensions
    the manager has, changes nothing.  Every other one stores both
    dimensions, leaves the number of segments, their items, the scroll
    offset and the layout options as they are, suspends the transitions and
    leaves a reset of that flag pending.  The geometry of the segments is
    what the geometry updates leave behind. *)
Theorem updateViewport_stores :
  forall (env : Collaborators) (viewport : Viewport) (v : ManagerView),
    ((vp_height viewport = 0 /\ vp_width viewport = 0)
     \/ (viewportHeight (manager v) = vp_height viewport
         /\ viewportWidth (manager v) = vp_width viewport) ->
     updateViewport env viewport v = v)
    /\ (~ (vp_height viewport = 0 /\ vp_width viewport = 0) ->
        ~ (viewportHeight (manager v) = vp_height viewport
           /\ viewportWidth (manager v) = vp_width viewport) ->
        let v' := updateViewport env viewport v in
        viewportWidth (manager v') = vp_width viewport
        /\ viewportHeight (manager v') = vp_height viewport
        /\ map assets (months (manager v')) = map assets (months (manager v))
        /\ scrollTop (manager v') = scrollTop (manager v)
        /\ rowHeight (manager v') = rowHeight (manager v)
        /\ headerHeight (manager v') = headerHeight (manager v)
        /\ gap (manager v') = gap (manager v)
        /\ suspendTransitions (transitions v') = true
        /\ resetSuspendTransitionsPending (transitions v') = true).
Proof.
  intros env viewport v. split.
  - intros [[Hh Hw]|[Hh Hw]]; unfold updateViewport.
    + now rewrite Hh, Hw.
    + rewrite Hh, Hw, !Z.eqb_refl. now destruct (_ && _).
  - intros H1 H2 v'.
    assert (E1 : (vp_height viewport =? 0) && (vp_width viewport =? 0) = false).
    { apply not_true_is_false. intros E. apply andb_prop in E as [Ea Eb].
      apply H1. split; now apply Z.eqb_eq. }
    assert (E2 : (viewportHeight (manager v) =? vp_height viewport)
                 && (viewportWidth (manager v) =? vp_width viewport) = false).
    { apply not_true_is_false. intros E. apply andb_prop in E as [Ea Eb].
      apply H2. split; now apply Z.eqb_eq. }
    pose proof (updateViewport_manager env viewport v E1 E2) as H. cbv zeta in H.
    pose proof (evolves_assets _ _ _ H) as Ha. destruct H as (Hs & _).
    apply settings_fields in Hs.
    destruct Hs as (_ & _ & _ & Hvh & Hvw & Hst & Hrh & Hhh & Hg & _).
    subst v'. rewrite Hvh, Hvw, Hst, Hrh, Hhh, Hg, Ha.
    unfold updateViewport. rewrite E1, E2. cbn. repeat split.
Qed.

(** X18. An [updateViewport] that does not change the width never asks for
    the heights to be invalidated: every geometry update it requests
    carries [invalidateHeight: false]. *)
Theorem updateViewport_same_width :
  forall (env : Collaborators) (viewport : Viewport) (v : ManagerView),
    vp_width viewport = viewportWidth (manager v) ->
    exists cs,
      calls (manager (updateViewport env viewport v)) = calls (manager v) ++ cs
      /\ forallb (fun c => negb (invalidatesHeight c)) cs = true.
Proof.
  intros env viewport v Hw.
  destruct ((vp_height viewport =? 0) && (vp_width viewport =? 0)) eqn:E1.
  { exists []. unfold updateViewport. rewrite E1. now rewrite app_nil_r. }
  destruct ((viewportHeight (manager v) =? vp_height viewport)
            && (viewportWidth (manager v) =? vp_width viewport)) eqn:E2.
  { exists []. unfold updateViewport. rewrite E1, E2. now rewrite app_nil_r. }
  destruct (updateViewport_manager env viewport v E1 E2) as (_ & Hc & _).
  rewrite Hw, Z.eqb_refl in Hc. cbn [negb] in Hc.
  eexists. split; [exact Hc|].
  rewrite !forallb_app, !viewportGeometryCalls_no_invalidation. reflexivity.
Qed.

(** X19. An [updateViewport] that changes the width of an initialized
    manager to a viewport of non-zero width and height asks, for every
    segment, for a geometry update with height invalidation. *)
Theorem updateViewport_new_width :
  forall (env : Collaborators) (viewport : Viewport) (v : ManagerView) (i : nat),
    isInitialized (manager v) = true ->
    vp_width viewport <> viewportWidth (manager v) ->
    vp_width viewport <> 0 -> vp_height viewport <> 0 ->
    (i < length (months (manager v)))%nat ->
    In (UpdateGeometry i true) (calls (manager (updateViewport env viewport v))).
Proof.
  intros env viewport v i Hinit Hw Hw0 Hh0 Hi.
  assert (E1 : (vp_height viewport =? 0) && (vp_width viewport =? 0) = false).
  { destruct (Z.eqb_spec (vp_height viewport) 0); [contradiction|reflexivity]. }
  assert (E2 : (viewportHeight (manager v) =? vp_height viewport)
               && (viewportWidth (manager v) =? vp_width viewport) = false).
  { destruct (Z.eqb_spec (viewportWidth (manager v)) (vp_width viewport));
      [congruence|apply andb_false_r]. }
  destruct (updateViewport_manager env viewport v E1 E2) as (_ & Hc & _).
  rewrite Hc. clear Hc.
  destruct (Z.eqb_spec (vp_width viewport) (viewportWidth (manager v))); [contradiction|].
  cbn [negb calls with_viewportWidth with_viewportHeight].
  apply in_or_app. right. apply in_or_app. right.
  apply in_or_app. left.
  unfold viewportGeometryCalls. cbn [isInitialized viewportWidth viewportHeight
                                      with_viewportWidth with_viewportHeight].
  rewrite Hinit.
  destruct (Z.eqb_spec (vp_width viewport) 0); [contradiction|].
  destruct (Z.eqb_spec (vp_height viewport) 0); [contradiction|].
  cbn [negb andb]. apply in_or_app. left.
  unfold geometryCalls. apply in_map_iff. exists i. split; [reflexivity|].
  apply in_seq. cbn. lia.
Qed.

(** ** Transition flags *)

(** X20. Setting [scrolling] to true suspends the transitions and leaves
    both resets pending; once both timers have fired, in either order, both
    flags are false and nothing is pending.  Setting [scrolling] to false
    leaves [suspendTransitions] alone. *)
Theorem scrolling_resets :
  forall (t : Transitions) (first second : Timer),
    let t1 := set_scrolling true t in
    scrolling t1 = true /\ suspendTransitions t1 = true
    /\ (first <> second ->
        fire second (fire first t1)
        = {| scrolling := false; suspendTransitions := false;
             resetScrollingPending := false;
             resetSuspendTransitionsPending := false |})
    /\ suspendTransitions (set_scrolling false t) = suspendTransitions t.
Proof.
  intros t first second t1. subst t1. repeat split.
  intros Hne. destruct first, second; try contradiction; reflexivity.
Qed.

(** X21. The setter of [viewportHeight] suspends the transitions without
    scheduling the reset: if no reset was pending, none is pending
    afterwards, and the flag stays set whichever timer fires.  The setter of
    [viewportWidth] schedules it: when the timer fires the flag is
    cleared. *)
Theorem viewportHeight_keeps_transitions_suspended :
  forall (env : Collaborators) (value : Z) (v : ManagerView) (k : Timer),
    resetSuspendTransitionsPending (transitions v) = false ->
    suspendTransitions (transitions (set_viewportHeight env value v)) = true
    /\ resetSuspendTransitionsPending (transitions (set_viewportHeight env value v)) = false
    /\ suspendTransitions (fire k (transitions (set_viewportHeight env value v))) = true
    /\ suspendTransitions
         (fire ResetSuspendTransitions (transitions (set_viewportWidth env value v)))
       = false.
Proof.
  intros env value v k H. destruct v as [m [sc su p1 p2]]. cbn in H. subst p2.
  unfold set_viewportHeight, set_viewportWidth.
  cbn [transitions manager scrolling suspendTransitions resetScrollingPending
       resetSuspendTransitionsPending].
  destruct k, p1; cbn; auto.
Qed.

(** ** More about the paginated segment *)

Lemma assignPositions_placed ps vs :
  length ps = length vs ->
  Forall (fun v => exists p, va_position v = Some p) (assignPositions ps vs).
Proof.
  revert ps. induction vs as [|v vs IH]; intros ps H; cbn; [constructor|].
  destruct ps as [|p ps]; [discriminate|]. constructor.
  - now exists p.
  - apply IH. cbn in H. lia.
Qed.

Lemma find_id_some (id : string) (l : list ViewerAsset) :
  In id (map va_id l) ->
  exists v, List.find (fun v => String.eqb (va_id v) id) l = Some v
            /\ In v l /\ va_id v = id.
Proof.
  intros H. destruct (List.find (fun v => String.eqb (va_id v) id) l) as [v|] eqn:E.
  - exists v. apply find_some in E as [Hin Heq]. repeat split; [assumption|].
    now apply String.eqb_eq.
  - exfalso. apply in_map_iff in H as (v & Hv & Hin).
    pose proof (find_none _ _ E v Hin) as Hn. cbn in Hn.
    rewrite Hv, String.eqb_refl in Hn. discriminate.
Qed.

Section PaginationProperties.

Variable layoutAlgorithm : LayoutOptions -> list TimelineAsset -> list Position * Z.
Variable env : Collaborators.

Lemma fetch_response_pages o r s :
  currentPage (fetch_response layoutAlgorithm o r s) = currentPage s
  /\ nextPage (fetch_response layoutAlgorithm o r s) = rs_nextPage r.
Proof.
  unfold fetch_response.
  destruct (layout_frame layoutAlgorithm o
              (with_viewerAssets (viewerAssets s ++ map newViewerAsset (rs_items r))
                 (with_nextPage (rs_nextPage r) s)))
    as (_ & -> & -> & _). split; reflexivity.
Qed.

Lemma load_settled_pages s :
  currentPage (load_settled s) = currentPage s
  /\ nextPage (load_settled s) = nextPage s.
Proof. unfold load_settled. destruct (loadState s); split; reflexivity. Qed.

(** X22. When the client answers a page with a next-page token equal to the
    token of that very page, pagination comes to a halt: [loadNextPage]
    takes the answer for a load in flight, and however often it is called it
    changes nothing and asks for no page. *)
Theorem repeated_token_stalls :
  forall (smart : bool) (o : LayoutOptions) (r : Response) (s : Segment)
         (p : string) (k : nat),
    currentPage s = Some p ->
    rs_nextPage r = Some p ->
    let s' := load_settled (fetch_response layoutAlgorithm o r s) in
    Nat.iter k (loadNextPage smart) s' = s'.
Proof.
  intros smart o r s p k Hc Hr s'.
  assert (E : loadNextPage smart s' = s').
  { apply (loadNextPage_in_flight smart s' p); subst s'.
    - destruct (load_settled_pages (fetch_response layoutAlgorithm o r s)) as [_ ->].
      destruct (fetch_response_pages o r s) as [_ ->]. exact Hr.
    - destruct (load_settled_pages (fetch_response layoutAlgorithm o r s)) as [-> _].
      destruct (fetch_response_pages o r s) as [-> _]. exact Hc. }
  induction k as [|k IH]; [reflexivity|].
  change (loadNextPage smart (Nat.iter k (loadNextPage smart) s') = s').
  now rewrite IH.
Qed.

(** X23. A fetch that has a current page lays the segment out before it
    returns: if the layout algorithm yields one position per item, every
    item the segment then holds, old or new, is placed, and
    [findAssetAbsolutePosition] answers with the segment's top plus the
    row-relative top of the first item with the id plus the header
    height. *)
Theorem fetch_places_items :
  forall (client : Request -> Response) (smart : bool) (o : LayoutOptions)
         (s : Segment) (managerHeaderHeight : Z) (id : string),
    (forall o l, length (fst (layoutAlgorithm o l)) = length l) ->
    currentPage s <> None ->
    let s' := fetch layoutAlgorithm client smart o s in
    holds id s' = true ->
    exists v p,
      In v (viewerAssets s') /\ va_id v = id /\ va_position v = Some p
      /\ findAssetAbsolutePosition s' managerHeaderHeight id
         = top s + pos_top p + managerHeaderHeight.
Proof.
  intros client smart o s hh id Halgo Hc s' Hh.
  destruct (currentPage s) as [page|] eqn:Ec; [|contradiction].
  assert (Hplaced : Forall (fun v => exists p, va_position v = Some p) (viewerAssets s')
                    /\ top s' = top s).
  { subst s'. unfold fetch, fetch_request. rewrite Ec.
    unfold fetch_response, layout.
    match goal with |- context [layoutAlgorithm ?a ?b] =>
      pose proof (Halgo a b) as Hlen; destruct (layoutAlgorithm a b) as [ps h] end.
    cbn [viewerAssets top]. split; [|reflexivity].
    apply assignPositions_placed. cbn [fst] in Hlen. rewrite Hlen.
    unfold assets. now rewrite length_map. }
  destruct Hplaced as [Hplaced Htop].
  apply holds_In in Hh. destruct (find_id_some id _ Hh) as (v & Hfind & Hin & Hid).
  destruct (proj1 (List.Forall_forall _ _) Hplaced v Hin) as [p Hp].
  exists v, p. repeat split; try assumption.
  unfold findAssetAbsolutePosition. now rewrite Hfind, Hp, Htop.
Qed.

(** X24. After [removeAssets(ids)], [findAssetAbsolutePosition] answers -1
    for every id of the list in every segment. *)
Theorem findAssetAbsolutePosition_after_removeAssets :
  forall (assetIds : list string) (m : Manager) (s' : Segment)
         (managerHeaderHeight : Z) (id : string),
    In s' (months (fst (removeAssets layoutAlgorithm env assetIds m))) ->
    In id assetIds ->
    findAssetAbsolutePosition s' managerHeaderHeight id = -1.
Proof.
  intros assetIds m s' hh id Hs' Hid.
  assert (Hh : holds id s' = false).
  { apply list_elem_of_In, list_elem_of_lookup in Hs' as [i Hi].
    destruct (Forall2_lookup_r _ _ _ _ _ (removeAssets_holds layoutAlgorithm env assetIds m) Hi)
      as (s & _ & Hs).
    rewrite Hs. rewrite (proj2 (includes_In assetIds id) Hid). apply andb_false_r. }
  unfold findAssetAbsolutePosition. rewrite find_none_id; [reflexivity|].
  intros v Hv E. assert (T : holds id s' = true); [|congruence].
  apply holds_In. apply in_map_iff. now exists v.
Qed.

End PaginationProperties.

(** X25. A new search-results segment has no items, is not loaded, and
    reserves room for [searchTerms.size] items, or for 100 when the size is
    missing or 0, so never for none.  Its first load asks the client for
    exactly the page given to the constructor, with the terms of the
    segment and the flags [withExif] and [isVisible] set. *)
Theorem newSearchResultsSegment_first_load :
  forall (page : string) (t : SearchTerms) (cancelable smart : bool),
    let s := newSearchResultsSegment page t in
    initialCount s <> 0
    /\ (forall n, st_size t = Some n -> n <> 0 -> initialCount s = n)
    /\ viewerAssets s = [] /\ isLoaded s = false
    /\ requests (fst (load cancelable smart s))
       = [ {| rq_terms := t; rq_withExif := true; rq_isVisible := true;
              rq_page := page; rq_smart := isSmartQuery t && smart |} ]
    /\ loadNextPage smart (fst (load cancelable smart s)) = fst (load cancelable smart s).
Proof.
  intros page t cancelable smart s. subst s. cbn. repeat split.
  - destruct (st_size t) as [n|]; [|discriminate].
    destruct (Z.eqb_spec n 0); [discriminate|assumption].
  - intros n -> Hn. now destruct (Z.eqb_spec n 0).
Qed.

(** ** The upload service *)

Lemma roundDouble_exact z : Z.abs z <= 2 ^ 53 -> roundDouble z = z.
Proof.
  intros H. unfold roundDouble.
  destruct (Z.eq_dec (Z.abs z) (2 ^ 53)) as [E|E].
  - destruct (Z.abs_eq_or_opp z) as [Ez|Ez]; rewrite Ez in E.
    + subst z. reflexivity.
    + assert (Hz : z = - 2 ^ 53) by lia. subst z. reflexivity.
  - assert (Hlog : Z.log2 (Z.abs z) - 52 <= 0).
    { destruct (Z.eq_dec (Z.abs z) 0) as [E0|E0]; [rewrite E0; cbn; lia|].
      assert (Z.log2 (Z.abs z) < 53); [|lia].
      apply Z.log2_lt_pow2; lia. }
    destruct (Z.leb_spec (Z.log2 (Z.abs z) - 52) 0); [reflexivity|lia].
Qed.

(** X26. As long as the usage plus the size of the upload is an integer
    that a [number] holds exactly (at most 2^53 in absolute value),
    [requireQuota] lets an upload pass exactly when the user has no quota or
    that sum does not exceed the quota; an upload that fills the quota to
    the last byte passes, and if an upload passes then so does every
    smaller one.  Beyond 2^53 the sum is rounded before it is compared: with
    a quota of 2^53 bytes and a usage of 2^53 - 1, an upload of 2 bytes
    passes, one byte over the quota. *)
Theorem requireQuota_accepts :
  forall (user : AuthUser) (size : Z),
    Z.abs (quotaUsageInBytes user + size) <= 2 ^ 53 ->
    (requireQuota user size = None <->
     forall quota, quotaSizeInBytes user = Some quota ->
                   quotaUsageInBytes user + size <= quota)
    /\ (forall smaller, smaller <= size ->
                        Z.abs (quotaUsageInBytes user + smaller) <= 2 ^ 53 ->
                        requireQuota user size = None ->
                        requireQuota user smaller = None)
    /\ (requireQuota user size <> None ->
        requireQuota user size = Some "Quota has been exceeded!")
    /\ requireQuota {| quotaSizeInBytes := Some (2 ^ 53);
                       quotaUsageInBytes := 2 ^ 53 - 1 |} 2 = None.
Proof.
  intros user size Hexact. unfold requireQuota at 1 2 3 4 5.
  destruct (quotaSizeInBytes user) as [quota|];
    [|repeat split; try congruence; reflexivity].
  rewrite (roundDouble_exact _ Hexact).
  split; [|split; [|split]].
  - destruct (Z.ltb_spec quota (quotaUsageInBytes user + size)); split.
    + discriminate.
    + intros H'. specialize (H' quota eq_refl). lia.
    + intros _ q [= <-]. assumption.
    + reflexivity.
  - intros smaller Hs Hsmall. rewrite (roundDouble_exact _ Hsmall).
    destruct (Z.ltb_spec quota (quotaUsageInBytes user + size)); [discriminate|].
    intros _. destruct (Z.ltb_spec quota (quotaUsageInBytes user + smaller)); [lia|reflexivity].
  - destruct (quota <? quotaUsageInBytes user + size); congruence.
  - reflexivity.
Qed.

Lemma requireQuota_accepts_witness :
  requireQuota {| quotaSizeInBytes := Some 100; quotaUsageInBytes := 60 |} 40 = None
  /\ requireQuota {| quotaSizeInBytes := Some 100; quotaUsageInBytes := 60 |} 10 = None
  /\ requireQuota {| quotaSizeInBytes := Some 100; quotaUsageInBytes := 60 |} 41
     = Some "Quota has been exceeded!".
Proof.
  assert (B40 : Z.abs (60 + 40) <= 2 ^ 53) by (cbn; lia).
  assert (B41 : Z.abs (60 + 41) <= 2 ^ 53) by (cbn; lia).
  destruct (requireQuota_accepts {| quotaSizeInBytes := Some 100; quotaUsageInBytes := 60 |} 40
              B40) as (H1 & H2 & _).
  destruct (requireQuota_accepts {| quotaSizeInBytes := Some 100; quotaUsageInBytes := 60 |} 41
              B41) as (_ & _ & H3 & _).
  split; [|split].
  - apply H1. intros quota [= <-]. cbn. lia.
  - apply H2; [lia|cbn; lia|]. apply H1. intros quota [= <-]. cbn. lia.
  - apply H3. discriminate.
Defined.

Lemma waitForTusd_from_spec ready i remaining :
  match waitForTusd_from ready i remaining with
  | TusdReady k =>
      (i < k <= i + remaining)%nat /\ ready (pred k) = true
      /\ forall j, (i <= j < pred k)%nat -> ready j = false
  | TusdFailed k =>
      k = (i + remaining)%nat
      /\ forall j, (i <= j < i + remaining)%nat -> ready j = false
  end.
Proof.
  revert i. induction remaining as [|n IH]; intros i; cbn [waitForTusd_from].
  - split; [lia|]. intros j Hj. lia.
  - destruct (ready i) eqn:E.
    + cbn [pred]. split; [lia|split; [assumption|]]. intros j Hj. lia.
    + specialize (IH (S i)).
      destruct (waitForTusd_from ready (S i) n) as [k|k].
      * destruct IH as (H1 & H2 & H3). split; [lia|split; [assumption|]].
        intros j Hj. destruct (Nat.eq_dec j i) as [->|Hne]; [assumption|].
        apply H3. lia.
      * destruct IH as (H1 & H2). split; [lia|].
        intros j Hj. destruct (Nat.eq_dec j i) as [->|Hne]; [assumption|].
        apply H2. lia.
Qed.

(** X27. [waitForTusd] stops at the first connection attempt that succeeds
    and reports the server as ready; it makes no attempt beyond
    [maxRetries], and it fails exactly when all [maxRetries] attempts fail,
    in particular at once when [maxRetries] is 0. *)
Theorem waitForTusd_first_success :
  forall (ready : nat -> bool) (maxRetries : nat),
    match waitForTusd ready maxRetries with
    | TusdReady k =>
        (0 < k <= maxRetries)%nat /\ ready (pred k) = true
        /\ forall j, (j < pred k)%nat -> ready j = false
    | TusdFailed k =>
        k = maxRetries /\ forall j, (j < maxRetries)%nat -> ready j = false
    end.
Proof.
  intros ready maxRetries. unfold waitForTusd.
  pose proof (waitForTusd_from_spec ready 0 maxRetries) as H.
  destruct (waitForTusd_from ready 0 maxRetries) as [k|k].
  - destruct H as (H1 & H2 & H3). split; [lia|split; [assumption|]].
    intros j Hj. apply H3. lia.
  - destruct H as (H1 & H2). split; [lia|]. intros j Hj. apply H2. lia.
Qed.

(** ** The further properties at sample states *)

Lemma updateIntersections_visits_witness :
  let s := sampleSegment Loaded 100 ["a"] in
  updateIntersections sampleCollaborators (destroy (sampleManager [s]))
  = destroy (sampleManager [s])
  /\ months (updateIntersections sampleCollaborators (sampleManager [s]))
     = [with_intersection (true, true) s].
Proof.
  intros s.
  destruct (updateIntersections_visits sampleCollaborators (destroy (sampleManager [s])))
    as (_ & _ & _ & _ & H5 & _).
  destruct (updateIntersections_visits sampleCollaborators (sampleManager [s]))
    as (_ & _ & _ & _ & _ & H6).
  split.
  - apply H5. reflexivity.
  - rewrite (H6 s eq_refl eq_refl). reflexivity.
Defined.

Lemma getSegmentByIdentifier_first_witness :
  lookedUp (MatchTerms noTerms)
    [newSearchResultsSegment "1" catTerms; newSearchResultsSegment "1" noTerms]
    (Found 1%nat)
  /\ lookedUp (MatchTerms noTerms)
       [newSearchResultsSegment "1" catTerms; sampleSegment Loaded 100 ["a"]]
       TypeError.
Proof.
  split.
  - apply (getSegmentByIdentifier_first (MatchTerms noTerms)
             (sampleManager [newSearchResultsSegment "1" catTerms;
                             newSearchResultsSegment "1" noTerms])).
  - apply (getSegmentByIdentifier_first (MatchTerms noTerms)
             (sampleManager [newSearchResultsSegment "1" catTerms;
                             sampleSegment Loaded 100 ["a"]])).
Defined.

Lemma findSegmentForAssetId_first_witness :
  firstWhere (holds "c")
    (sampleManager [sampleSegment Loaded 100 ["a"; "b"];
                    sampleSegment Loaded 100 ["c"]])
    (Some 1%nat)
  /\ firstWhere (holds "z")
       (sampleManager [sampleSegment Loaded 100 ["a"; "b"];
                       sampleSegment Loaded 100 ["c"]])
       None.
Proof.
  split.
  - apply (findSegmentForAssetId_first "c"
             (sampleManager [sampleSegment Loaded 100 ["a"; "b"];
                             sampleSegment Loaded 100 ["c"]])).
  - apply (findSegmentForAssetId_first "z"
             (sampleManager [sampleSegment Loaded 100 ["a"; "b"];
                             sampleSegment Loaded 100 ["c"]])).
Defined.

Lemma removeAssets_none_held_witness :
  let m := sampleManager [sampleSegment Loaded 100 ["a"; "b"]] in
  removeAssets columnLayout sampleCollaborators ["x"; "y"] m = (m, ["x"; "y"])
  /\ removeAssets columnLayout sampleCollaborators [] m = (m, []).
Proof.
  intros m. split.
  - apply (removeAssets_none_held columnLayout sampleCollaborators ["x"; "y"] m). reflexivity.
  - apply (removeAssets_none_held columnLayout sampleCollaborators [] m). reflexivity.
Defined.

Lemma removeAssets_layouts_witness :
  let m := sampleManager [sampleSegment Loaded 100 ["a"];
                          sampleSegment Loaded 100 ["b"];
                          sampleSegment Loaded 100 ["c"]] in
  exists s0 s2,
    months (fst (removeAssets columnLayout sampleCollaborators ["b"] m)) !! 0%nat = Some s0
    /\ months (fst (removeAssets columnLayout sampleCollaborators ["b"] m)) !! 2%nat = Some s2
    /\ layoutCalls s0 = 0%nat /\ layoutCalls s2 = 1%nat.
Proof.
  intros m.
  destruct (months (fst (removeAssets columnLayout sampleCollaborators ["b"] m)) !! 0%nat) as [s0|] eqn:E0;
    [|vm_compute in E0; discriminate].
  destruct (months (fst (removeAssets columnLayout sampleCollaborators ["b"] m)) !! 2%nat) as [s2|] eqn:E2;
    [|vm_compute in E2; discriminate].
  exists s0, s2. repeat split.
  - apply (removeAssets_layouts columnLayout sampleCollaborators ["b"] m 0 (sampleSegment Loaded 100 ["a"]) s0
             eq_refl E0).
  - apply (removeAssets_layouts columnLayout sampleCollaborators ["b"] m 2 (sampleSegment Loaded 100 ["c"]) s2
             eq_refl E2).
Defined.

Lemma retrieveLoadedRange_contiguous_witness :
  asset_id (asset "b") = "b"
  /\ exists p s,
      timelineAssets [sampleSegment Loaded 100 ["a"; "b"; "c"; "d"]]
      = p ++ retrieveLoadedRange {| ad_id := "b" |} {| ad_id := "c" |}
               (sampleManager [sampleSegment Loaded 100 ["a"; "b"; "c"; "d"]]) ++ s.
Proof.
  destruct (retrieveLoadedRange_contiguous {| ad_id := "b" |} {| ad_id := "c" |}
              (sampleManager [sampleSegment Loaded 100 ["a"; "b"; "c"; "d"]]))
    as [H1 H2].
  split; [|exact H1].
  apply (H2 (asset "b") [asset "c"]). reflexivity.
Defined.

Lemma retrieveLoadedRange_no_start_witness :
  retrieveLoadedRange {| ad_id := "z" |} {| ad_id := "b" |}
    (sampleManager [sampleSegment Loaded 100 ["a"; "b"]]) = []
  /\ retrieveLoadedRange {| ad_id := "c" |} {| ad_id := "b" |}
       (sampleManager [sampleSegment Loaded 100 ["a"; "b"; "c"]]) = [].
Proof.
  split.
  - apply (proj1 (retrieveLoadedRange_no_start {| ad_id := "z" |} {| ad_id := "b" |}
                    (sampleManager [sampleSegment Loaded 100 ["a"; "b"]]))).
    unfold withoutId; cbn; repeat (constructor; [discriminate|]); constructor.
  - apply (proj2 (retrieveLoadedRange_no_start {| ad_id := "c" |} {| ad_id := "b" |}
                    (sampleManager [sampleSegment Loaded 100 ["a"; "b"; "c"]]))
             [] (sampleSegment Loaded 100 ["a"; "b"; "c"]) [] [asset "a"] (asset "b")
             [asset "c"]); try reflexivity.
    unfold withoutId; cbn; repeat (constructor; [discriminate|]); constructor.
Defined.

Lemma retrieveLoadedRange_open_end_witness :
  retrieveLoadedRange {| ad_id := "b" |} {| ad_id := "z" |}
    (sampleManager [sampleSegment Loaded 100 ["a"; "b"; "c"];
                    sampleSegment Loaded 100 ["d"]])
  = [asset "b"; asset "c"; asset "d"]
  /\ retrieveLoadedRange {| ad_id := "b" |} {| ad_id := "z" |}
       (sampleManager [sampleSegment Loaded 100 ["a"; "b"; "c"];
                       sampleSegment NotLoaded 100 []])
     = [].
Proof.
  split.
  - apply (retrieveLoadedRange_open_end {| ad_id := "b" |} {| ad_id := "z" |} _
             [] (sampleSegment Loaded 100 ["a"; "b"; "c"]) [sampleSegment Loaded 100 ["d"]]
             [asset "a"] (asset "b") [asset "c"]); try reflexivity;
      unfold withoutId; cbn; repeat (constructor; [discriminate|]); constructor.
  - apply (retrieveLoadedRange_open_end {| ad_id := "b" |} {| ad_id := "z" |} _
             [] (sampleSegment Loaded 100 ["a"; "b"; "c"]) [sampleSegment NotLoaded 100 []]
             [asset "a"] (asset "b") [asset "c"]); try reflexivity;
      unfold withoutId; cbn; repeat (constructor; [discriminate|]); constructor.
Defined.

(** A view of a manager with no transition pending. *)
Lemma updateViewport_stores_witness :
  let v := {| manager := sampleManager [sampleSegment Loaded 100 ["a"]];
              transitions := {| scrolling := false; suspendTransitions := false;
                                resetScrollingPending := false;
                                resetSuspendTransitionsPending := false |} |} in
  updateViewport sampleCollaborators {| vp_width := 1000; vp_height := 800 |} v = v
  /\ viewportWidth (manager (updateViewport sampleCollaborators {| vp_width := 1200; vp_height := 800 |} v))
     = 1200
  /\ suspendTransitions
       (transitions (updateViewport sampleCollaborators {| vp_width := 1200; vp_height := 800 |} v)) = true.
Proof.
  intros v.
  destruct (updateViewport_stores sampleCollaborators {| vp_width := 1000; vp_height := 800 |} v) as [H1 _].
  destruct (updateViewport_stores sampleCollaborators {| vp_width := 1200; vp_height := 800 |} v) as [_ H2].
  split.
  - apply H1. right. split; reflexivity.
  - assert (A : ~ (vp_height {| vp_width := 1200; vp_height := 800 |} = 0
                   /\ vp_width {| vp_width := 1200; vp_height := 800 |} = 0))
      by (intros [A _]; discriminate).
    assert (B : ~ (viewportHeight (manager v)
                   = vp_height {| vp_width := 1200; vp_height := 800 |}
                   /\ viewportWidth (manager v)
                      = vp_width {| vp_width := 1200; vp_height := 800 |}))
      by (intros [_ B]; discriminate).
    destruct (H2 A B) as (Hw & _ & _ & _ & _ & _ & _ & Hs & _). split; assumption.
Defined.

Lemma updateViewport_same_width_witness :
  let v := {| manager := sampleManager [sampleSegment Loaded 100 ["a"]];
              transitions := {| scrolling := false; suspendTransitions := false;
                                resetScrollingPending := false;
                                resetSuspendTransitionsPending := false |} |} in
  exists cs,
    calls (manager (updateViewport sampleCollaborators {| vp_width := 1000; vp_height := 600 |} v))
    = calls (manager v) ++ cs
    /\ forallb (fun c => negb (invalidatesHeight c)) cs = true.
Proof.
  intros v.
  apply (updateViewport_same_width sampleCollaborators {| vp_width := 1000; vp_height := 600 |} v).
  reflexivity.
Defined.

Lemma updateViewport_new_width_witness :
  let v := {| manager := sampleManager [sampleSegment Loaded 100 ["a"]];
              transitions := {| scrolling := false; suspendTransitions := false;
                                resetScrollingPending := false;
                                resetSuspendTransitionsPending := false |} |} in
  In (UpdateGeometry 0 true)
    (calls (manager (updateViewport sampleCollaborators {| vp_width := 1200; vp_height := 800 |} v))).
Proof.
  intros v.
  apply (updateViewport_new_width sampleCollaborators {| vp_width := 1200; vp_height := 800 |} v 0);
    try reflexivity; try discriminate. cbn. lia.
Defined.

Lemma scrolling_resets_witness :
  fire ResetScrolling
    (fire ResetSuspendTransitions
       (set_scrolling true {| scrolling := false; suspendTransitions := false;
                              resetScrollingPending := false;
                              resetSuspendTransitionsPending := false |}))
  = {| scrolling := false; suspendTransitions := false;
       resetScrollingPending := false; resetSuspendTransitionsPending := false |}.
Proof.
  apply (proj1 (proj2 (proj2 (scrolling_resets
                                {| scrolling := false; suspendTransitions := false;
                                   resetScrollingPending := false;
                                   resetSuspendTransitionsPending := false |}
                                ResetSuspendTransitions ResetScrolling)))).
  discriminate.
Defined.

Lemma viewportHeight_keeps_transitions_suspended_witness :
  let v := {| manager := sampleManager [sampleSegment Loaded 100 ["a"]];
              transitions := {| scrolling := false; suspendTransitions := false;
                                resetScrollingPending := false;
                                resetSuspendTransitionsPending := false |} |} in
  suspendTransitions
    (fire ResetSuspendTransitions (transitions (set_viewportHeight sampleCollaborators 600 v))) = true.
Proof.
  intros v.
  apply (viewportHeight_keeps_transitions_suspended sampleCollaborators 600 v ResetSuspendTransitions).
  reflexivity.
Defined.

Lemma repeated_token_stalls_witness :
  let o := createLayoutOptions (sampleManager []) in
  let s := fst (load true true (newSearchResultsSegment "1" catTerms)) in
  let s' := load_settled
              (fetch_response columnLayout o
                 {| rs_items := [asset "a"]; rs_nextPage := Some "1" |} s) in
  Nat.iter 3 (loadNextPage true) s' = s'.
Proof.
  intros o s s'.
  apply (repeated_token_stalls columnLayout true o
           {| rs_items := [asset "a"]; rs_nextPage := Some "1" |} s "1" 3);
    reflexivity.
Defined.

Lemma columnLayout_length o l : length (fst (columnLayout o l)) = length l.
Proof. unfold columnLayout. cbn [fst]. apply length_imap. Qed.

Lemma fetch_places_items_witness :
  let client := fun _ : Request => {| rs_items := [asset "c"]; rs_nextPage := None |} in
  let o := createLayoutOptions (sampleManager []) in
  exists v p,
    In v (viewerAssets (fetch columnLayout client true o positionedSegment))
    /\ va_id v = "a" /\ va_position v = Some p
    /\ findAssetAbsolutePosition (fetch columnLayout client true o positionedSegment) 48 "a"
       = top positionedSegment + pos_top p + 48.
Proof.
  intros client o.
  apply (fetch_places_items columnLayout client true o positionedSegment 48 "a"
           columnLayout_length).
  - discriminate.
  - reflexivity.
Defined.

Lemma findAssetAbsolutePosition_after_removeAssets_witness :
  let m := sampleManager [sampleSegment Loaded 100 ["a"; "b"]] in
  exists s',
    months (fst (removeAssets columnLayout sampleCollaborators ["b"] m)) !! 0%nat = Some s'
    /\ findAssetAbsolutePosition s' 48 "b" = -1.
Proof.
  intros m.
  destruct (months (fst (removeAssets columnLayout sampleCollaborators ["b"] m)) !! 0%nat) as [s'|] eqn:E;
    [|vm_compute in E; discriminate].
  exists s'. split; [reflexivity|].
  apply (findAssetAbsolutePosition_after_removeAssets columnLayout sampleCollaborators ["b"] m s' 48 "b").
  - apply list_elem_of_In, list_elem_of_lookup. now exists 0%nat.
  - now left.
Defined.

Lemma newSearchResultsSegment_first_load_witness :
  initialCount (newSearchResultsSegment "1" catTerms) = 2.
Proof.
  apply (proj1 (proj2 (newSearchResultsSegment_first_load "1" catTerms true true)) 2);
    [reflexivity|discriminate].
Defined.

Lemma waitForTusd_first_success_witness :
  waitForTusd (fun j => (2 <=? j)%nat) 5 = TusdReady 3
  /\ waitForTusd (fun j => (2 <=? j)%nat) 2 = TusdFailed 2
  /\ match waitForTusd (fun j => (2 <=? j)%nat) 5 with
     | TusdReady k => (0 < k <= 5)%nat
     | TusdFailed _ => False
     end.
Proof.
  split; [reflexivity|split; [reflexivity|]].
  pose proof (waitForTusd_first_success (fun j => (2 <=? j)%nat) 5) as H.
  destruct (waitForTusd (fun j => (2 <=? j)%nat) 5) as [k|k].
  - apply H.
  - destruct H as [_ H]. specialize (H 2%nat ltac:(lia)). discriminate.
Defined.
